(** * FullBinaryTree: a shallow embedding of the container and its codecs

    The development follows [FullBinaryTree.h]: the node structure, the
    breadth-first loops of [insert], [find] and [remove] with their
    explicit queues, the recursive shape check, and the binary and text
    codecs over a character stream; then the copies, [clear] and the two
    printers, and the Go port [FullBinaryTree.go] with its text codec. *)

From Stdlib Require Import List ZArith NArith Lia Bool Ascii String Arith Sorted Permutation.
Import ListNotations.

Set Warnings "-register-all".

(** ** Element interface *)

(** The template parameter [T] must support [operator==]. *)
Class EqOp (T : Type) := eq_op : T -> T -> bool.

(** ** [size_t] *)

(** [size_t] is taken as the 64-bit unsigned type of the platforms the
    library is built for. *)
Module SizeT.
Definition modulus : Z := 2 ^ 64.
Definition max : Z := modulus - 1.
(** Unsigned 64-bit wrap-around of [+=] and [-=]. *)
Definition wrap (z : Z) : Z := z mod modulus.
Definition in_range (z : Z) : Prop := (0 <= z < modulus)%Z.
End SizeT.

(** ** Nodes and pointers *)

Section Model.
Context {T : Type} `{EqOp T}.

(** [struct Node { T data; Node* left; Node* right; }]; a [Node*] is an
    [option Node], [None] being [nullptr]. *)
Inductive Node : Type :=
  mkNode { data : T; left : option Node; right : option Node }.

(** [new Node(value)]; allocation is taken to succeed. *)
Definition newNode (value : T) : Node := mkNode value None None.

(** Child slots, and the address of a node as the slots followed from the
    root. Ownership is tree shaped, so an address names one node. *)
Inductive Slot : Type := LeftSlot | RightSlot.
Definition Addr : Type := list Slot.

Definition slot_eqb (a b : Slot) : bool :=
  match a, b with
  | LeftSlot, LeftSlot | RightSlot, RightSlot => true
  | _, _ => false
  end.

Fixpoint addr_eqb (a b : Addr) : bool :=
  match a, b with
  | [], [] => true
  | x :: a', y :: b' => slot_eqb x y && addr_eqb a' b'
  | _, _ => false
  end.

Definition child (s : Slot) (n : Node) : option Node :=
  match s with LeftSlot => left n | RightSlot => right n end.

Definition set_child (s : Slot) (c : option Node) (n : Node) : Node :=
  match s with
  | LeftSlot => mkNode (data n) c (right n)
  | RightSlot => mkNode (data n) (left n) c
  end.

(** A non-null [Node*] held in a local variable or a queue: the address it
    holds and the node found there. *)
Record Ptr : Type := mkPtr { addr : Addr; pointee : Node }.

(** Reading the node at an address. *)
Fixpoint node_at (a : Addr) (p : option Node) : option Node :=
  match a with
  | [] => p
  | s :: a' =>
      match p with
      | None => None
      | Some n => node_at a' (child s n)
      end
  end.

(** Writing through a pointer: the node at address [a] is replaced by
    [f] of it. No node lives at an address outside the tree, and nothing
    is written there. *)
Fixpoint write_at (a : Addr) (f : Node -> Node) (p : option Node) : option Node :=
  match p with
  | None => None
  | Some n =>
      match a with
      | [] => Some (f n)
      | s :: a' => Some (set_child s (write_at a' f (child s n)) n)
      end
  end.

(** Number of nodes reachable from a pointer. *)
Fixpoint countNode (n : Node) : nat :=
  match n with
  | mkNode _ l r =>
      S ((match l with Some x => countNode x | None => 0 end) +
         (match r with Some x => countNode x | None => 0 end))
  end.

Definition count (p : option Node) : nat :=
  match p with Some n => countNode n | None => 0 end.

(** ** The container *)

Record FullBinaryTree : Type := mkTree { root : option Node; size : Z }.

(** [FullBinaryTree()] *)
Definition empty : FullBinaryTree := mkTree None 0.

Definition getSize (t : FullBinaryTree) : Z := size t.
Definition isEmpty (t : FullBinaryTree) : bool := (size t =? 0)%Z.

(** [destroyTree]: the nodes handed to [delete], children first. *)
Fixpoint destroyNode (a : Addr) (n : Node) : list Ptr :=
  match n with
  | mkNode _ l r =>
      (match l with Some x => destroyNode (a ++ [LeftSlot]) x | None => [] end) ++
      (match r with Some x => destroyNode (a ++ [RightSlot]) x | None => [] end) ++
      [mkPtr a n]
  end.

Definition destroyTree (a : Addr) (p : option Node) : list Ptr :=
  match p with Some n => destroyNode a n | None => [] end.

(** [clear]: the emptied tree and the nodes deleted. *)
Definition clear (t : FullBinaryTree) : FullBinaryTree * list Ptr :=
  (mkTree None 0, destroyTree [] (root t)).

(** [copyTree] *)
Fixpoint copyNode (n : Node) : Node :=
  match n with
  | mkNode d l r =>
      mkNode d
        (match l with Some x => Some (copyNode x) | None => None end)
        (match r with Some x => Some (copyNode x) | None => None end)
  end.

Definition copyTree (p : option Node) : option Node :=
  match p with Some n => Some (copyNode n) | None => None end.

(** ** Shape check *)

Definition one_child (n : Node) : bool :=
  match left n, right n with
  | None, Some _ | Some _, None => true
  | _, _ => false
  end.

Fixpoint isFullBinaryTreeNode (n : Node) : bool :=
  match n with
  | mkNode _ l r =>
      if one_child n then false
      else (match l with Some x => isFullBinaryTreeNode x | None => true end) &&
           (match r with Some x => isFullBinaryTreeNode x | None => true end)
  end.

Definition isFullBinaryTreeHelper (node : option Node) : bool :=
  match node with
  | None => true
  | Some n => isFullBinaryTreeNode n
  end.

Definition isFullBinaryTree (t : FullBinaryTree) : bool :=
  isFullBinaryTreeHelper (root t).

(** ** Breadth-first loops *)

Definition is_leaf (n : Node) : bool :=
  match left n, right n with
  | None, None => true
  | _, _ => false
  end.

Definition is_internal (n : Node) : bool :=
  match left n, right n with
  | Some _, Some _ => true
  | _, _ => false
  end.

(** [if (current->left) q.push(current->left);
     if (current->right) q.push(current->right);] *)
Definition push_child (s : Slot) (current : Ptr) : list Ptr :=
  match child s (pointee current) with
  | Some c => [mkPtr (addr current ++ [s]) c]
  | None => []
  end.

Definition push_children (current : Ptr) : list Ptr :=
  push_child LeftSlot current ++ push_child RightSlot current.

(** The traversal of [print]: the nodes in the order the queue yields
    them. Every loop below runs on fuel; [None] means the fuel ran out. *)
Fixpoint level_order_loop (fuel : nat) (q : list Ptr) : option (list Ptr) :=
  match q with
  | [] => Some []
  | current :: q' =>
      match fuel with
      | O => None
      | S fuel' =>
          match level_order_loop fuel' (q' ++ push_children current) with
          | Some rest => Some (current :: rest)
          | None => None
          end
      end
  end.

Definition root_queue (p : option Node) : list Ptr :=
  match p with Some r => [mkPtr [] r] | None => [] end.

Definition level_order (p : option Node) : option (list Ptr) :=
  level_order_loop (S (count p)) (root_queue p).

(** *** insert *)

(** [current->left = new Node(value); current->right = new Node(value);] *)
Definition attach_pair (value : T) (n : Node) : Node :=
  mkNode (data n) (Some (newNode value)) (Some (newNode value)).

Fixpoint insert_loop (value : T) (t : FullBinaryTree) (fuel : nat)
    (q : list Ptr) : option FullBinaryTree :=
  match q with
  | [] => Some t
  | current :: q' =>
      match fuel with
      | O => None
      | S fuel' =>
          if is_leaf (pointee current) then
            Some (mkTree (write_at (addr current) (attach_pair value) (root t))
                         (SizeT.wrap (size t + 2)))
          else insert_loop value t fuel' (q' ++ push_children current)
      end
  end.

Definition insert (value : T) (t : FullBinaryTree) : option FullBinaryTree :=
  match root t with
  | None => Some (mkTree (Some (newNode value)) 1)
  | Some r => insert_loop value t (S (countNode r)) [mkPtr [] r]
  end.

(** *** find *)

Fixpoint find_loop (value : T) (fuel : nat) (q : list Ptr) : option bool :=
  match q with
  | [] => Some false
  | current :: q' =>
      match fuel with
      | O => None
      | S fuel' =>
          if eq_op (data (pointee current)) value then Some true
          else find_loop value fuel' (q' ++ push_children current)
      end
  end.

Definition find (value : T) (t : FullBinaryTree) : option bool :=
  match root t with
  | None => Some false
  | Some r => find_loop value (S (countNode r)) [mkPtr [] r]
  end.

(** *** remove *)

(** [std::pair<Node*, Node*>]: a node and its parent, [None] for the root. *)
Definition Pair : Type := (Ptr * option Ptr)%type.

Definition push_children_of (current : Ptr) : list Pair :=
  map (fun c => (c, Some current)) (push_children current).

(** First loop: the first node holding [value], with its parent. *)
Fixpoint target_loop (value : T) (fuel : nat) (q : list Pair)
    : option (option Pair) :=
  match q with
  | [] => Some None
  | (current, par) :: q' =>
      match fuel with
      | O => None
      | S fuel' =>
          if eq_op (data (pointee current)) value then Some (Some (current, par))
          else target_loop value fuel' (q' ++ push_children_of current)
      end
  end.

(** Second loop: a whole scan that remembers the last leaf seen. *)
Fixpoint rightmost_loop (fuel : nat) (q : list Pair) (rightmost : option Pair)
    : option (option Pair) :=
  match q with
  | [] => Some rightmost
  | (current, par) :: q' =>
      match fuel with
      | O => None
      | S fuel' =>
          rightmost_loop fuel' (q' ++ push_children_of current)
            (if is_leaf (pointee current) then Some (current, par) else rightmost)
      end
  end.

Definition set_data (d : T) (n : Node) : Node := mkNode d (left n) (right n).

Definition unlink_children (n : Node) : Node := mkNode (data n) None None.

(** [delete p->left; delete p->right; p->left = p->right = nullptr;] on the
    node at address [a]: the tree afterwards and the nodes deleted. *)
Definition delete_children (a : Addr) (p : option Node) : option Node * list Ptr :=
  match node_at a p with
  | Some n => (write_at a unlink_children p, push_children (mkPtr a n))
  | None => (p, [])
  end.

(** [remove]: the tree afterwards and the nodes handed to [delete]. *)
Definition remove (value : T) (t : FullBinaryTree)
    : option (FullBinaryTree * list Ptr) :=
  match root t with
  | None => Some (t, [])
  | Some r =>
      match target_loop value (S (countNode r)) [(mkPtr [] r, None)] with
      | None => None
      | Some None => Some (t, [])
      | Some (Some (target, parent)) =>
          if is_leaf (pointee target) then
            match parent with
            | Some p =>
                let (root', deleted) := delete_children (addr p) (root t) in
                Some (mkTree root' (SizeT.wrap (size t - 2)), deleted)
            | None => Some (mkTree None 0, [mkPtr [] r])
            end
          else if is_internal (pointee target) then
            match rightmost_loop (S (countNode r)) [(mkPtr [] r, None)] None with
            | None => None
            | Some None => Some (t, [])
            | Some (Some (rightmost, rightmostParent)) =>
                if addr_eqb (addr rightmost) (addr target) then Some (t, [])
                else
                  let root1 :=
                    write_at (addr target) (set_data (data (pointee rightmost)))
                             (root t) in
                  match rightmostParent with
                  | Some rp =>
                      let (root2, deleted) := delete_children (addr rp) root1 in
                      Some (mkTree root2 (SizeT.wrap (size t - 2)), deleted)
                  | None => Some (mkTree root1 (size t), [])
                  end
            end
          else Some (t, [])
      end
  end.

(** ** Sequences of public mutations *)

Inductive Op : Type :=
| OpInsert (value : T)
| OpRemove (value : T)
| OpClear.

Definition step (o : Op) (t : FullBinaryTree) : option FullBinaryTree :=
  match o with
  | OpInsert v => insert v t
  | OpRemove v => option_map fst (remove v t)
  | OpClear => Some (fst (clear t))
  end.

Fixpoint run (ops : list Op) (t : FullBinaryTree) : option FullBinaryTree :=
  match ops with
  | [] => Some t
  | o :: ops' =>
      match step o t with
      | Some t' => run ops' t'
      | None => None
      end
  end.

End Model.

Arguments Node T : clear implicits.
Arguments Ptr T : clear implicits.
Arguments Pair T : clear implicits.
Arguments FullBinaryTree T : clear implicits.
Arguments Op T : clear implicits.
Arguments empty {T}.

(** ** Character streams *)

(** The characters of a string literal. *)
Definition chars (s : string) : list ascii := list_ascii_of_string s.

Fixpoint chars_eqb (x y : list ascii) : bool :=
  match x, y with
  | [], [] => true
  | c :: x', d :: y' => Ascii.eqb c d && chars_eqb x' y'
  | _, _ => false
  end.

(** [std::isspace] and [std::isdigit] in the classic locale. *)
Definition isspace (c : ascii) : bool :=
  let n := N_of_ascii c in
  ((n =? 32) || ((9 <=? n) && (n <=? 13)))%N.

Definition isdigit (c : ascii) : bool :=
  let n := N_of_ascii c in ((48 <=? n) && (n <=? 57))%N.

Definition digit_char (d : N) : ascii := ascii_of_N (48 + d).
Definition digit_value (c : ascii) : N := N_of_ascii c - 48.

(** Longest prefix whose characters satisfy [p], and what follows it. *)
Fixpoint span (p : ascii -> bool) (s : list ascii) : list ascii * list ascii :=
  match s with
  | [] => ([], [])
  | c :: s' =>
      if p c then let (tok, rest) := span p s' in (c :: tok, rest)
      else ([], s)
  end.

Definition skipws (s : list ascii) : list ascii := snd (span isspace s).

(** Value of a run of decimal digits. *)
Definition digits_value (ds : list ascii) : N :=
  fold_left (fun acc c => 10 * acc + digit_value c)%N ds 0%N.

(** Decimal numeral of [n], most significant digit first; [fuel] bounds the
    number of digits. *)
Fixpoint decimal_fuel (fuel : nat) (n : N) : list ascii :=
  match fuel with
  | O => []
  | S fuel' =>
      (if (n <? 10)%N then [] else decimal_fuel fuel' (n / 10)) ++
      [digit_char (n mod 10)]
  end.

(** [out << n] for an unsigned integer of at most 64 bits. *)
Definition decimal (n : N) : list ascii := decimal_fuel 20 n.

(** A [std::istream]: the characters not read yet and the fail bit. The
    exception mask is the default one, so no stream operation throws. *)
Record istream : Type := mkIn { buffer : list ascii; failbit : bool }.

Definition from_chars (s : list ascii) : istream := mkIn s false.

(** The sentry of a formatted input function: in a good stream it skips
    white space and succeeds when a character is left. *)
Definition sentry (i : istream) : option (list ascii) :=
  if failbit i then None
  else match skipws (buffer i) with
       | [] => None
       | s => Some s
       end.

(** The stream after a sentry that did not succeed. *)
Definition sentry_failed (i : istream) : istream :=
  mkIn (if failbit i then buffer i else []) true.

(** [in >> token] for a [std::string]: [None] when nothing is extracted. *)
Definition extract_token (i : istream) : option (list ascii) * istream :=
  match sentry i with
  | None => (None, sentry_failed i)
  | Some s =>
      let (tok, rest) := span (fun c => negb (isspace c)) s in
      (Some tok, mkIn rest false)
  end.

Definition read_sign (s : list ascii) : bool * list ascii :=
  match s with
  | "-"%char :: s' => (true, s')
  | "+"%char :: s' => (false, s')
  | _ => (false, s)
  end.

(** [num_get] for an unsigned type with largest value [maxv], base 10: the
    value stored, whether the conversion succeeded, and the characters
    left. Without a digit 0 is stored; a value out of range stores [maxv];
    both set the fail bit. A minus sign negates modulo [maxv + 1]. *)
Definition num_get_unsigned (maxv : Z) (s : list ascii) : Z * bool * list ascii :=
  let (negative, s1) := read_sign s in
  let (ds, rest) := span isdigit s1 in
  match ds with
  | [] => (0%Z, false, rest)
  | _ =>
      let v := Z.of_N (digits_value ds) in
      if (maxv <? v)%Z then (maxv, false, rest)
      else ((if negative then (- v) mod (maxv + 1) else v)%Z, true, rest)
  end.

(** [num_get] for a signed type with range [minv .. maxv]. *)
Definition num_get_signed (minv maxv : Z) (s : list ascii) : Z * bool * list ascii :=
  let (negative, s1) := read_sign s in
  let (ds, rest) := span isdigit s1 in
  match ds with
  | [] => (0%Z, false, rest)
  | _ =>
      let v := Z.of_N (digits_value ds) in
      if negative then
        if (v <=? - minv)%Z then ((- v)%Z, true, rest) else (minv, false, rest)
      else
        if (v <=? maxv)%Z then (v, true, rest) else (maxv, false, rest)
  end.

(** [in >> n] for a [size_t]: [None] when the sentry fails and nothing is
    stored in [n]. *)
Definition extract_size_t (i : istream) : option Z * istream :=
  match sentry i with
  | None => (None, sentry_failed i)
  | Some s =>
      let '(v, ok, rest) := num_get_unsigned SizeT.max s in
      (Some v, mkIn rest (negb ok))
  end.

(** [in.read(p, n)]: the [n] characters read, or [None] when the stream
    cannot supply them and the object at [p] is left partly unwritten. *)
Definition read_chars (n : nat) (i : istream) : option (list ascii) * istream :=
  if failbit i then (None, i)
  else if (n <=? List.length (buffer i))%nat
       then (Some (firstn n (buffer i)), mkIn (skipn n (buffer i)) false)
       else (None, mkIn [] true).

(** Little-endian object representation of an unsigned integer. *)
Fixpoint le_bytes (width : nat) (z : Z) : list ascii :=
  match width with
  | O => []
  | S w => ascii_of_N (Z.to_N (z mod 256)) :: le_bytes w (z / 256)
  end.

Fixpoint le_value (bs : list ascii) : Z :=
  match bs with
  | [] => 0
  | b :: bs' => Z.of_N (N_of_ascii b) + 256 * le_value bs'
  end.

(** ** Element interfaces of the codecs *)

(** [operator<<] into an [ostream] and [operator>>] out of a
    [std::istringstream] that holds one token. *)
Class TextIO (T : Type) := {
  put : T -> list ascii;
  get : list ascii -> T
}.

(** A trivially copyable type: its size and object representation. *)
Class TriviallyCopyable (T : Type) := {
  sizeof : nat;
  object_bytes : T -> list ascii;
  object_of_bytes : list ascii -> T
}.

(** How a call of a decoder ends: it returns; or it reads an object that
    no read has filled, whose value the language leaves indeterminate; or
    the fuel of the model ran out. The decoders have no other way to end:
    they return [void] and throw nothing. *)
Inductive outcome (A : Type) : Type :=
| Returns (a : A)
| Undefined
| OutOfFuel.
Arguments Returns {A} a.
Arguments Undefined {A}.
Arguments OutOfFuel {A}.

Section Codecs.
Context {T : Type} `{TextIO T} `{TriviallyCopyable T}.

Definition space : list ascii := chars " ".
Definition endl : list ascii := ["010"%char].
Definition null_token : list ascii := chars "null".

(** *** Text *)

Fixpoint serializeNode (n : Node T) : list ascii :=
  match n with
  | mkNode d l r =>
      put d ++ space ++
      (match l with Some x => serializeNode x | None => null_token ++ space end) ++
      (match r with Some x => serializeNode x | None => null_token ++ space end)
  end.

Definition serializeHelper (node : option (Node T)) : list ascii :=
  match node with
  | None => null_token ++ space
  | Some n => serializeNode n
  end.

Definition serializeText (t : FullBinaryTree T) : list ascii :=
  decimal (Z.to_N (size t)) ++ endl ++ serializeHelper (root t) ++ endl.

Fixpoint deserializeHelper (fuel : nat) (i : istream)
    : option (option (Node T) * istream) :=
  match fuel with
  | O => None
  | S fuel' =>
      match extract_token i with
      | (None, i1) => Some (None, i1)
      | (Some token, i1) =>
          if chars_eqb token null_token then Some (None, i1)
          else
            let value := get token in
            match deserializeHelper fuel' i1 with
            | None => None
            | Some (l, i2) =>
                match deserializeHelper fuel' i2 with
                | None => None
                | Some (r, i3) => Some (Some (mkNode value l r), i3)
                end
            end
      end
  end.

(** The tree held before is cleared first and does not matter. *)
Definition deserializeText (i : istream) (t : FullBinaryTree T)
    : outcome (FullBinaryTree T) :=
  let t1 := fst (clear t) in
  match extract_size_t i with
  | (None, _) => Undefined
  | (Some new_size, i1) =>
      let t2 := mkTree (root t1) new_size in
      match deserializeHelper (S (List.length (buffer i1))) i1 with
      | None => OutOfFuel
      | Some (r, _) => Returns (mkTree r (size t2))
      end
  end.

(** *** Binary *)

(** Object representation of a [bool], and the [bool] a byte stands for;
    a byte other than 0 and 1 is not a value of the type. *)
Definition bool_byte (b : bool) : list ascii :=
  [if b then "001"%char else "000"%char].

Definition bool_of_byte (c : ascii) : option bool :=
  if Ascii.eqb c "000"%char then Some false
  else if Ascii.eqb c "001"%char then Some true
  else None.

Fixpoint serializeBinaryNode (n : Node T) : list ascii :=
  match n with
  | mkNode d l r =>
      bool_byte false ++ object_bytes d ++
      (match l with Some x => serializeBinaryNode x | None => bool_byte true end) ++
      (match r with Some x => serializeBinaryNode x | None => bool_byte true end)
  end.

Definition serializeBinaryHelper (node : option (Node T)) : list ascii :=
  match node with
  | None => bool_byte true
  | Some n => serializeBinaryNode n
  end.

Definition serializeBinary (t : FullBinaryTree T) : list ascii :=
  le_bytes 8 (size t) ++ serializeBinaryHelper (root t).

(** [serialize] delegates to the binary encoding. *)
Definition serialize (t : FullBinaryTree T) : list ascii := serializeBinary t.

Definition read_bool (i : istream) : option bool * istream :=
  match read_chars 1 i with
  | (Some [c], i1) => (bool_of_byte c, i1)
  | (_, i1) => (None, i1)
  end.

Fixpoint deserializeBinaryHelper (fuel : nat) (i : istream)
    : outcome (option (Node T) * istream) :=
  match fuel with
  | O => OutOfFuel
  | S fuel' =>
      match read_bool i with
      | (None, _) => Undefined
      | (Some true, i1) => Returns (None, i1)
      | (Some false, i1) =>
          match read_chars sizeof i1 with
          | (None, _) => Undefined
          | (Some bs, i2) =>
              match deserializeBinaryHelper fuel' i2 with
              | Returns (l, i3) =>
                  match deserializeBinaryHelper fuel' i3 with
                  | Returns (r, i4) =>
                      Returns (Some (mkNode (object_of_bytes bs) l r), i4)
                  | Undefined => Undefined
                  | OutOfFuel => OutOfFuel
                  end
              | Undefined => Undefined
              | OutOfFuel => OutOfFuel
              end
          end
      end
  end.

Definition deserializeBinary (i : istream) (t : FullBinaryTree T)
    : outcome (FullBinaryTree T) :=
  let t1 := fst (clear t) in
  match read_chars 8 i with
  | (None, _) => Undefined
  | (Some bs, i1) =>
      let t2 := mkTree (root t1) (le_value bs) in
      match deserializeBinaryHelper (S (List.length (buffer i1))) i1 with
      | Returns (r, _) => Returns (mkTree r (size t2))
      | Undefined => Undefined
      | OutOfFuel => OutOfFuel
      end
  end.

(** [deserialize] delegates to the binary decoding. *)
Definition deserialize (i : istream) (t : FullBinaryTree T)
    : outcome (FullBinaryTree T) :=
  deserializeBinary i t.

End Codecs.

(** ** [int] elements *)

#[export] Instance int_eq : EqOp Z := Z.eqb.

Module Int.
Definition min : Z := - 2 ^ 31.
Definition max : Z := 2 ^ 31 - 1.

(** [out << z] *)
Definition put (z : Z) : list ascii :=
  (if (z <? 0)%Z then chars "-" else []) ++ decimal_fuel 10 (Z.to_N (Z.abs z)).

(** [iss >> z] on a stream holding [token]. *)
Definition get (token : list ascii) : Z :=
  fst (fst (num_get_signed min max token)).

Definition object_bytes (z : Z) : list ascii := le_bytes 4 (z mod 2 ^ 32).

Definition object_of_bytes (bs : list ascii) : Z :=
  let u := le_value bs in
  if (u <? 2 ^ 31)%Z then u else (u - 2 ^ 32)%Z.
End Int.

#[export] Instance int_text : TextIO Z := {| put := Int.put; get := Int.get |}.

#[export] Instance int_bytes : TriviallyCopyable Z :=
  {| sizeof := 4;
     object_bytes := Int.object_bytes;
     object_of_bytes := Int.object_of_bytes |}.

(** ** Trees of [int] used as concrete inputs *)

Module Sample.
Open Scope Z_scope.

Definition leaf (v : Z) : option (Node Z) := Some (newNode v).
Definition node (v : Z) (l r : option (Node Z)) : option (Node Z) :=
  Some (mkNode v l r).

(** After [insert 10; insert 20; insert 30]. *)
Definition t3 : FullBinaryTree Z :=
  mkTree (node 10 (node 20 (leaf 30) (leaf 30)) (leaf 20)) 5.

(** After [insert 1; insert 2; insert 3; insert 4; remove 2]. *)
Definition t_lopsided : FullBinaryTree Z :=
  mkTree (node 1 (node 4 (leaf 3) (leaf 3)) (leaf 2)) 5.

Definition ptr (a : Addr) (n : option (Node Z)) : list (Ptr Z) :=
  match n with Some x => [mkPtr a x] | None => [] end.
End Sample.

(** * Specification vocabulary *)

(** Induction over nodes, through their optional children. *)
Section NodeInduction.
Context {T : Type}.
Variable P : Node T -> Prop.

Definition opt_all (o : option (Node T)) : Prop :=
  match o with Some x => P x | None => True end.

Hypothesis P_step :
  forall d l r, opt_all l -> opt_all r -> P (mkNode d l r).

Fixpoint Node_induction (n : Node T) : P n :=
  match n with
  | mkNode d l r =>
      P_step d l r
        (match l as o return opt_all o with
         | Some x => Node_induction x
         | None => I
         end)
        (match r as o return opt_all o with
         | Some x => Node_induction x
         | None => I
         end)
  end.
End NodeInduction.

Section Vocabulary.
Context {T : Type} `{EqOp T}.
Implicit Types (n m : Node T) (p r : option (Node T)) (a b : Addr) (c : Ptr T)
  (q l : list (Ptr T)) (t : FullBinaryTree T) (value : T).

(** A pointer is valid in a tree when the node it caches is the one at its
    address. *)
Definition valid r c : Prop := node_at (addr c) r = Some (pointee c).

(** Total number of nodes below the pointers of a queue. *)
Definition weight (q : list (Ptr T)) : nat :=
  list_sum (map (fun c => countNode (pointee c)) q).

(** Addresses that extend [a]: the node at [a] and everything below it. *)
Definition extends a b : Prop := exists e : Addr, b = a ++ e.

Definition data_at a r : option T := option_map data (node_at a r).

(** The node a pointer refers to holds [value]. *)
Definition holds value c : bool := eq_op (data (pointee c)) value.

Definition leaf_ptr c : bool := is_leaf (pointee c).

(** The last leaf of a traversal. *)
Definition last_leaf_from l (acc : option (Ptr T)) : option (Ptr T) :=
  fold_left (fun acc c => if leaf_ptr c then Some c else acc) l acc.

Definition last_leaf l : option (Ptr T) := last_leaf_from l None.

(** The parent of a node, read off its address. *)
Definition parent_addr a : option Addr :=
  match a with
  | [] => None
  | _ :: _ => Some (removelast a)
  end.

Definition parent_of r c : option (Ptr T) :=
  match parent_addr (addr c) with
  | None => None
  | Some pa =>
      match node_at pa r with
      | Some n => Some (mkPtr pa n)
      | None => None
      end
  end.

Definition with_parent r c : Pair T := (c, parent_of r c).

Definition attach_at value t c : FullBinaryTree T :=
  mkTree (write_at (addr c) (attach_pair value) (root t))
         (SizeT.wrap (size t + 2)).

(** [remove] read off the level-order traversal [l] of the tree. *)
Definition remove_on l value t : FullBinaryTree T * list (Ptr T) :=
  match List.find (holds value) l with
  | None => (t, [])
  | Some target =>
      if leaf_ptr target then
        match parent_of (root t) target with
        | Some p =>
            let (root', deleted) := delete_children (addr p) (root t) in
            (mkTree root' (SizeT.wrap (size t - 2)), deleted)
        | None => (mkTree None 0, root_queue (root t))
        end
      else if is_internal (pointee target) then
        match last_leaf l with
        | None => (t, [])
        | Some rightmost =>
            if addr_eqb (addr rightmost) (addr target) then (t, [])
            else
              let root1 :=
                write_at (addr target) (set_data (data (pointee rightmost)))
                         (root t) in
              match parent_of (root t) rightmost with
              | Some rp =>
                  let (root2, deleted) := delete_children (addr rp) root1 in
                  (mkTree root2 (SizeT.wrap (size t - 2)), deleted)
              | None => (mkTree root1 (size t), [])
              end
        end
      else (t, [])
  end.

Definition depth c : nat := List.length (addr c).

Definition sorted_by_depth l : Prop :=
  StronglySorted (fun c c' => depth c <= depth c') l.

(** A queue of the traversal holds pointers of at most two consecutive
    depths, shallower ones first. *)
Definition level_queue q : Prop :=
  sorted_by_depth q /\
  forall c0 q', q = c0 :: q' -> forall c, In c q -> depth c <= S (depth c0).

End Vocabulary.

(** The rest of a stream does not continue a run of [p]-characters. *)
Definition stops (p : ascii -> bool) (rest : list ascii) : Prop :=
  match rest with
  | [] => True
  | c :: _ => p c = false
  end.

Definition header_has_no_number (s : list ascii) : Prop :=
  fst (span isdigit (snd (read_sign (skipws s)))) = [].

Section CodecVocabulary.
Context {T : Type} `{TextIO T} `{TriviallyCopyable T}.
Implicit Types (n : Node T) (p : option (Node T)) (v : T).

(** A value survives the text codec when it prints as one token, other than
    [null], that reads back as the value. *)
Definition text_ok v : Prop :=
  put v <> [] /\
  Forall (fun c => isspace c = false) (put v) /\
  put v <> null_token /\
  get (put v) = v.

(** A value survives the binary codec when its object representation has
    [sizeof] bytes that copy back to the value. *)
Definition binary_ok v : Prop :=
  List.length (object_bytes v) = sizeof /\
  object_of_bytes (object_bytes v) = v.

Definition all_data (P : T -> Prop) p : Prop :=
  forall a n, node_at a p = Some n -> P (data n).

End CodecVocabulary.

(** * The rest of [FullBinaryTree.h] *)

Section Printing.
Context {T : Type} `{TextIO T}.

(** [std::cout << current->data << " "] for every node the queue yields;
    [out] is what has been written so far. *)
Fixpoint print_loop (fuel : nat) (q : list (Ptr T)) (out : list ascii)
    : option (list ascii) :=
  match q with
  | [] => Some out
  | current :: q' =>
      match fuel with
      | O => None
      | S fuel' =>
          print_loop fuel' (q' ++ push_children current)
                     (out ++ put (data (pointee current)) ++ space)
      end
  end.

(** [print]: what is written to [std::cout]. *)
Definition print (t : FullBinaryTree T) : option (list ascii) :=
  match root t with
  | None => Some (chars "Empty tree" ++ endl)
  | Some r =>
      match print_loop (S (countNode r)) [mkPtr [] r]
                       (chars "Level-order traversal: ") with
      | Some out => Some (out ++ endl)
      | None => None
      end
  end.

Fixpoint printInOrderNode (n : Node T) : list ascii :=
  match n with
  | mkNode d l r =>
      (match l with Some x => printInOrderNode x | None => [] end) ++
      (put d ++ space) ++
      (match r with Some x => printInOrderNode x | None => [] end)
  end.

Definition printInOrderHelper (node : option (Node T)) : list ascii :=
  match node with
  | Some n => printInOrderNode n
  | None => []
  end.

Definition printInOrder (t : FullBinaryTree T) : list ascii :=
  chars "In-order traversal: " ++ printInOrderHelper (root t) ++ endl.

(** What printing a sequence of nodes writes. *)
Definition written (l : list (Ptr T)) : list ascii :=
  List.concat (map (fun c => put (data (pointee c)) ++ space) l).

End Printing.

Section Copying.
Context {T : Type}.

(** The copy constructor: [size(other.size)], then [root = copyTree(other.root)]. *)
Definition copy_construct (other : FullBinaryTree T) : FullBinaryTree T :=
  mkTree (copyTree (root other)) (size other).

(** [operator=] on objects told apart by their identity: a store of trees,
    the assigned object [this] and the source [other]. The store afterwards
    and the nodes deleted. *)
Definition operator_assign (objects : nat -> FullBinaryTree T) (this other : nat)
    : (nat -> FullBinaryTree T) * list (Ptr T) :=
  if Nat.eqb this other then (objects, [])
  else
    let newRoot := copyTree (root (objects other)) in
    let (cleared, deleted) := clear (objects this) in
    let assigned := mkTree newRoot (size (objects other)) in
    (fun k => if Nat.eqb k this then assigned else objects k, deleted).

(** The nodes below an address, left subtree first, then the node, then
    the right subtree. *)
Fixpoint inorderNode (a : Addr) (n : Node T) : list (Ptr T) :=
  match n with
  | mkNode _ l r =>
      (match l with Some x => inorderNode (a ++ [LeftSlot]) x | None => [] end) ++
      [mkPtr a n] ++
      (match r with Some x => inorderNode (a ++ [RightSlot]) x | None => [] end)
  end.

Definition inorder (a : Addr) (p : option (Node T)) : list (Ptr T) :=
  match p with Some n => inorderNode a n | None => [] end.

(** The nodes at and below the node [n] of address [a]. *)
Definition below (a : Addr) (n : Node T) (c : Ptr T) : Prop :=
  exists e, addr c = a ++ e /\ node_at e (Some n) = Some (pointee c).

(** In a list of deletions, no node is deleted before a node below it. *)
Definition children_first (l : list (Ptr T)) : Prop :=
  ForallOrdPairs (fun x y => ~ extends (addr x) (addr y)) l.

End Copying.

Section SizeVocabulary.
Context {T : Type} `{EqOp T}.

(** What every sequence of mutations keeps: the shape, a size field that is
    at least the number of nodes and fits [size_t], and size 0 for a null
    root. *)
Definition consistent (t : FullBinaryTree T) : Prop :=
  isFullBinaryTree t = true /\
  (Z.of_nat (count (root t)) <= size t <= SizeT.max)%Z /\
  (root t = None -> size t = 0%Z).

Definition is_remove (o : Op T) : bool :=
  match o with OpRemove _ => true | _ => false end.

End SizeVocabulary.

Section BalanceVocabulary.
Context {T : Type}.

(** Every leaf of the tree lies between depth [lo] and depth [hi]. *)
Definition leaves_within (lo hi : nat) (r : option (Node T)) : Prop :=
  forall a n, node_at a r = Some n -> is_leaf n = true ->
              lo <= List.length a <= hi.

(** The leaves lie on one level or on two consecutive levels. *)
Definition balanced (r : option (Node T)) : Prop :=
  exists d, leaves_within d (S d) r.

End BalanceVocabulary.

(** * The Go port, [FullBinaryTree.go] *)

(** Go's [int] on a 64-bit platform: [+=] and [-=] wrap around in two's
    complement. *)
Module GoInt.
Definition min : Z := - 2 ^ 63.
Definition max : Z := 2 ^ 63 - 1.
Definition wrap (z : Z) : Z := ((z + 2 ^ 63) mod 2 ^ 64 - 2 ^ 63)%Z.
End GoInt.

Module Go.

(** What the text codec takes from [fmt] and [strings]: [%v] printing and
    [fmt.Sscan] at the element type ([None] when [err != nil || n == 0]),
    [fmt.Sscanf] with [%d] into an [int] ([None] for an error), and
    [strings.Fields] on input that is not all ASCII. *)
Class Lib (T : Type) := {
  Sprint : T -> list ascii;
  Sscan : list ascii -> option T;
  Sscanf_d : list ascii -> option Z;
  FieldsFunc_IsSpace : list ascii -> list (list ascii)
}.

(** The errors [DeserializeText] returns: the reader's own, [empty input],
    [failed to parse size] and [failed to parse value '<token>']. *)
Inductive error : Type :=
| ReadError
| EmptyInput
| ParseSize
| ParseValue (token : list ascii).

(** An [io.Reader]: what it delivers, and whether it ends with an error
    instead of [io.EOF]. *)
Record Reader : Type := mkReader { content : list ascii; fails : bool }.

Section Tree.
Context {T : Type} `{EqOp T}.

(** [struct { root *node[T]; size int }] has the fields of the C++ class;
    [eq_op] is Go's [==] on the comparable [T]. *)
Definition NewFullBinaryTree : FullBinaryTree T := mkTree None 0.

Definition Clone (t : FullBinaryTree T) : FullBinaryTree T :=
  let newTree := NewFullBinaryTree in
  let newTree := mkTree (root newTree) (size t) in
  mkTree (copyTree (root t)) (size newTree).

Definition Clear (t : FullBinaryTree T) : FullBinaryTree T := mkTree None 0.

Fixpoint Insert_loop (value : T) (t : FullBinaryTree T) (fuel : nat)
    (queue : list (Ptr T)) : option (FullBinaryTree T) :=
  match queue with
  | [] => Some t
  | current :: queue' =>
      match fuel with
      | O => None
      | S fuel' =>
          if is_leaf (pointee current) then
            Some (mkTree (write_at (addr current) (attach_pair value) (root t))
                         (GoInt.wrap (size t + 2)))
          else Insert_loop value t fuel' (queue' ++ push_children current)
      end
  end.

Definition Insert (value : T) (t : FullBinaryTree T) : option (FullBinaryTree T) :=
  match root t with
  | None => Some (mkTree (Some (newNode value)) 1)
  | Some r => Insert_loop value t (S (countNode r)) [mkPtr [] r]
  end.

Definition Find (value : T) (t : FullBinaryTree T) : option bool :=
  match root t with
  | None => Some false
  | Some r => find_loop value (S (countNode r)) [mkPtr [] r]
  end.

(** [Remove]: the two scans are those of the C++ [remove]; case B runs for
    every target that is not a leaf, and nothing is deleted by hand. *)
Definition Remove (value : T) (t : FullBinaryTree T) : option (FullBinaryTree T) :=
  match root t with
  | None => Some t
  | Some r =>
      match target_loop value (S (countNode r)) [(mkPtr [] r, None)] with
      | None => None
      | Some None => Some t
      | Some (Some (target, parentOfTarget)) =>
          if is_leaf (pointee target) then
            match parentOfTarget with
            | Some p =>
                Some (mkTree (write_at (addr p) unlink_children (root t))
                             (GoInt.wrap (size t - 2)))
            | None => Some (mkTree None 0)
            end
          else
            match rightmost_loop (S (countNode r)) [(mkPtr [] r, None)] None with
            | None => None
            | Some None => Some t
            | Some (Some (rightmost, rightmostParent)) =>
                if addr_eqb (addr rightmost) (addr target) then Some t
                else
                  let root1 :=
                    write_at (addr target) (set_data (data (pointee rightmost)))
                             (root t) in
                  match rightmostParent with
                  | Some rp =>
                      Some (mkTree (write_at (addr rp) unlink_children root1)
                                   (GoInt.wrap (size t - 2)))
                  | None => Some (mkTree root1 (size t))
                  end
            end
      end
  end.

Definition is_nil (n : option (Node T)) : bool :=
  match n with None => true | Some _ => false end.

Fixpoint isFullBinaryTreeNode (n : Node T) : bool :=
  match n with
  | mkNode _ l r =>
      if negb (Bool.eqb (is_nil l) (is_nil r)) then false
      else (match l with Some x => isFullBinaryTreeNode x | None => true end) &&
           (match r with Some x => isFullBinaryTreeNode x | None => true end)
  end.

Definition isFullBinaryTreeHelper (n : option (Node T)) : bool :=
  match n with
  | None => true
  | Some x => isFullBinaryTreeNode x
  end.

Definition IsFullBinaryTree (t : FullBinaryTree T) : bool :=
  isFullBinaryTreeHelper (root t).

End Tree.

Section Text.
Context {T : Type} `{Lib T}.

(** [fmt.Fprintln(out, t.size)] without the newline: an [int] in decimal. *)
Definition Itoa (z : Z) : list ascii :=
  (if (z <? 0)%Z then chars "-" else []) ++ decimal (Z.to_N (Z.abs z)).

Fixpoint serializeTextNode (n : Node T) : list ascii :=
  match n with
  | mkNode d l r =>
      (Sprint d ++ chars " ") ++
      (match l with Some x => serializeTextNode x | None => chars "null " end) ++
      (match r with Some x => serializeTextNode x | None => chars "null " end)
  end.

Definition serializeTextHelper (n : option (Node T)) : list ascii :=
  match n with
  | None => chars "null "
  | Some x => serializeTextNode x
  end.

(** [SerializeText] into a [bytes.Buffer], whose writes never fail: the
    bytes written. *)
Definition SerializeText (t : FullBinaryTree T) : list ascii :=
  (Itoa (size t) ++ endl) ++ serializeTextHelper (root t).

(** [strings.Fields]: the maximal runs of bytes that are not ASCII white
    space when every byte is ASCII, [FieldsFunc(s, unicode.IsSpace)]
    otherwise. *)
Definition is_ascii (c : ascii) : bool := (N_of_ascii c <? 128)%N.

Fixpoint fields_from (field : list ascii) (s : list ascii) : list (list ascii) :=
  match s with
  | [] => match field with [] => [] | _ => [field] end
  | c :: s' =>
      if isspace c then
        match field with
        | [] => fields_from [] s'
        | _ => field :: fields_from [] s'
        end
      else fields_from (field ++ [c]) s'
  end.

Definition Fields (s : list ascii) : list (list ascii) :=
  if forallb is_ascii s then fields_from [] s else FieldsFunc_IsSpace s.

(** [deserializeTextHelper]: the node, the index after it and the error. *)
Fixpoint deserializeTextHelper (fuel : nat) (tokens : list (list ascii)) (index : nat)
    : option (option (Node T) * nat * option error) :=
  match fuel with
  | O => None
  | S fuel' =>
      match nth_error tokens index with
      | None => Some (None, index, None)
      | Some token =>
          let index := S index in
          if chars_eqb token (chars "null") then Some (None, index, None)
          else
            match Sscan token with
            | None => Some (None, index, Some (ParseValue token))
            | Some value =>
                match deserializeTextHelper fuel' tokens index with
                | None => None
                | Some (_, index, Some errL) => Some (None, index, Some errL)
                | Some (l, index, None) =>
                    match deserializeTextHelper fuel' tokens index with
                    | None => None
                    | Some (_, index, Some errR) => Some (None, index, Some errR)
                    | Some (r, index, None) =>
                        Some (Some (mkNode value l r), index, None)
                    end
                end
            end
      end
  end.

(** [DeserializeText]: the tree afterwards and the error returned. *)
Definition DeserializeText (input : Reader) (t : FullBinaryTree T)
    : option (FullBinaryTree T * option error) :=
  let t := Clear t in
  if fails input then Some (t, Some ReadError)
  else
    let tokens := Fields (content input) in
    match tokens with
    | [] => Some (t, Some EmptyInput)
    | token0 :: _ =>
        match Sscanf_d token0 with
        | None => Some (t, Some ParseSize)
        | Some newSize =>
            let t := mkTree (root t) newSize in
            match deserializeTextHelper (S (List.length tokens)) tokens 1 with
            | None => None
            | Some (r, _, parseErr) => Some (mkTree r (size t), parseErr)
            end
        end
    end.

(** The tokens of a subtree, in the order they are written. *)
Fixpoint tokens_of_node (n : Node T) : list (list ascii) :=
  match n with
  | mkNode d l r =>
      Sprint d ::
      (match l with Some x => tokens_of_node x | None => [chars "null"] end) ++
      (match r with Some x => tokens_of_node x | None => [chars "null"] end)
  end.

Definition tokens_of (p : option (Node T)) : list (list ascii) :=
  match p with Some n => tokens_of_node n | None => [chars "null"] end.

(** A token the decoder accepts: [null], or one that scans. *)
Definition scans (token : list ascii) : Prop :=
  chars_eqb token (chars "null") = true \/ Sscan token <> None.

(** A value survives the text codec when it prints as one ASCII field,
    other than [null], that scans back to the value. *)
Definition field_ok (v : T) : Prop :=
  Sprint v <> [] /\
  Forall (fun c => is_ascii c = true /\ isspace c = false) (Sprint v) /\
  chars_eqb (Sprint v) (chars "null") = false /\
  Sscan (Sprint v) = Some v.

End Text.
End Go.

(** ** A library stand-in for concrete runs *)

(** [int] elements with decimal printing and scanners that read a field
    that is a whole decimal numeral within [int]. Go's scanners accept more
    forms than that; the runs below use none of them, and only ASCII input. *)
Module GoSample.

Definition scan_decimal (token : list ascii) : option Z :=
  let (negative, ds) := read_sign token in
  match ds with
  | [] => None
  | _ =>
      if forallb isdigit ds then
        let v := Z.of_N (digits_value ds) in
        let z := if negative then (- v)%Z else v in
        if ((GoInt.min <=? z) && (z <=? GoInt.max))%Z then Some z else None
      else None
  end.

#[global] Instance decimal_lib : Go.Lib Z :=
  {| Go.Sprint := Go.Itoa;
     Go.Sscan := scan_decimal;
     Go.Sscanf_d := scan_decimal;
     Go.FieldsFunc_IsSpace := fun _ => [] |}.

End GoSample.

(** * Properties *)

Section Addresses.
Context {T : Type}.
Implicit Types (n : Node T) (p r : option (Node T)) (a b : Addr) (c : Ptr T)
  (q l : list (Ptr T)).

Lemma slot_eqb_eq (x y : Slot) : slot_eqb x y = true <-> x = y.
Proof. destruct x, y; simpl; split; intro E; congruence. Qed.

Lemma addr_eqb_eq a b : addr_eqb a b = true <-> a = b.
Proof.
  revert b; induction a as [|x a IH]; intros [|y b]; simpl; split; intro E;
    try congruence.
  - apply andb_true_iff in E as [E1 E2].
    apply slot_eqb_eq in E1. apply IH in E2. congruence.
  - injection E as -> ->. apply andb_true_iff; split.
    + now apply slot_eqb_eq.
    + now apply IH.
Qed.

Lemma node_at_None a : node_at a (@None (Node T)) = None.
Proof. now destruct a. Qed.

Lemma node_at_app a b p : node_at (a ++ b) p = node_at b (node_at a p).
Proof.
  revert p; induction a as [|s a IH]; intros p; simpl; auto.
  destruct p; auto. now rewrite node_at_None.
Qed.

Lemma node_at_snoc a s p n :
  node_at a p = Some n -> node_at (a ++ [s]) p = child s n.
Proof. intros E. now rewrite node_at_app, E. Qed.

Lemma valid_push_child r c s : valid r c -> Forall (valid r) (push_child s c).
Proof.
  unfold valid, push_child; intros V.
  destruct (child s (pointee c)) eqn:E; constructor; auto.
  simpl. now rewrite (node_at_snoc _ s _ _ V).
Qed.

Lemma valid_push_children r c : valid r c -> Forall (valid r) (push_children c).
Proof.
  intros V. apply Forall_app; split; now apply valid_push_child.
Qed.

Lemma valid_root_queue r : Forall (valid r) (root_queue r).
Proof. destruct r; simpl; constructor; auto. reflexivity. Qed.

Lemma weight_app (q1 q2 : list (Ptr T)) :
  weight (q1 ++ q2) = weight q1 + weight q2.
Proof. unfold weight. now rewrite map_app, list_sum_app. Qed.

Lemma countNode_pos n : 0 < countNode n.
Proof. destruct n; simpl; lia. Qed.

Lemma weight_push_children c :
  countNode (pointee c) = S (weight (push_children c)).
Proof.
  destruct c as [a [d l r]]. unfold push_children, push_child, weight; simpl.
  destruct l, r; simpl; lia.
Qed.

Lemma push_children_nil c : push_children c = [] <-> is_leaf (pointee c) = true.
Proof.
  destruct c as [a [d l r]]. unfold push_children, push_child, is_leaf; simpl.
  destruct l, r; simpl; split; congruence.
Qed.

(** ** The level-order traversal *)

Lemma level_order_loop_total fuel q :
  weight q <= fuel -> exists l, level_order_loop fuel q = Some l.
Proof.
  revert q; induction fuel as [|fuel IH]; intros [|c q] W; simpl; eauto.
  - unfold weight in W; simpl in W. pose proof (countNode_pos (pointee c)). lia.
  - destruct (IH (q ++ push_children c)) as [l E].
    + rewrite weight_app. unfold weight in W |- *; simpl in W.
      pose proof (weight_push_children c) as Wc. unfold weight in Wc. lia.
    + rewrite E. eauto.
Qed.

Lemma level_order_total r : exists l, level_order r = Some l.
Proof.
  apply level_order_loop_total. destruct r; unfold weight; simpl; lia.
Qed.

Lemma level_order_loop_valid r fuel q l :
  Forall (valid r) q -> level_order_loop fuel q = Some l -> Forall (valid r) l.
Proof.
  revert q l; induction fuel as [|fuel IH]; intros [|c q] l V E; simpl in E;
    try discriminate; try (injection E as <-; constructor).
  destruct (level_order_loop fuel (q ++ push_children c)) eqn:E'; try discriminate.
  injection E as <-. inversion V; subst. constructor; auto.
  eapply IH; [|exact E']. apply Forall_app; split; auto.
  now apply valid_push_children.
Qed.

Lemma level_order_valid r l : level_order r = Some l -> Forall (valid r) l.
Proof. apply level_order_loop_valid, valid_root_queue. Qed.

(** Every queued pointer is visited, and so are the children of every
    visited node. *)
Lemma level_order_loop_closed fuel q l :
  level_order_loop fuel q = Some l ->
  incl q l /\ forall c, In c l -> incl (push_children c) l.
Proof.
  revert q l; induction fuel as [|fuel IH]; intros [|c q] l E; simpl in E;
    try discriminate.
  - injection E as <-. split; [apply incl_nil_l | intros c []].
  - injection E as <-. split; [apply incl_nil_l | intros c []].
  - destruct (level_order_loop fuel (q ++ push_children c)) as [rest|] eqn:E';
      try discriminate.
    injection E as <-. destruct (IH _ _ E') as [I1 I2]. split.
    + intros x [->|Hx]; [now left | right; apply I1, in_or_app; now left].
    + intros x [<-|Hx] y Hy; right.
      * apply I1, in_or_app; now right.
      * now apply (I2 x).
Qed.

End Addresses.

Section Writes.
Context {T : Type}.
Implicit Types (n m : Node T) (p r : option (Node T)) (a b : Addr) (c : Ptr T)
  (f : Node T -> Node T).

Lemma countNode_eq n : countNode n = S (count (left n) + count (right n)).
Proof. now destruct n. Qed.

Lemma isFullBinaryTreeNode_eq n :
  isFullBinaryTreeNode n =
  if one_child n then false
  else isFullBinaryTreeHelper (left n) && isFullBinaryTreeHelper (right n).
Proof. now destruct n. Qed.

Lemma node_at_write_at a f r n :
  node_at a r = Some n -> node_at a (write_at a f r) = Some (f n).
Proof.
  revert r; induction a as [|s a IH]; intros [m|] E; simpl in *; try discriminate.
  - now injection E as ->.
  - destruct s, m as [d l rr]; simpl in *; now apply IH.
Qed.

Lemma node_at_write_at_below a b f r n :
  node_at a r = Some n ->
  node_at (a ++ b) (write_at a f r) = node_at b (Some (f n)).
Proof.
  intros E. now rewrite node_at_app, (node_at_write_at _ f _ _ E).
Qed.

Lemma child_set_child s s' x m :
  child s' (set_child s x m) = if slot_eqb s' s then x else child s' m.
Proof. now destruct s, s', m. Qed.

Lemma data_set_child s x m : data (set_child s x m) = data m.
Proof. now destruct s. Qed.

Lemma data_at_write_at_outside a b f r :
  ~ extends a b -> data_at b (write_at a f r) = data_at b r.
Proof.
  unfold data_at. revert b r; induction a as [|s a IH]; intros b r N.
  - destruct N. now exists b.
  - destruct r as [m|]; simpl; auto.
    destruct b as [|s' b]; simpl.
    + now rewrite data_set_child.
    + rewrite child_set_child. destruct (slot_eqb s' s) eqn:Es; auto.
      apply slot_eqb_eq in Es; subst s'. apply IH.
      intros [c ->]. apply N. now exists c.
Qed.

Lemma write_at_is_Some a f r n :
  node_at a r = Some n -> exists m, write_at a f r = Some m.
Proof.
  destruct r as [m|]; [|now rewrite node_at_None].
  destruct a; simpl; eauto.
Qed.

Lemma count_set_child s x m :
  count (Some (set_child s x m)) + count (child s m) = countNode m + count x.
Proof. destruct s, m as [d [l|] [r|]], x; simpl; lia. Qed.

Lemma count_write_at a f r n :
  node_at a r = Some n ->
  count (write_at a f r) + countNode n = count r + countNode (f n).
Proof.
  revert r; induction a as [|s a IH]; intros [m|] E; simpl in E; try discriminate.
  - injection E as ->. simpl. lia.
  - cbn [write_at]. specialize (IH _ E).
    pose proof (count_set_child s (write_at a f (child s m)) m) as C.
    cbn [count] in *. lia.
Qed.

Lemma one_child_set_child s x y m :
  child s m = Some y -> one_child (set_child s (Some x) m) = one_child m.
Proof. destruct s, m as [d l r]; simpl; intros ->; reflexivity. Qed.

Lemma isFull_set_child s x m :
  isFullBinaryTreeNode m = true ->
  (exists y, child s m = Some y) ->
  isFullBinaryTreeNode x = true ->
  isFullBinaryTreeNode (set_child s (Some x) m) = true.
Proof.
  intros Fm [y Ey] Fx. rewrite isFullBinaryTreeNode_eq in Fm.
  rewrite (isFullBinaryTreeNode_eq (set_child s (Some x) m)).
  rewrite (one_child_set_child s x y m Ey).
  destruct (one_child m); try discriminate.
  apply andb_true_iff in Fm as [Fl Fr].
  destruct s, m as [d l r]; simpl in *; rewrite ?Fl, ?Fr, ?Fx; reflexivity.
Qed.

Lemma isFull_child s m :
  isFullBinaryTreeNode m = true -> isFullBinaryTreeHelper (child s m) = true.
Proof.
  rewrite isFullBinaryTreeNode_eq. destruct (one_child m); try discriminate.
  intros E; apply andb_true_iff in E as [Fl Fr]. now destruct s.
Qed.

Lemma isFull_node_at a r n :
  isFullBinaryTreeHelper r = true -> node_at a r = Some n ->
  isFullBinaryTreeNode n = true.
Proof.
  revert r; induction a as [|s a IH]; intros [m|] F E; simpl in *; try discriminate.
  - now injection E as <-.
  - apply (IH (child s m)); auto. now apply isFull_child.
Qed.

Lemma isFull_write_at a f r n :
  node_at a r = Some n ->
  isFullBinaryTreeHelper r = true ->
  isFullBinaryTreeNode (f n) = true ->
  isFullBinaryTreeHelper (write_at a f r) = true.
Proof.
  revert r; induction a as [|s a IH]; intros [m|] E F Fn; simpl in E;
    try discriminate.
  - injection E as ->. exact Fn.
  - cbn [write_at isFullBinaryTreeHelper].
    pose proof (isFull_child s m F) as Fc.
    destruct (child s m) as [y|] eqn:Ey; [|now rewrite node_at_None in E].
    destruct (write_at_is_Some a f _ _ E) as [x Ex].
    pose proof (IH _ E Fc Fn) as Fx.
    rewrite Ex in *. apply isFull_set_child; eauto.
Qed.

End Writes.

Section Loops.
Context {T : Type} `{EqOp T}.
Implicit Types (n m : Node T) (p r : option (Node T)) (a b : Addr) (c : Ptr T)
  (q l : list (Ptr T)) (t : FullBinaryTree T) (value : T).

Lemma parent_addr_snoc a s : parent_addr (a ++ [s]) = Some a.
Proof.
  unfold parent_addr. destruct (a ++ [s]) eqn:E.
  - now destruct a.
  - now rewrite <- E, removelast_last.
Qed.

Lemma parent_of_push_child r c s x :
  valid r c -> In x (push_child s c) -> parent_of r x = Some c.
Proof.
  unfold push_child, valid; intros V I.
  destruct (child s (pointee c)); [|now destruct I].
  destruct I as [<-|[]]. unfold parent_of; simpl.
  rewrite parent_addr_snoc, V. now destruct c.
Qed.

Lemma push_children_of_with_parent r c :
  valid r c -> push_children_of c = map (with_parent r) (push_children c).
Proof.
  intros V. unfold push_children_of. apply map_ext_in. intros x I.
  unfold with_parent. f_equal. symmetry.
  apply in_app_or in I as [I|I]; eapply parent_of_push_child; eauto.
Qed.

Lemma find_loop_spec value fuel q l :
  level_order_loop fuel q = Some l ->
  find_loop value fuel q = Some (existsb (holds value) l).
Proof.
  revert q l; induction fuel as [|fuel IH]; intros [|c q] l E; simpl in E;
    try discriminate; try (now injection E as <-).
  destruct (level_order_loop fuel (q ++ push_children c)) as [rest|] eqn:E';
    try discriminate.
  injection E as <-. simpl. unfold holds at 1.
  destruct (eq_op (data (pointee c)) value); simpl; auto.
Qed.

Lemma insert_loop_spec value t fuel q l :
  level_order_loop fuel q = Some l ->
  insert_loop value t fuel q =
  Some (match List.find leaf_ptr l with
        | Some c => attach_at value t c
        | None => t
        end).
Proof.
  revert q l; induction fuel as [|fuel IH]; intros [|c q] l E; simpl in E;
    try discriminate; try (now injection E as <-).
  destruct (level_order_loop fuel (q ++ push_children c)) as [rest|] eqn:E';
    try discriminate.
  injection E as <-. simpl. unfold leaf_ptr at 1.
  destruct (is_leaf (pointee c)); auto.
Qed.

Lemma level_order_loop_leaf fuel q l :
  level_order_loop fuel q = Some l -> q <> [] ->
  exists c, List.find leaf_ptr l = Some c.
Proof.
  revert q l; induction fuel as [|fuel IH]; intros [|c q] l E N; simpl in E;
    try discriminate; try congruence.
  destruct (level_order_loop fuel (q ++ push_children c)) as [rest|] eqn:E';
    try discriminate.
  injection E as <-. simpl. destruct (leaf_ptr c) eqn:L; eauto.
  apply (IH _ _ E'). intros Q. apply app_eq_nil in Q as [_ Q].
  apply push_children_nil in Q. unfold leaf_ptr in L. congruence.
Qed.

Lemma target_loop_spec r value fuel q l :
  Forall (valid r) q ->
  level_order_loop fuel q = Some l ->
  target_loop value fuel (map (with_parent r) q) =
  Some (option_map (with_parent r) (List.find (holds value) l)).
Proof.
  revert q l; induction fuel as [|fuel IH]; intros [|c q] l V E; simpl in E;
    try discriminate; try (now injection E as <-).
  destruct (level_order_loop fuel (q ++ push_children c)) as [rest|] eqn:E';
    try discriminate.
  injection E as <-. inversion V; subst. simpl. unfold holds at 1.
  destruct (eq_op (data (pointee c)) value); auto.
  rewrite (push_children_of_with_parent r c), <- map_app by assumption.
  apply IH; auto. apply Forall_app; split; auto. now apply valid_push_children.
Qed.

Lemma rightmost_loop_spec r fuel q l acc :
  Forall (valid r) q ->
  level_order_loop fuel q = Some l ->
  rightmost_loop fuel (map (with_parent r) q) (option_map (with_parent r) acc) =
  Some (option_map (with_parent r) (last_leaf_from l acc)).
Proof.
  revert q l acc; induction fuel as [|fuel IH]; intros [|c q] l acc V E;
    simpl in E; try discriminate; try (now injection E as <-).
  destruct (level_order_loop fuel (q ++ push_children c)) as [rest|] eqn:E';
    try discriminate.
  injection E as <-. inversion V; subst. simpl.
  rewrite (push_children_of_with_parent r c), <- map_app by assumption.
  assert (V' : Forall (valid r) (q ++ push_children c))
    by (apply Forall_app; split; auto; now apply valid_push_children).
  unfold leaf_ptr at 1. destruct (is_leaf (pointee c)).
  - exact (IH _ _ (Some c) V' E').
  - exact (IH _ _ acc V' E').
Qed.

Lemma remove_spec value t l :
  level_order (root t) = Some l -> remove value t = Some (remove_on l value t).
Proof.
  unfold level_order, remove, remove_on. destruct (root t) as [r0|] eqn:R.
  - intros E. cbn [count root_queue] in E.
    pose proof (valid_root_queue (Some r0)) as V. cbn [root_queue] in V.
    pose proof (target_loop_spec (Some r0) value _ _ _ V E) as Et.
    pose proof (rightmost_loop_spec (Some r0) _ _ _ None V E) as Er.
    change (map (with_parent (Some r0)) [mkPtr [] r0])
      with [(mkPtr [] r0, @None (Ptr T))] in Et, Er.
    change (option_map (with_parent (Some r0)) None) with (@None (Pair T)) in Er.
    rewrite Et. destruct (List.find (holds value) l) as [target|]; auto.
    cbn [option_map with_parent]. unfold leaf_ptr.
    destruct (is_leaf (pointee target)).
    + destruct (parent_of (Some r0) target); auto.
      now destruct (delete_children (addr p) (Some r0)).
    + destruct (is_internal (pointee target)); auto.
      rewrite Er. unfold last_leaf.
      destruct (last_leaf_from l None) as [rightmost|]; auto.
      cbn [option_map with_parent].
      destruct (addr_eqb (addr rightmost) (addr target)); auto.
      destruct (parent_of (Some r0) rightmost); auto.
      now destruct (delete_children _ _).
  - simpl. now intros [= <-].
Qed.

Lemma find_spec value t l :
  level_order (root t) = Some l -> find value t = Some (existsb (holds value) l).
Proof.
  unfold level_order, find. destruct (root t) as [r0|].
  - apply find_loop_spec.
  - simpl. now intros [= <-].
Qed.

End Loops.

Section InsertFacts.
Context {T : Type} `{EqOp T}.
Implicit Types (n m : Node T) (p r : option (Node T)) (a b : Addr) (c : Ptr T)
  (q l : list (Ptr T)) (t : FullBinaryTree T) (value : T).

Lemma extends_dec a b : {e | b = a ++ e} + {~ extends a b}.
Proof.
  revert b; induction a as [|s a IH]; intros b.
  - left. now exists b.
  - destruct b as [|s' b].
    + right. intros [e E]. discriminate.
    + destruct (slot_eqb s' s) eqn:Es.
      * apply slot_eqb_eq in Es; subst s'.
        destruct (IH b) as [[e ->]|N]; [left; now exists e|].
        right. intros [e E]. injection E as ->. apply N. now exists e.
      * right. intros [e E]. injection E as -> _.
        destruct s; discriminate.
Qed.

Lemma addr_eqb_app a e e' : addr_eqb (a ++ e) (a ++ e') = addr_eqb e e'.
Proof.
  induction a as [|s a IH]; simpl; auto.
  rewrite IH. now destruct s.
Qed.

Lemma addr_eqb_not_extends a b e : ~ extends a b -> addr_eqb b (a ++ e) = false.
Proof.
  intros N. destruct (addr_eqb b (a ++ e)) eqn:E; auto.
  apply addr_eqb_eq in E. destruct N. now exists e.
Qed.

Lemma first_leaf_valid r l c :
  level_order r = Some l -> List.find leaf_ptr l = Some c ->
  valid r c /\ is_leaf (pointee c) = true.
Proof.
  intros E F. apply find_some in F as [I L]. split; auto.
  pose proof (level_order_valid _ _ E) as V.
  rewrite Forall_forall in V. now apply V.
Qed.

Lemma insert_nonempty value t :
  root t <> None ->
  exists l c,
    level_order (root t) = Some l /\ List.find leaf_ptr l = Some c /\
    insert value t = Some (attach_at value t c).
Proof.
  intros N. destruct (level_order_total (root t)) as [l E].
  destruct (level_order_loop_leaf _ _ _ E) as [c F].
  { destruct (root t); [discriminate | congruence]. }
  exists l, c. repeat split; auto.
  unfold insert. unfold level_order in E. destruct (root t) as [r0|]; [|congruence].
  pose proof (insert_loop_spec value t _ _ _ E) as S. rewrite F in S. exact S.
Qed.

Lemma data_at_attach value r c a :
  valid r c -> is_leaf (pointee c) = true ->
  data_at a (write_at (addr c) (attach_pair value) r) =
  (if addr_eqb a (addr c ++ [LeftSlot]) || addr_eqb a (addr c ++ [RightSlot])
   then Some value else data_at a r).
Proof.
  intros V L. destruct (extends_dec (addr c) a) as [[e ->]|N].
  - rewrite !addr_eqb_app. unfold data_at.
    rewrite (node_at_write_at_below _ e (attach_pair value) _ _ V).
    rewrite node_at_app, V.
    destruct c as [ac [d [x|] [y|]]]; try discriminate. cbn [pointee].
    destruct e as [|[|] [|s e]]; try reflexivity.
    + destruct s; simpl; now rewrite node_at_None.
    + destruct s; simpl; now rewrite node_at_None.
  - rewrite !addr_eqb_not_extends by assumption.
    now apply data_at_write_at_outside.
Qed.

Lemma wrap_small z : (0 <= z <= SizeT.max)%Z -> SizeT.wrap z = z.
Proof.
  unfold SizeT.wrap, SizeT.max. intros R. apply Z.mod_small.
  unfold SizeT.modulus in *. lia.
Qed.

Lemma wrap_wrap_add z k : SizeT.wrap (SizeT.wrap z + k) = SizeT.wrap (z + k).
Proof. unfold SizeT.wrap. now rewrite Zplus_mod_idemp_l. Qed.

End InsertFacts.

Section InsertClaims.
Context {T : Type} `{EqOp T}.
Implicit Types (t : FullBinaryTree T) (value : T).

(** C5. [insert] on an empty tree makes [value] the single root and sets
    the size to 1. On a non-empty tree the first node without children in
    level order receives two new children that both hold [value]; the two
    new addresses are the only ones whose content changes, the node count
    grows by 2, and so does the size field unless it overflows. *)
Theorem insert_attaches_pair_at_first_leaf value t :
  (root t = None -> insert value t = Some (mkTree (Some (newNode value)) 1)) /\
  (root t <> None ->
   exists l c t',
     level_order (root t) = Some l /\
     List.find leaf_ptr l = Some c /\
     insert value t = Some t' /\
     node_at (addr c) (root t) = Some (pointee c) /\
     is_leaf (pointee c) = true /\
     node_at (addr c) (root t') =
       Some (mkNode (data (pointee c)) (Some (newNode value))
                    (Some (newNode value))) /\
     data_at (addr c ++ [LeftSlot]) (root t) = None /\
     data_at (addr c ++ [RightSlot]) (root t) = None /\
     (forall a,
        data_at a (root t') =
        (if addr_eqb a (addr c ++ [LeftSlot]) || addr_eqb a (addr c ++ [RightSlot])
         then Some value else data_at a (root t))) /\
     count (root t') = count (root t) + 2 /\
     ((0 <= size t)%Z -> (size t + 2 <= SizeT.max)%Z ->
      size t' = (size t + 2)%Z)).
Proof.
  split.
  - intros E. unfold insert. now rewrite E.
  - intros N. destruct (insert_nonempty value t N) as (l & c & El & Fc & Ei).
    destruct (first_leaf_valid _ _ _ El Fc) as [V L].
    exists l, c, (attach_at value t c). repeat split; auto.
    + cbn [attach_at root]. now rewrite (node_at_write_at _ _ _ _ V).
    + unfold data_at. rewrite (node_at_snoc _ LeftSlot _ _ V).
      destruct (pointee c) as [d [x|] [y|]]; try discriminate. reflexivity.
    + unfold data_at. rewrite (node_at_snoc _ RightSlot _ _ V).
      destruct (pointee c) as [d [x|] [y|]]; try discriminate. reflexivity.
    + intros a. cbn [attach_at root]. now apply data_at_attach.
    + cbn [attach_at root].
      pose proof (count_write_at _ (attach_pair value) _ _ V) as C.
      destruct (pointee c) as [d [x|] [y|]]; try discriminate.
      simpl in C. lia.
    + intros R1 R2. cbn [attach_at size]. apply wrap_small. lia.
Qed.

Lemma wrap_in_range z : SizeT.in_range (SizeT.wrap z).
Proof.
  unfold SizeT.in_range, SizeT.wrap. apply Z.mod_pos_bound.
  unfold SizeT.modulus. lia.
Qed.

Lemma run_inserts_nonempty (values : list T) t :
  root t <> None -> SizeT.in_range (size t) ->
  exists t', run (map OpInsert values) t = Some t' /\
             size t' = SizeT.wrap (size t + 2 * Z.of_nat (List.length values)) /\
             root t' <> None.
Proof.
  revert t; induction values as [|v values IH]; intros t N R.
  - exists t. repeat split; auto. cbn [List.length Z.of_nat].
    rewrite Z.add_0_r. symmetry. apply wrap_small.
    unfold SizeT.in_range, SizeT.max in *. lia.
  - destruct (insert_nonempty v t N) as (l & c & El & Fc & Ei).
    destruct (first_leaf_valid _ _ _ El Fc) as [V L].
    destruct (write_at_is_Some _ (attach_pair v) _ _ V) as [m Em].
    destruct (IH (attach_at v t c)) as (t' & Er & Es & Nr).
    + cbn [attach_at root]. rewrite Em. discriminate.
    + apply wrap_in_range.
    + exists t'. cbn [map run step]. rewrite Ei. repeat split; auto.
      rewrite Es. cbn [attach_at size]. rewrite wrap_wrap_add. f_equal.
      cbn [List.length]. lia.
Qed.

(** C7. After [k] inserts into an empty tree [getSize] is 0 when [k = 0]
    and [1 + 2 * (k - 1)] otherwise, as long as that number fits the
    [size_t] field. *)
Theorem size_after_inserts (values : list T) :
  let k := Z.of_nat (List.length values) in
  (2 * k <= SizeT.modulus)%Z ->
  exists t,
    run (map OpInsert values) empty = Some t /\
    getSize t = (if (k =? 0)%Z then 0%Z else (1 + 2 * (k - 1))%Z).
Proof.
  intros k B. subst k. destruct values as [|v values].
  - exists empty. now split.
  - destruct (run_inserts_nonempty values (mkTree (Some (newNode v)) 1))
      as (t' & Er & Es & _).
    + discriminate.
    + unfold SizeT.in_range, SizeT.modulus. cbn [size]. lia.
    + exists t'. split; [exact Er|].
      unfold getSize. rewrite Es. cbn [size List.length] in *.
      replace (Z.of_nat (S (List.length values)) =? 0)%Z with false
        by (symmetry; apply Z.eqb_neq; lia).
      rewrite wrap_small by (unfold SizeT.max; lia). lia.
Qed.

End InsertClaims.

Section RemoveFacts.
Context {T : Type} `{EqOp T}.
Implicit Types (n m : Node T) (p r : option (Node T)) (a b : Addr) (c : Ptr T)
  (q l : list (Ptr T)) (t : FullBinaryTree T) (value : T).

Lemma find_all_false {A} (f : A -> bool) (xs : list A) :
  (forall x, In x xs -> f x = false) -> List.find f xs = None.
Proof.
  induction xs as [|x xs IH]; simpl; intros F; auto.
  rewrite (F x) by now left. apply IH. intros y Hy. apply F. now right.
Qed.

Lemma existsb_all_false {A} (f : A -> bool) (xs : list A) :
  (forall x, In x xs -> f x = false) -> existsb f xs = false.
Proof.
  induction xs as [|x xs IH]; simpl; intros F; auto.
  rewrite (F x) by now left. apply IH. intros y Hy. apply F. now right.
Qed.

Lemma ptr_eta c : mkPtr (addr c) (pointee c) = c.
Proof. now destruct c. Qed.

Lemma valid_prefix r a s n :
  node_at (a ++ [s]) r = Some n ->
  exists m, node_at a r = Some m /\ child s m = Some n.
Proof.
  rewrite node_at_app. destruct (node_at a r) as [m|]; simpl; [eauto|discriminate].
Qed.

Lemma parent_of_cases r c :
  valid r c ->
  (addr c = [] /\ parent_of r c = None) \/
  (exists (par : Ptr T) s, parent_of r c = Some par /\ valid r par /\
               addr c = addr par ++ [s] /\
               child s (pointee par) = Some (pointee c)).
Proof.
  unfold valid, parent_of. intros V.
  destruct (addr c) as [|s0 a0] eqn:E using rev_ind; [now left|]. clear IHa0.
  right. rewrite parent_addr_snoc.
  destruct (valid_prefix _ _ _ _ V) as (m & Em & Ec). rewrite Em.
  exists (mkPtr a0 m), s0. repeat split; auto.
Qed.

Lemma countNode_child s m x : child s m = Some x -> countNode x < countNode m.
Proof. destruct s, m as [d [l|] [r|]]; simpl; intros [= ->]; lia. Qed.

Lemma countNode_node_at a r n : node_at a r = Some n -> countNode n <= count r.
Proof.
  revert r; induction a as [|s a IH]; intros [m|] E; simpl in E; try discriminate.
  - injection E as ->. simpl. lia.
  - specialize (IH _ E). destruct (child s m) as [x|] eqn:Ex.
    + pose proof (countNode_child _ _ _ Ex). simpl in *. lia.
    + now rewrite node_at_None in E.
Qed.

Lemma delete_children_at a r n :
  node_at a r = Some n ->
  delete_children a r = (write_at a unlink_children r, push_children (mkPtr a n)).
Proof. unfold delete_children. now intros ->. Qed.

Lemma full_node_children n s x :
  isFullBinaryTreeNode n = true -> child s n = Some x ->
  exists y z, left n = Some y /\ right n = Some z.
Proof.
  rewrite isFullBinaryTreeNode_eq. unfold one_child.
  destruct s, n as [d [l|] [r|]]; simpl; intros F E; try discriminate; eauto.
Qed.

End RemoveFacts.

Section RemoveClaims.
Context {T : Type} `{EqOp T}.
Implicit Types (t : FullBinaryTree T) (value : T).

(** C9. When no node of the tree holds [value], [remove] returns the tree
    as it was (same nodes, values and size, nothing deleted) and [find]
    answers false; neither fails. *)
Theorem remove_absent_is_noop value t :
  (forall a n, node_at a (root t) = Some n -> eq_op (data n) value = false) ->
  remove value t = Some (t, []) /\ find value t = Some false.
Proof.
  intros A. destruct (level_order_total (root t)) as [l E].
  pose proof (level_order_valid _ _ E) as V. rewrite Forall_forall in V.
  assert (F : forall c, In c l -> holds value c = false).
  { intros c I. unfold holds. eapply A, V, I. }
  split.
  - rewrite (remove_spec value t l E). unfold remove_on.
    now rewrite (find_all_false _ _ F).
  - rewrite (find_spec value t l E). now rewrite (existsb_all_false _ _ F).
Qed.

(** The leaf branch of [remove]. In a tree that satisfies the invariant, when
    the first node in level order that holds [value] is a leaf: with a
    parent, the parent's two children are handed to [delete], the parent is
    left without children and the size is lowered by 2, while the tree loses
    every node below the parent, the sibling's own subtree included; without
    a parent the target is the only node, it is deleted and the tree is left
    empty with size 0. *)
Lemma remove_leaf_branch value t l target :
  isFullBinaryTree t = true ->
  size t = Z.of_nat (count (root t)) ->
  (size t <= SizeT.max)%Z ->
  level_order (root t) = Some l ->
  List.find (holds value) l = Some target ->
  is_leaf (pointee target) = true ->
  match parent_of (root t) target with
  | Some p =>
      exists s x y,
        node_at (addr p) (root t) = Some (pointee p) /\
        addr target = addr p ++ [s] /\
        left (pointee p) = Some x /\ right (pointee p) = Some y /\
        In target [mkPtr (addr p ++ [LeftSlot]) x;
                   mkPtr (addr p ++ [RightSlot]) y] /\
        remove value t =
          Some (mkTree (write_at (addr p) unlink_children (root t))
                       (size t - 2),
                [mkPtr (addr p ++ [LeftSlot]) x;
                 mkPtr (addr p ++ [RightSlot]) y]) /\
        node_at (addr p) (write_at (addr p) unlink_children (root t)) =
          Some (mkNode (data (pointee p)) None None) /\
        count (write_at (addr p) unlink_children (root t)) +
          (countNode x + countNode y) = count (root t)
  | None =>
      addr target = [] /\ count (root t) = 1 /\
      remove value t = Some (mkTree None 0, [target])
  end.
Proof.
  intros F Sz R E Ft L.
  pose proof (level_order_valid _ _ E) as V. rewrite Forall_forall in V.
  destruct (find_some _ _ Ft) as [I Hv]. specialize (V _ I).
  rewrite (remove_spec value t l E). unfold remove_on. rewrite Ft.
  unfold leaf_ptr. rewrite L.
  destruct (parent_of_cases _ _ V) as [[Ea Ep]|(p & s & Ep & Vp & Ea & Ec)];
    rewrite Ep.
  - unfold valid in V. rewrite Ea in V. simpl in V. rewrite V.
    repeat split; auto.
    + destruct (pointee target) as [d [x|] [y|]]; try discriminate. reflexivity.
    + simpl. now rewrite <- Ea, ptr_eta.
  - pose proof (isFull_node_at _ _ _ F Vp) as Fp.
    destruct (full_node_children _ _ _ Fp Ec) as (x & y & El & Er).
    exists s, x, y. repeat split; auto.
    + rewrite <- (ptr_eta target), Ea.
      destruct s; simpl in Ec; [left | right; left]; congruence.
    + rewrite (delete_children_at _ _ _ Vp).
      unfold push_children, push_child; simpl. rewrite El, Er. simpl.
      do 3 f_equal. apply wrap_small.
      pose proof (countNode_node_at _ _ _ Vp) as C.
      rewrite (countNode_eq (pointee p)), El, Er in C. simpl in C.
      pose proof (countNode_pos x). pose proof (countNode_pos y).
      unfold SizeT.max in *. lia.
    + now rewrite (node_at_write_at _ _ _ _ Vp).
    + pose proof (count_write_at _ unlink_children _ _ Vp) as C.
      rewrite (countNode_eq (pointee p)), El, Er in C. simpl in C. lia.
Qed.

End RemoveClaims.

Section LevelOrder.
Context {T : Type}.
Implicit Types (n m : Node T) (p r : option (Node T)) (a b : Addr) (c : Ptr T)
  (q l : list (Ptr T)).

Lemma depth_push_children c x : In x (push_children c) -> depth x = S (depth c).
Proof.
  unfold push_children, push_child, depth. intros I.
  apply in_app_or in I as [I|I];
    [destruct (child LeftSlot (pointee c)) | destruct (child RightSlot (pointee c))];
    try (now destruct I); destruct I as [<-|[]]; simpl;
    rewrite length_app; simpl; lia.
Qed.

Lemma sorted_by_depth_app l1 l2 :
  sorted_by_depth l1 -> sorted_by_depth l2 ->
  (forall x y, In x l1 -> In y l2 -> depth x <= depth y) ->
  sorted_by_depth (l1 ++ l2).
Proof.
  unfold sorted_by_depth. induction l1 as [|x l1 IH]; simpl; intros S1 S2 B; auto.
  apply StronglySorted_inv in S1 as [S1 F1]. constructor.
  - apply IH; auto.
  - apply Forall_app; split; auto.
    apply Forall_forall. intros y Hy. apply B; auto.
Qed.

Lemma sorted_by_depth_const l d :
  (forall x, In x l -> depth x = d) -> sorted_by_depth l.
Proof.
  unfold sorted_by_depth. induction l as [|x l IH]; intros E; constructor.
  - apply IH. intros y Hy. apply E. now right.
  - apply Forall_forall. intros y Hy.
    rewrite (E x), (E y); auto; [now right | now left].
Qed.

Lemma level_queue_step c q :
  level_queue (c :: q) ->
  level_queue (q ++ push_children c) /\
  forall x, In x (q ++ push_children c) -> depth c <= depth x.
Proof.
  intros [Hs B]. specialize (B c q eq_refl).
  apply StronglySorted_inv in Hs as [Hs F]. rewrite Forall_forall in F.
  assert (G : forall x, In x (q ++ push_children c) ->
                        depth c <= depth x <= S (depth c)).
  { intros x I. apply in_app_or in I as [I|I].
    - split; [now apply F | apply B; now right].
    - rewrite (depth_push_children _ _ I). lia. }
  split; [split|].
  - apply sorted_by_depth_app; auto.
    + apply (sorted_by_depth_const _ (S (depth c))), depth_push_children.
    + intros x y Ix Iy. rewrite (depth_push_children _ _ Iy). apply B. now right.
  - intros c0 q' E x I.
    assert (I0 : In c0 (q ++ push_children c)) by (rewrite E; now left).
    apply G in I, I0. lia.
  - intros x I. now apply G in I.
Qed.

Lemma level_order_loop_sorted fuel q l :
  level_queue q -> level_order_loop fuel q = Some l ->
  sorted_by_depth l /\
  forall c0 q', q = c0 :: q' -> forall x, In x l -> depth c0 <= depth x.
Proof.
  revert q l; induction fuel as [|fuel IH]; intros [|c q] l Q E; simpl in E;
    try discriminate.
  - injection E as <-. split; [constructor | discriminate].
  - injection E as <-. split; [constructor | discriminate].
  - destruct (level_order_loop fuel (q ++ push_children c)) as [rest|] eqn:E';
      try discriminate.
    injection E as <-. destruct (level_queue_step _ _ Q) as [Q' G].
    destruct (IH _ _ Q' E') as [Hs' B'].
    assert (A : forall x, In x rest -> depth c <= depth x).
    { intros x I. destruct (q ++ push_children c) as [|c1 q1] eqn:Eq.
      - destruct fuel; simpl in E'; injection E' as <-; destruct I.
      - specialize (B' c1 q1 eq_refl x I).
        specialize (G c1 (or_introl eq_refl)). lia. }
    split.
    + constructor; auto. now apply Forall_forall.
    + intros c0 q' [= <- <-] x [<-|I]; auto.
Qed.

Lemma level_queue_root r : level_queue (root_queue r).
Proof.
  destruct r as [r0|]; simpl; split.
  - repeat constructor.
  - intros c0 q' E c [<-|[]]. injection E as <- _. lia.
  - constructor.
  - discriminate.
Qed.

Lemma level_order_sorted r l : level_order r = Some l -> sorted_by_depth l.
Proof. intros E. now apply (level_order_loop_sorted _ _ _ (level_queue_root r) E). Qed.

(** Every node of the tree is visited. *)
Lemma level_order_complete r l a n :
  level_order r = Some l -> node_at a r = Some n -> In (mkPtr a n) l.
Proof.
  intros E. destruct (level_order_loop_closed _ _ _ E) as [Q C].
  revert n; induction a as [|s a IH] using rev_ind; intros n V.
  - simpl in V. subst r. apply Q. now left.
  - destruct (valid_prefix _ _ _ _ V) as (m & Em & Ec).
    apply (C _ (IH _ Em)). unfold push_children, push_child. cbn [pointee addr].
    apply in_or_app. destruct s; [left | right]; rewrite Ec; now left.
Qed.

Lemma sorted_by_depth_last l e x :
  sorted_by_depth (l ++ [e]) -> In x (l ++ [e]) -> depth x <= depth e.
Proof.
  unfold sorted_by_depth. induction l as [|y l IH]; simpl; intros Hs I.
  - destruct I as [<-|[]]. lia.
  - apply StronglySorted_inv in Hs as [Hs F]. destruct I as [<-|I]; auto.
    rewrite Forall_forall in F. apply F, in_or_app. right. now left.
Qed.

(** A node on the deepest level of the traversal has no children. *)
Lemma deepest_is_leaf r l a n d :
  level_order r = Some l -> (forall x, In x l -> depth x <= d) ->
  node_at a r = Some n -> List.length a = d -> is_leaf n = true.
Proof.
  intros E B V D.
  assert (N : forall s, child s n = None).
  { intros s. destruct (child s n) as [x|] eqn:Ex; auto.
    pose proof (node_at_snoc _ s _ _ V) as Vx. rewrite Ex in Vx.
    apply (level_order_complete _ _ _ _ E), B in Vx.
    unfold depth in Vx. simpl in Vx. rewrite length_app in Vx. simpl in Vx. lia. }
  pose proof (N LeftSlot) as Nl. pose proof (N RightSlot) as Nr.
  unfold is_leaf. simpl in Nl, Nr. now rewrite Nl, Nr.
Qed.

Lemma last_leaf_snoc l e :
  is_leaf (pointee e) = true -> last_leaf (l ++ [e]) = Some e.
Proof.
  intros L. unfold last_leaf, last_leaf_from. rewrite fold_left_app. simpl.
  unfold leaf_ptr. now rewrite L.
Qed.

End LevelOrder.

Section InternalRemoval.
Context {T : Type} `{EqOp T}.
Implicit Types (n m : Node T) (p r : option (Node T)) (a b : Addr) (c : Ptr T)
  (q l : list (Ptr T)) (t : FullBinaryTree T) (value : T).

Lemma child_set_data s d n : child s (set_data d n) = child s n.
Proof. now destruct s. Qed.

(** A write that keeps the children of the node it changes is not seen at
    an address that is neither the written one nor above it. *)
Lemma node_at_write_at_elsewhere a b (f : Node T -> Node T) r :
  (forall n s, child s (f n) = child s n) ->
  ~ extends b a ->
  node_at b (write_at a f r) = node_at b r.
Proof.
  intros K. revert b r; induction a as [|s a IH]; intros b [m|] N;
    try (cbn [write_at]; reflexivity).
  - destruct b as [|s' b]; [destruct N; now exists []|].
    simpl. now rewrite K.
  - destruct b as [|s' b]; [destruct N; now exists (s :: a)|].
    cbn [write_at node_at]. rewrite child_set_child.
    destruct (slot_eqb s' s) eqn:Es; auto.
    apply slot_eqb_eq in Es; subst s'. apply IH.
    intros [e ->]. apply N. now exists e.
Qed.

Lemma countNode_set_data d n : countNode (set_data d n) = countNode n.
Proof. now destruct n. Qed.

Lemma leaf_not_internal n : is_leaf n = true -> is_internal n = true -> False.
Proof. destruct n as [d [x|] [y|]]; simpl; discriminate. Qed.

Lemma internal_has_left n : is_internal n = true -> exists x, left n = Some x.
Proof. destruct n as [d [x|] [y|]]; simpl; try discriminate; eauto. Qed.

Lemma countNode_leaf n : is_leaf n = true -> countNode n = 1.
Proof. destruct n as [d [x|] [y|]]; simpl; try discriminate; auto. Qed.

(** Nothing lives below a leaf. *)
Lemma below_leaf r a e n x :
  node_at a r = Some n -> is_leaf n = true ->
  node_at (a ++ e) r = Some x -> e = [] /\ x = n.
Proof.
  intros V L. rewrite node_at_app, V. destruct e as [|s e]; simpl.
  - intros [= <-]. auto.
  - destruct n as [d [y|] [z|]]; try discriminate.
    destruct s; simpl; now rewrite node_at_None.
Qed.

End InternalRemoval.

Section InternalRemovalClaim.
Context {T : Type} `{EqOp T}.
Implicit Types (t : FullBinaryTree T) (value : T).

(** C3. In a tree that satisfies the invariant, when the first node in
    level order that holds [value] has two children, [remove] finds the
    last leaf of a whole level-order scan, writes that leaf's value into
    the target (which stays linked at its address), deletes the two
    children of the leaf's parent (the leaf and its sibling, both leaves),
    and lowers the size and the node count by exactly 2. *)
Theorem remove_internal_target value t l target :
  isFullBinaryTree t = true ->
  size t = Z.of_nat (count (root t)) ->
  (size t <= SizeT.max)%Z ->
  level_order (root t) = Some l ->
  List.find (holds value) l = Some target ->
  is_internal (pointee target) = true ->
  exists rightmost rp x y t',
    last_leaf l = Some rightmost /\
    parent_of (root t) rightmost = Some rp /\
    left (pointee rp) = Some x /\ right (pointee rp) = Some y /\
    is_leaf x = true /\ is_leaf y = true /\
    In rightmost [mkPtr (addr rp ++ [LeftSlot]) x;
                  mkPtr (addr rp ++ [RightSlot]) y] /\
    remove value t =
      Some (t', [mkPtr (addr rp ++ [LeftSlot]) x;
                 mkPtr (addr rp ++ [RightSlot]) y]) /\
    root t' =
      write_at (addr rp) unlink_children
        (write_at (addr target) (set_data (data (pointee rightmost))) (root t)) /\
    data_at (addr target) (root t') = Some (data (pointee rightmost)) /\
    size t' = (size t - 2)%Z /\
    count (root t') + 2 = count (root t).
Proof.
  intros F Sz R E Ft Li.
  pose proof (level_order_valid _ _ E) as V. rewrite Forall_forall in V.
  destruct (find_some _ _ Ft) as [It Hv]. pose proof (V _ It) as Vt.
  (* the last node of the traversal *)
  destruct l as [|c0 l0] eqn:El using rev_ind; [destruct It|]. clear IHl0.
  rename c0 into e. rewrite <- El in *.
  assert (Ie : In e l) by (rewrite El; apply in_or_app; right; now left).
  pose proof (V _ Ie) as Ve.
  assert (Mx : forall x, In x l -> depth x <= depth e).
  { intros x Ix. apply (sorted_by_depth_last l0); rewrite <- El; auto.
    now apply (level_order_sorted (root t)). }
  pose proof (deepest_is_leaf _ _ _ _ _ E Mx Ve eq_refl) as Le.
  assert (Ell : last_leaf l = Some e) by (rewrite El; now apply last_leaf_snoc).
  (* its parent *)
  destruct (parent_of_cases _ _ Ve) as [[Ea Ep]|(rp & s & Ep & Vp & Ea & Ec)].
  { exfalso. destruct (internal_has_left _ Li) as [x0 Ex0].
    pose proof (node_at_snoc _ LeftSlot _ _ Vt) as Vx. simpl in Vx.
    rewrite Ex0 in Vx. apply (level_order_complete _ _ _ _ E), Mx in Vx.
    unfold depth in Vx. rewrite Ea in Vx. simpl in Vx.
    rewrite length_app in Vx. simpl in Vx. lia. }
  pose proof (isFull_node_at _ _ _ F Vp) as Fp.
  destruct (full_node_children _ _ _ Fp Ec) as (x & y & Ex & Ey).
  assert (De : depth e = S (List.length (addr rp))).
  { unfold depth. rewrite Ea, length_app. simpl. lia. }
  assert (Vx : node_at (addr rp ++ [LeftSlot]) (root t) = Some x)
    by (rewrite (node_at_snoc _ LeftSlot _ _ Vp); exact Ex).
  assert (Vy : node_at (addr rp ++ [RightSlot]) (root t) = Some y)
    by (rewrite (node_at_snoc _ RightSlot _ _ Vp); exact Ey).
  assert (Lx : is_leaf x = true).
  { apply (deepest_is_leaf _ _ _ _ _ E Mx Vx). rewrite length_app. simpl. lia. }
  assert (Ly : is_leaf y = true).
  { apply (deepest_is_leaf _ _ _ _ _ E Mx Vy). rewrite length_app. simpl. lia. }
  (* the target is neither the last leaf nor below its parent *)
  assert (Ne : addr_eqb (addr e) (addr target) = false).
  { destruct (addr_eqb (addr e) (addr target)) eqn:Q; auto.
    apply addr_eqb_eq in Q. unfold valid in Ve, Vt. rewrite Q in Ve.
    exfalso. apply (leaf_not_internal (pointee target)); congruence. }
  assert (Nb : forall e', addr target = addr rp ++ e' -> e' = []).
  { intros [|s' e'] Q; auto. exfalso. unfold valid in Vt. rewrite Q in Vt.
    change (s' :: e') with ([s'] ++ e') in Vt. rewrite app_assoc in Vt.
    destruct s'.
    - destruct (below_leaf _ _ _ _ _ Vx Lx Vt) as [_ Q'].
      apply (leaf_not_internal (pointee target)); congruence.
    - destruct (below_leaf _ _ _ _ _ Vy Ly Vt) as [_ Q'].
      apply (leaf_not_internal (pointee target)); congruence. }
  set (d := data (pointee e)).
  set (root1 := write_at (addr target) (set_data d) (root t)).
  assert (V1 : exists n1, node_at (addr rp) root1 = Some n1 /\
                          left n1 = Some x /\ right n1 = Some y /\
                          (addr target = addr rp -> data n1 = d)).
  { destruct (addr_eqb (addr target) (addr rp)) eqn:Q.
    - apply addr_eqb_eq in Q. exists (set_data d (pointee rp)).
      unfold root1. rewrite Q. rewrite (node_at_write_at _ _ _ _ Vp).
      repeat split; auto.
    - exists (pointee rp). unfold root1.
      rewrite node_at_write_at_elsewhere; auto using child_set_data.
      + repeat split; auto. intros Q'. rewrite Q' in Q.
        assert (addr_eqb (addr rp) (addr rp) = true) by now apply addr_eqb_eq.
        congruence.
      + intros [e' Q']. pose proof (Nb _ Q'). subst e'.
        rewrite app_nil_r in Q'. rewrite Q' in Q.
        assert (addr_eqb (addr rp) (addr rp) = true) by now apply addr_eqb_eq.
        congruence. }
  destruct V1 as (n1 & Vn1 & Ex1 & Ey1 & Dn1).
  assert (C1 : count root1 = count (root t)).
  { pose proof (count_write_at _ (set_data d) _ _ Vt) as C.
    rewrite countNode_set_data in C. unfold root1. lia. }
  assert (Cn1 : countNode n1 = 3).
  { rewrite countNode_eq, Ex1, Ey1. simpl.
    rewrite (countNode_leaf _ Lx), (countNode_leaf _ Ly). reflexivity. }
  pose proof (count_write_at _ unlink_children _ _ Vn1) as C2.
  simpl in C2. rewrite Cn1 in C2.
  pose proof (countNode_node_at _ _ _ Vn1) as C3.
  exists e, rp, x, y,
    (mkTree (write_at (addr rp) unlink_children root1) (size t - 2)).
  repeat split; auto.
  - rewrite <- (ptr_eta e), Ea.
    destruct s; simpl in Ec; [left | right; left]; congruence.
  - rewrite (remove_spec value t l E). unfold remove_on. rewrite Ft.
    unfold leaf_ptr.
    assert (Lt : is_leaf (pointee target) = false).
    { destruct (is_leaf (pointee target)) eqn:Q; auto.
      exfalso. eapply leaf_not_internal; eauto. }
    rewrite Lt, Li, Ell, Ne, Ep. fold d. fold root1.
    rewrite (delete_children_at _ _ _ Vn1).
    unfold push_children, push_child. cbn [pointee addr child].
    rewrite Ex1, Ey1. simpl. do 3 f_equal. apply wrap_small.
    unfold SizeT.max in *. lia.
  - cbn [root]. destruct (addr_eqb (addr target) (addr rp)) eqn:Q.
    + apply addr_eqb_eq in Q. unfold data_at.
      rewrite Q, (node_at_write_at _ _ _ _ Vn1). simpl. f_equal. auto.
    + rewrite data_at_write_at_outside.
      * unfold data_at, root1. now rewrite (node_at_write_at _ _ _ _ Vt).
      * intros [e' Q']. pose proof (Nb _ Q'). subst e'.
        rewrite app_nil_r in Q'. rewrite Q' in Q.
        assert (addr_eqb (addr rp) (addr rp) = true) by now apply addr_eqb_eq.
        congruence.
  - cbn [root]. lia.
Qed.

End InternalRemovalClaim.

Section Concrete.
Import Sample.
Open Scope Z_scope.

Example t3_by_inserts :
  run [OpInsert 10; OpInsert 20; OpInsert 30] empty = Some t3.
Proof. reflexivity. Qed.

Example t_lopsided_by_ops :
  run [OpInsert 1; OpInsert 2; OpInsert 3; OpInsert 4; OpRemove 2] empty
  = Some t_lopsided.
Proof. reflexivity. Qed.

(** C1. The sequence insert 1, 2, 3, 4, remove 2 from the empty tree gives
    a tree that satisfies the invariant, with five nodes and size 5. A
    second remove 2 then unlinks the leaf 2 together with its sibling,
    which still has two children: the tree that is left passes the shape
    check and has one reachable node, while its size field is 3. *)
Theorem size_diverges_from_node_count :
  exists t5 t6 : FullBinaryTree Z,
    run [OpInsert 1; OpInsert 2; OpInsert 3; OpInsert 4; OpRemove 2] empty
      = Some t5 /\
    isFullBinaryTree t5 = true /\
    size t5 = Z.of_nat (count (root t5)) /\
    run [OpInsert 1; OpInsert 2; OpInsert 3; OpInsert 4; OpRemove 2; OpRemove 2]
        empty = Some t6 /\
    step (OpRemove 2) t5 = Some t6 /\
    isFullBinaryTree t6 = true /\
    root t6 = leaf 1 /\
    count (root t6) = 1%nat /\
    size t6 = 3.
Proof. exists t_lopsided. eexists. repeat split. Qed.

(** C6. After [insert 10; insert 20; insert 30] the value 20 is held by the
    left child of the root, which has two children, and by the right child,
    a leaf. [remove 20] takes the left child as its target: the node stays
    where it is and its value is overwritten with 30, the value of the last
    leaf of the scan; that leaf and its sibling are handed to [delete]; the
    size and the number of nodes go from 5 to 3. Afterwards [find 20] still
    answers true, and the only node that holds 20 is the right child of the
    root, which is not the target and was not touched. *)
Theorem removed_value_still_found :
  exists (values : list Z) (v : Z) (t t' : FullBinaryTree Z) l target rightmost deleted,
    run (map OpInsert values) empty = Some t /\
    find v t = Some true /\
    level_order (root t) = Some l /\
    List.find (holds v) l = Some target /\
    addr target = [LeftSlot] /\
    is_internal (pointee target) = true /\
    last_leaf l = Some rightmost /\
    addr rightmost = [LeftSlot; RightSlot] /\
    data (pointee rightmost) = 30 /\
    remove v t = Some (t', deleted) /\
    t' = mkTree (node 10 (leaf 30) (leaf 20)) 3 /\
    deleted = ptr [LeftSlot; LeftSlot] (leaf 30) ++
              ptr [LeftSlot; RightSlot] (leaf 30) /\
    In rightmost deleted /\
    data_at (addr target) (root t) = Some v /\
    data_at (addr target) (root t') = Some (data (pointee rightmost)) /\
    eq_op (data (pointee rightmost)) v = false /\
    size t = 5 /\ size t' = size t - 2 /\
    (count (root t') + 2 = count (root t))%nat /\
    find v t' = Some true /\
    [RightSlot] <> addr target /\
    node_at [RightSlot] (root t) = leaf v /\
    node_at [RightSlot] (root t') = leaf v /\
    (forall a n, node_at a (root t') = Some n -> eq_op (data n) v = true ->
                 a = [RightSlot]).
Proof.
  exists [10; 20; 30], 20, t3, (mkTree (node 10 (leaf 30) (leaf 20)) 3).
  exists (ptr [] (root t3) ++
          ptr [LeftSlot] (node 20 (leaf 30) (leaf 30)) ++
          ptr [RightSlot] (leaf 20) ++
          ptr [LeftSlot; LeftSlot] (leaf 30) ++
          ptr [LeftSlot; RightSlot] (leaf 30)).
  exists (mkPtr [LeftSlot] (mkNode 20 (leaf 30) (leaf 30))).
  exists (mkPtr [LeftSlot; RightSlot] (newNode 30)).
  exists (ptr [LeftSlot; LeftSlot] (leaf 30) ++ ptr [LeftSlot; RightSlot] (leaf 30)).
  do 12 (split; [reflexivity|]).
  split; [right; left; reflexivity|].
  do 7 (split; [reflexivity|]).
  split; [discriminate|].
  do 2 (split; [reflexivity|]).
  intros a n E Hn.
  repeat (destruct a as [|[|] a]; simpl in E;
          try (rewrite node_at_None in E); try discriminate;
          try (injection E as <-); try discriminate; try reflexivity).
Qed.

(** C8. The sequence insert 1, 2, 3, 4, remove 2 from the empty tree gives a
    tree that satisfies the invariant, with five nodes and size 5, in which
    the first node in level order that holds 2 is a leaf, the right child of
    the root, whose sibling has two children. [remove 2] hands the two
    children of the root to [delete] and lowers the size by 2, but the tree
    loses four nodes: the two children of the sibling leave the tree with it
    and are not handed to [delete]. One node is left, with size 3. *)
Theorem leaf_removal_loses_four_nodes :
  exists (t t' : FullBinaryTree Z) l target p deleted,
    run [OpInsert 1; OpInsert 2; OpInsert 3; OpInsert 4; OpRemove 2] empty
      = Some t /\
    isFullBinaryTree t = true /\
    size t = Z.of_nat (count (root t)) /\
    count (root t) = 5%nat /\
    level_order (root t) = Some l /\
    List.find (holds 2) l = Some target /\
    addr target = [RightSlot] /\
    is_leaf (pointee target) = true /\
    parent_of (root t) target = Some p /\
    addr p = [] /\
    node_at [LeftSlot] (root t) = node 4 (leaf 3) (leaf 3) /\
    remove 2 t = Some (t', deleted) /\
    deleted = ptr [LeftSlot] (node 4 (leaf 3) (leaf 3)) ++ ptr [RightSlot] (leaf 2) /\
    List.length deleted = 2%nat /\
    root t' = leaf 1 /\
    isFullBinaryTree t' = true /\
    count (root t') = 1%nat /\
    (count (root t') + 4 = count (root t))%nat /\
    size t' = size t - 2 /\
    size t' = 3 /\
    size t' <> Z.of_nat (count (root t')) /\
    node_at [LeftSlot; LeftSlot] (root t) = leaf 3 /\
    node_at [LeftSlot; RightSlot] (root t) = leaf 3 /\
    node_at [LeftSlot; LeftSlot] (root t') = None /\
    node_at [LeftSlot; RightSlot] (root t') = None /\
    ~ In [LeftSlot; LeftSlot] (map addr deleted) /\
    ~ In [LeftSlot; RightSlot] (map addr deleted).
Proof.
  exists t_lopsided, (mkTree (leaf 1) 3).
  exists (ptr [] (root t_lopsided) ++
          ptr [LeftSlot] (node 4 (leaf 3) (leaf 3)) ++
          ptr [RightSlot] (leaf 2) ++
          ptr [LeftSlot; LeftSlot] (leaf 3) ++
          ptr [LeftSlot; RightSlot] (leaf 3)).
  exists (mkPtr [RightSlot] (newNode 2)).
  exists (mkPtr [] (mkNode 1 (node 4 (leaf 3) (leaf 3)) (leaf 2))).
  exists (ptr [LeftSlot] (node 4 (leaf 3) (leaf 3)) ++ ptr [RightSlot] (leaf 2)).
  do 20 (split; [reflexivity|]).
  split; [discriminate|].
  do 4 (split; [reflexivity|]).
  split; intros [E|[E|[]]]; discriminate.
Qed.

Lemma insert_attaches_pair_at_first_leaf_witness :
  root t3 <> None /\
  exists l c t',
    level_order (root t3) = Some l /\
    List.find leaf_ptr l = Some c /\
    insert 40 t3 = Some t' /\
    addr c = [RightSlot] /\
    root t' = node 10 (node 20 (leaf 30) (leaf 30)) (node 20 (leaf 40) (leaf 40)) /\
    count (root t') = 7%nat /\
    size t' = 7.
Proof.
  split; [discriminate|].
  destruct (insert_attaches_pair_at_first_leaf 40 t3) as [_ W].
  destruct (W ltac:(discriminate))
    as (l & c & t' & El & Fc & Ei & _ & _ & _ & _ & _ & _ & Ec & Es).
  exists l, c, t'.
  assert (E1 : insert 40 t3 = Some (mkTree
            (node 10 (node 20 (leaf 30) (leaf 30)) (node 20 (leaf 40) (leaf 40))) 7))
    by reflexivity.
  assert (E2 : level_order (root t3) =
               Some (ptr [] (root t3) ++
                     ptr [LeftSlot] (node 20 (leaf 30) (leaf 30)) ++
                     ptr [RightSlot] (leaf 20) ++
                     ptr [LeftSlot; LeftSlot] (leaf 30) ++
                     ptr [LeftSlot; RightSlot] (leaf 30)))
    by reflexivity.
  rewrite E1 in Ei. injection Ei as <-.
  rewrite E2 in El. injection El as <-.
  simpl in Fc. injection Fc as <-.
  repeat split.
Defined.

Lemma size_after_inserts_witness :
  (2 * 3 <= SizeT.modulus) /\
  exists t, run (map OpInsert [10; 20; 30]) empty = Some t /\ getSize t = 5.
Proof.
  split; [vm_compute; discriminate|].
  apply (size_after_inserts [10; 20; 30]). vm_compute; discriminate.
Defined.

Ltac absent_by_address a E :=
  repeat (destruct a as [|[|] a]; simpl in E;
          try (rewrite node_at_None in E); try discriminate;
          try (injection E as <-; reflexivity)).

Lemma remove_absent_is_noop_witness :
  (forall a n, node_at a (root t3) = Some n -> eq_op (data n) 99 = false) /\
  remove 99 t3 = Some (t3, []) /\ find 99 t3 = Some false.
Proof.
  assert (A : forall a n, node_at a (root t3) = Some n -> eq_op (data n) 99 = false).
  { intros a n E. absent_by_address a E. }
  split; [exact A|]. exact (remove_absent_is_noop 99 t3 A).
Defined.

Example remove_leaf_branch_on_lopsided :
  isFullBinaryTree t_lopsided = true /\
  size t_lopsided = Z.of_nat (count (root t_lopsided)) /\
  size t_lopsided <= SizeT.max /\
  remove 2 t_lopsided =
    Some (mkTree (leaf 1) 3,
          ptr [LeftSlot] (node 4 (leaf 3) (leaf 3)) ++ ptr [RightSlot] (leaf 2)).
Proof.
  assert (R : size t_lopsided <= SizeT.max) by (vm_compute; discriminate).
  split; [reflexivity | split; [reflexivity | split; [exact R|]]].
  pose proof (remove_leaf_branch 2 t_lopsided _ _ eq_refl eq_refl R
                eq_refl eq_refl eq_refl) as W.
  simpl in W. destruct W as (s & x & y & _ & _ & Ex & Ey & _ & Er & _).
  injection Ex as <-. injection Ey as <-. exact Er.
Defined.

Lemma remove_internal_target_witness :
  isFullBinaryTree t3 = true /\
  size t3 = Z.of_nat (count (root t3)) /\
  size t3 <= SizeT.max /\
  remove 20 t3 =
    Some (mkTree (node 10 (leaf 30) (leaf 20)) 3,
          ptr [LeftSlot; LeftSlot] (leaf 30) ++
          ptr [LeftSlot; RightSlot] (leaf 30)).
Proof.
  assert (R : size t3 <= SizeT.max) by (vm_compute; discriminate).
  split; [reflexivity | split; [reflexivity | split; [exact R|]]].
  pose proof (remove_internal_target 20 t3 _ _ eq_refl eq_refl R
                eq_refl eq_refl eq_refl) as W.
  destruct W as (e & rp & x & y & t' & El & Ep & Ex & Ey & _ & _ & _ & Er & Et & _ & Es & _).
  vm_compute in El. injection El as <-.
  vm_compute in Ep. injection Ep as <-.
  injection Ex as <-. injection Ey as <-.
  rewrite Er. destruct t' as [r' s']. simpl in Et, Es. subst r' s'. reflexivity.
Defined.

End Concrete.

(** ** Characters and numerals *)

Section Characters.

Lemma chars_eqb_eq x y : chars_eqb x y = true <-> x = y.
Proof.
  revert y; induction x as [|c x IH]; intros [|d y]; simpl; split; intro E;
    try congruence.
  - apply andb_true_iff in E as [E1 E2].
    apply Ascii.eqb_eq in E1. apply IH in E2. congruence.
  - injection E as -> ->. apply andb_true_iff; split.
    + apply Ascii.eqb_refl.
    + now apply IH.
Qed.

Lemma N_of_digit_char d : (d < 10)%N -> N_of_ascii (digit_char d) = (48 + d)%N.
Proof. intros B. unfold digit_char. apply N_ascii_embedding. lia. Qed.

Lemma isdigit_digit_char d : (d < 10)%N -> isdigit (digit_char d) = true.
Proof.
  intros B. unfold isdigit. rewrite (N_of_digit_char d B).
  apply andb_true_iff; split; apply N.leb_le; lia.
Qed.

Lemma digit_value_digit_char d : (d < 10)%N -> digit_value (digit_char d) = d.
Proof. intros B. unfold digit_value. rewrite (N_of_digit_char d B). lia. Qed.

Lemma isdigit_not_space c : isdigit c = true -> isspace c = false.
Proof.
  unfold isdigit, isspace. intros E. apply andb_true_iff in E as [E1 E2].
  apply N.leb_le in E1, E2.
  apply orb_false_iff; split; [apply N.eqb_neq; lia|].
  apply andb_false_iff; right. apply N.leb_gt. lia.
Qed.

Lemma read_sign_digit c s : isdigit c = true -> read_sign (c :: s) = (false, c :: s).
Proof.
  unfold isdigit. intros E.
  destruct c as [[|] [|] [|] [|] [|] [|] [|] [|]]; try reflexivity;
    vm_compute in E; discriminate.
Qed.

Lemma span_app p tok rest :
  Forall (fun c => p c = true) tok -> stops p rest ->
  span p (tok ++ rest) = (tok, rest).
Proof.
  intros F St. induction F as [|c tok Hc F IH]; simpl.
  - destruct rest as [|c rest]; simpl in *; auto. now rewrite St.
  - now rewrite Hc, IH.
Qed.

Lemma skipws_app ws s :
  Forall (fun c => isspace c = true) ws -> stops isspace s ->
  skipws (ws ++ s) = s.
Proof. intros F St. unfold skipws. now rewrite (span_app _ _ _ F St). Qed.

Lemma span_length p s :
  List.length (fst (span p s)) + List.length (snd (span p s)) = List.length s.
Proof.
  induction s as [|c s IH]; simpl; auto.
  destruct (p c); simpl; auto. destruct (span p s); simpl in *. lia.
Qed.

Lemma span_stops p s : stops p (snd (span p s)).
Proof.
  induction s as [|c s IH]; simpl; auto.
  destruct (p c) eqn:E; simpl; auto. now destruct (span p s).
Qed.

Lemma span_head p c s : p c = true -> fst (span p (c :: s)) <> [].
Proof. simpl. intros ->. now destruct (span p s). Qed.

Lemma digits_value_snoc ds c :
  digits_value (ds ++ [c]) = (10 * digits_value ds + digit_value c)%N.
Proof. unfold digits_value. now rewrite fold_left_app. Qed.

Lemma decimal_fuel_digits fuel n :
  Forall (fun c => isdigit c = true) (decimal_fuel fuel n).
Proof.
  revert n; induction fuel as [|fuel IH]; intros n; simpl; [constructor|].
  apply Forall_app; split.
  - destruct (n <? 10)%N; [constructor | apply IH].
  - constructor; [|constructor]. apply isdigit_digit_char.
    apply N.mod_lt. lia.
Qed.

Lemma decimal_fuel_value fuel n :
  (n < 10 ^ N.of_nat fuel)%N -> digits_value (decimal_fuel fuel n) = n.
Proof.
  revert n; induction fuel as [|fuel IH]; intros n B.
  - simpl in B. assert (n = 0%N) by lia. now subst.
  - cbn [decimal_fuel]. rewrite digits_value_snoc.
    rewrite digit_value_digit_char by (apply N.mod_lt; lia).
    destruct (n <? 10)%N eqn:E.
    + apply N.ltb_lt in E. rewrite N.mod_small by lia. reflexivity.
    + rewrite IH.
      * rewrite (N.div_mod n 10) at 3 by lia. reflexivity.
      * rewrite Nat2N.inj_succ, N.pow_succ_r' in B.
        apply N.Div0.div_lt_upper_bound; lia.
Qed.

Lemma decimal_fuel_nonempty fuel n : decimal_fuel (S fuel) n <> [].
Proof. simpl. intros E. apply app_eq_nil in E as [_ E]. discriminate. Qed.

Lemma decimal_value n : (n < 2 ^ 64)%N -> digits_value (decimal n) = n.
Proof. intros B. apply decimal_fuel_value. simpl. lia. Qed.

Lemma le_bytes_length w z : List.length (le_bytes w z) = w.
Proof. revert z; induction w; intros z; simpl; auto. Qed.

Lemma le_value_le_bytes w z :
  (0 <= z < 256 ^ Z.of_nat w)%Z -> le_value (le_bytes w z) = z.
Proof.
  revert z; induction w as [|w IH]; intros z B.
  - simpl in *. lia.
  - cbn [le_bytes le_value]. rewrite N_ascii_embedding.
    + rewrite Z2N.id by (apply Z.mod_pos_bound; lia).
      rewrite IH; [rewrite (Z.div_mod z 256) at 3 by lia; lia|].
      rewrite Nat2Z.inj_succ, Z.pow_succ_r in B by lia.
      split; [apply Z.div_pos; lia | apply Z.div_lt_upper_bound; lia].
    + pose proof (Z.mod_pos_bound z 256 ltac:(lia)). lia.
Qed.

End Characters.

(** ** Streams *)

Section Streams.

Lemma read_chars_app bs rest :
  read_chars (List.length bs) (mkIn (bs ++ rest) false)
  = (Some bs, mkIn rest false).
Proof.
  unfold read_chars. cbn [failbit buffer].
  replace (List.length bs <=? List.length (bs ++ rest))%nat with true.
  - rewrite firstn_app, Nat.sub_diag, firstn_all. simpl. rewrite app_nil_r.
    rewrite skipn_app, Nat.sub_diag, skipn_all. reflexivity.
  - symmetry. apply Nat.leb_le. rewrite length_app. lia.
Qed.

Lemma read_chars_short n s :
  (List.length s < n)%nat -> fst (read_chars n (from_chars s)) = None.
Proof.
  intros B. unfold read_chars, from_chars. cbn [failbit buffer].
  replace (n <=? List.length s)%nat with false; auto.
  symmetry. apply Nat.leb_gt. lia.
Qed.

(** A numeral that fits is extracted as written. *)
Lemma extract_size_t_decimal ws n rest :
  Forall (fun c => isspace c = true) ws -> (0 <= n <= SizeT.max)%Z ->
  stops isdigit rest ->
  extract_size_t (from_chars (ws ++ decimal (Z.to_N n) ++ rest))
  = (Some n, mkIn rest false).
Proof.
  intros W B St. unfold extract_size_t, sentry, from_chars. cbn [failbit buffer].
  pose proof (decimal_fuel_digits 20 (Z.to_N n)) as D.
  pose proof (@decimal_fuel_nonempty 19 (Z.to_N n)) as N.
  fold (decimal (Z.to_N n)) in D, N.
  destruct (decimal (Z.to_N n)) as [|c ds] eqn:E; [congruence|].
  assert (Dc : isdigit c = true) by now inversion D.
  rewrite skipws_app; auto; [|simpl; now apply isdigit_not_space].
  cbn [app]. unfold num_get_unsigned. rewrite (read_sign_digit _ _ Dc).
  change (c :: ds ++ rest) with ((c :: ds) ++ rest).
  rewrite (span_app _ _ _ D St).
  rewrite <- E, decimal_value.
  - rewrite Z2N.id by lia.
    replace (SizeT.max <? n)%Z with false by (symmetry; apply Z.ltb_ge; lia).
    reflexivity.
  - unfold SizeT.max, SizeT.modulus in B.
    change (2 ^ 64)%N with (Z.to_N (2 ^ 64)). apply Z2N.inj_lt; lia.
Qed.

End Streams.

Section CodecFacts.
Context {T : Type} `{TextIO T} `{TriviallyCopyable T}.
Implicit Types (n : Node T) (p : option (Node T)) (v : T) (i : istream)
  (rest ws : list ascii).

Lemma all_data_node (P : T -> Prop) d (l r : option (Node T)) :
  all_data P (Some (mkNode d l r)) -> P d /\ all_data P l /\ all_data P r.
Proof.
  intros A. repeat split.
  - exact (A [] _ eq_refl).
  - intros a n E. exact (A (LeftSlot :: a) n E).
  - intros a n E. exact (A (RightSlot :: a) n E).
Qed.

Lemma serializeNode_eq n :
  serializeNode n =
  put (data n) ++ space ++ serializeHelper (left n) ++ serializeHelper (right n).
Proof. now destruct n. Qed.

Lemma serializeBinaryNode_eq n :
  serializeBinaryNode n =
  bool_byte false ++ object_bytes (data n) ++
  serializeBinaryHelper (left n) ++ serializeBinaryHelper (right n).
Proof. now destruct n. Qed.

Lemma sentry_good s c s' :
  skipws s = c :: s' -> sentry (mkIn s false) = Some (c :: s').
Proof. unfold sentry. cbn [failbit buffer]. now intros ->. Qed.

Lemma extract_token_tok ws tok rest :
  Forall (fun c => isspace c = true) ws ->
  tok <> [] -> Forall (fun c => isspace c = false) tok ->
  extract_token (mkIn (ws ++ tok ++ space ++ rest) false)
  = (Some tok, mkIn (space ++ rest) false).
Proof.
  intros W N F. unfold extract_token.
  destruct tok as [|c tok]; [congruence|].
  assert (Sk : skipws (ws ++ (c :: tok) ++ space ++ rest)
               = (c :: tok) ++ space ++ rest).
  { apply skipws_app; auto. simpl. now inversion F. }
  cbn [app] in Sk |- *. rewrite (sentry_good _ _ _ Sk).
  change (c :: tok ++ space ++ rest) with ((c :: tok) ++ space ++ rest).
  rewrite span_app; auto.
  - eapply Forall_impl; [|exact F]. simpl. now intros a ->.
  - reflexivity.
Qed.

Lemma null_token_chars :
  null_token <> [] /\ Forall (fun c => isspace c = false) null_token.
Proof. split; [discriminate | repeat constructor]. Qed.

Lemma deserializeHelper_null fuel ws rest :
  Forall (fun c => isspace c = true) ws ->
  deserializeHelper (T := T) (S fuel)
    (mkIn (ws ++ (null_token ++ space) ++ rest) false)
  = Some (None, mkIn (space ++ rest) false).
Proof.
  intros W. cbn [deserializeHelper]. rewrite <- app_assoc.
  destruct null_token_chars as [N F].
  rewrite (extract_token_tok ws null_token rest W N F).
  reflexivity.
Qed.

Lemma deserializeHelper_serializeNode n :
  all_data text_ok (Some n) ->
  forall fuel ws rest,
    countNode n < fuel -> Forall (fun c => isspace c = true) ws ->
    deserializeHelper fuel (mkIn (ws ++ serializeNode n ++ rest) false)
    = Some (Some n, mkIn (space ++ rest) false).
Proof.
  induction n as [d l r IHl IHr] using Node_induction.
  intros A fuel ws rest C W.
  destruct (all_data_node _ _ _ _ A) as ((Pn & Ps & Pnull & Pg) & Al & Ar).
  destruct fuel as [|fuel]; [lia|].
  rewrite countNode_eq in C. cbn [data left right] in C.
  assert (Sp : Forall (fun c => isspace c = true) space) by repeat constructor.
  assert (Hl : forall rest',
             deserializeHelper fuel (mkIn (space ++ serializeHelper l ++ rest') false)
             = Some (l, mkIn (space ++ rest') false)).
  { intros rest'. destruct l as [x|]; cbn [opt_all serializeHelper count] in *.
    - apply IHl; auto. lia.
    - destruct fuel; [lia|]. now apply deserializeHelper_null. }
  assert (Hr : forall rest',
             deserializeHelper fuel (mkIn (space ++ serializeHelper r ++ rest') false)
             = Some (r, mkIn (space ++ rest') false)).
  { intros rest'. destruct r as [x|]; cbn [opt_all serializeHelper count] in *.
    - apply IHr; auto. lia.
    - destruct fuel; [lia|]. now apply deserializeHelper_null. }
  rewrite serializeNode_eq. cbn [data left right deserializeHelper].
  rewrite <- !app_assoc.
  rewrite (extract_token_tok ws (put d) _ W Pn Ps).
  replace (chars_eqb (put d) null_token) with false.
  - rewrite Hl, Hr, Pg. reflexivity.
  - symmetry. destruct (chars_eqb (put d) null_token) eqn:E; auto.
    apply chars_eqb_eq in E. contradiction.
Qed.

Lemma deserializeHelper_serializeHelper p fuel ws rest :
  all_data text_ok p -> count p < fuel ->
  Forall (fun c => isspace c = true) ws ->
  deserializeHelper fuel (mkIn (ws ++ serializeHelper p ++ rest) false)
  = Some (p, mkIn (space ++ rest) false).
Proof.
  intros A C W. destruct p as [n|]; simpl.
  - now apply deserializeHelper_serializeNode.
  - destruct fuel; [simpl in C; lia|]. now apply deserializeHelper_null.
Qed.

Lemma serializeNode_length n : countNode n <= List.length (serializeNode n).
Proof.
  induction n as [d l r IHl IHr] using Node_induction.
  cbn [serializeNode countNode]. rewrite !length_app. cbn [space chars list_ascii_of_string List.length].
  destruct l, r; simpl in IHl, IHr; rewrite ?length_app; simpl; lia.
Qed.

Lemma serializeHelper_length p : count p <= List.length (serializeHelper p).
Proof. destruct p; simpl; [apply serializeNode_length | lia]. Qed.

(** The text decoder always returns. *)
Lemma deserializeHelper_total fuel i :
  List.length (buffer i) < fuel ->
  exists p i', deserializeHelper fuel i = Some (p, i') /\
               List.length (buffer i') <= List.length (buffer i).
Proof.
  revert i; induction fuel as [|fuel IH]; intros i B; [lia|].
  cbn [deserializeHelper]. unfold extract_token, sentry.
  destruct (failbit i) eqn:Fb.
  { eexists _, _. split; [reflexivity|]. unfold sentry_failed. now rewrite Fb. }
  pose proof (span_length isspace (buffer i)) as Lw.
  pose proof (span_stops isspace (buffer i)) as Sw.
  fold (skipws (buffer i)) in Lw, Sw.
  destruct (skipws (buffer i)) as [|c s] eqn:Sk.
  { eexists _, _. split; [reflexivity|]. unfold sentry_failed. rewrite Fb. simpl. lia. }
  simpl in Sw.
  pose proof (span_length (fun c => negb (isspace c)) (c :: s)) as Lt.
  pose proof (span_head (fun c => negb (isspace c)) c s) as Ht.
  destruct (span (fun c => negb (isspace c)) (c :: s)) as [tok rest] eqn:Sp.
  cbn [fst snd] in Lt, Ht.
  assert (Nt : tok <> []) by (apply Ht; now rewrite Sw).
  assert (Lr : List.length rest < List.length (buffer i)).
  { destruct tok; [congruence|]. simpl in Lt. simpl List.length in Lw. lia. }
  destruct (chars_eqb tok null_token).
  { eexists _, _. split; [reflexivity|]. simpl. lia. }
  destruct (IH (mkIn rest false)) as (l & i2 & E2 & L2); [simpl; lia|].
  rewrite E2. simpl in L2.
  destruct (IH i2) as (r & i3 & E3 & L3); [lia|].
  rewrite E3. eexists _, _. split; [reflexivity|]. lia.
Qed.

(** *** Binary *)

Lemma read_byte c rest :
  read_chars 1 (mkIn (c :: rest) false) = (Some [c], mkIn rest false).
Proof. exact (read_chars_app [c] rest). Qed.

Lemma read_bool_byte b rest :
  read_bool (mkIn (bool_byte b ++ rest) false) = (Some b, mkIn rest false).
Proof. unfold read_bool, bool_byte. cbn [app]. rewrite read_byte. now destruct b. Qed.

Lemma deserializeBinaryHelper_null fuel rest :
  deserializeBinaryHelper (T := T) (S fuel) (mkIn (bool_byte true ++ rest) false)
  = Returns (None, mkIn rest false).
Proof. reflexivity. Qed.

Lemma deserializeBinaryHelper_serializeNode n :
  all_data binary_ok (Some n) ->
  forall fuel rest,
    countNode n < fuel ->
    deserializeBinaryHelper fuel (mkIn (serializeBinaryNode n ++ rest) false)
    = Returns (Some n, mkIn rest false).
Proof.
  induction n as [d l r IHl IHr] using Node_induction.
  intros A fuel rest C.
  destruct (all_data_node _ _ _ _ A) as ((Pl & Pc) & Al & Ar).
  destruct fuel as [|fuel]; [lia|].
  rewrite countNode_eq in C. cbn [data left right] in C.
  assert (Hl : forall rest',
             deserializeBinaryHelper fuel
               (mkIn (serializeBinaryHelper l ++ rest') false)
             = Returns (l, mkIn rest' false)).
  { intros rest'. destruct l as [x|]; cbn [opt_all serializeBinaryHelper count] in *.
    - apply IHl; auto. lia.
    - destruct fuel; [lia|]. reflexivity. }
  assert (Hr : forall rest',
             deserializeBinaryHelper fuel
               (mkIn (serializeBinaryHelper r ++ rest') false)
             = Returns (r, mkIn rest' false)).
  { intros rest'. destruct r as [x|]; cbn [opt_all serializeBinaryHelper count] in *.
    - apply IHr; auto. lia.
    - destruct fuel; [lia|]. reflexivity. }
  rewrite serializeBinaryNode_eq. cbn [data left right deserializeBinaryHelper].
  rewrite <- !app_assoc, read_bool_byte.
  rewrite <- Pl, read_chars_app, Hl, Hr, Pc. reflexivity.
Qed.

Lemma deserializeBinaryHelper_serializeHelper p fuel rest :
  all_data binary_ok p -> count p < fuel ->
  deserializeBinaryHelper fuel (mkIn (serializeBinaryHelper p ++ rest) false)
  = Returns (p, mkIn rest false).
Proof.
  intros A C. destruct p as [n|]; simpl.
  - now apply deserializeBinaryHelper_serializeNode.
  - destruct fuel; [simpl in C; lia|]. reflexivity.
Qed.

Lemma serializeBinaryNode_length n :
  countNode n <= List.length (serializeBinaryNode n).
Proof.
  induction n as [d l r IHl IHr] using Node_induction.
  cbn [serializeBinaryNode countNode]. rewrite !length_app.
  destruct l, r; simpl in IHl, IHr |- *; lia.
Qed.

Lemma serializeBinaryHelper_length p :
  count p <= List.length (serializeBinaryHelper p).
Proof. destruct p; simpl; [apply serializeBinaryNode_length | lia]. Qed.

End CodecFacts.

Section CodecClaims.
Context {T : Type} `{EqOp T} `{TextIO T} `{TriviallyCopyable T}.
Implicit Types (t : FullBinaryTree T) (s rest ws : list ascii).

Lemma tree_eta t : mkTree (root t) (size t) = t.
Proof. now destruct t. Qed.

Lemma deserializeBinary_serializeBinary t t0 :
  SizeT.in_range (size t) -> all_data binary_ok (root t) ->
  deserializeBinary (from_chars (serializeBinary t)) t0 = Returns t.
Proof.
  intros R A. unfold deserializeBinary, serializeBinary, from_chars.
  pose proof (read_chars_app (le_bytes 8 (size t))
                (serializeBinaryHelper (root t))) as Rd.
  rewrite le_bytes_length in Rd. rewrite Rd. cbn [buffer].
  rewrite <- (app_nil_r (serializeBinaryHelper (root t))) at 2.
  rewrite deserializeBinaryHelper_serializeHelper; auto.
  - cbn [size]. rewrite le_value_le_bytes; [now rewrite tree_eta|].
    unfold SizeT.in_range, SizeT.modulus in R.
    change (256 ^ Z.of_nat 8)%Z with (2 ^ 64)%Z. exact R.
  - pose proof (serializeBinaryHelper_length (root t)). lia.
Qed.

Lemma deserializeText_serializeText t t0 :
  SizeT.in_range (size t) -> all_data text_ok (root t) ->
  deserializeText (from_chars (serializeText t)) t0 = Returns t.
Proof.
  intros R A. unfold deserializeText, serializeText.
  pose proof (extract_size_t_decimal [] (size t)
                (endl ++ serializeHelper (root t) ++ endl)) as Ex.
  cbn [app] in Ex. rewrite Ex; clear Ex.
  - cbn [buffer].
    rewrite (deserializeHelper_serializeHelper (root t) _ endl endl); auto.
    + cbn [size]. now rewrite tree_eta.
    + pose proof (serializeHelper_length (root t)).
      rewrite !length_app. lia.
    + repeat constructor.
  - constructor.
  - unfold SizeT.in_range, SizeT.max in *. lia.
  - reflexivity.
Qed.

(** C2. For a tree that passes the shape check, decoding what was encoded
    gives back the same root and size, hence a tree that passes the shape
    check and answers every [find] alike; this holds for the binary codec
    when the stored values are trivially copyable, and for the text codec
    when they print as single tokens that read back. *)
Theorem serialize_round_trip t t0 :
  isFullBinaryTree t = true ->
  SizeT.in_range (size t) ->
  (all_data binary_ok (root t) ->
   exists t',
     deserializeBinary (from_chars (serializeBinary t)) t0 = Returns t' /\
     root t' = root t /\
     getSize t' = getSize t /\
     isFullBinaryTree t' = true /\
     forall v, find v t' = find v t) /\
  (all_data text_ok (root t) ->
   exists t',
     deserializeText (from_chars (serializeText t)) t0 = Returns t' /\
     root t' = root t /\
     getSize t' = getSize t /\
     isFullBinaryTree t' = true /\
     forall v, find v t' = find v t).
Proof.
  intros F R. split; intros A; exists t; repeat split; auto.
  - now apply deserializeBinary_serializeBinary.
  - now apply deserializeText_serializeText.
Qed.

Lemma deserializeText_total s t0 :
  skipws s <> [] ->
  exists v i1 r i2,
    extract_size_t (from_chars s) = (Some v, i1) /\
    deserializeHelper (S (List.length (buffer i1))) i1 = Some (r, i2) /\
    deserializeText (from_chars s) t0 = Returns (mkTree r v).
Proof.
  intros N. unfold deserializeText.
  unfold extract_size_t, sentry, from_chars. cbn [failbit buffer].
  destruct (skipws s) as [|c s'] eqn:Sk; [congruence|].
  destruct (num_get_unsigned SizeT.max (c :: s')) as [[v ok] rest].
  destruct (deserializeHelper_total (T := T) (S (List.length rest))
              (mkIn rest (negb ok))) as (r & i2 & E & _); [simpl; lia|].
  exists v, (mkIn rest (negb ok)), r, i2. cbn [buffer]. rewrite E. auto.
Qed.

(** C10. When the stream starts with blanks followed by a decimal numeral
    [n] that fits [size_t], [deserializeText] returns a tree whose
    [getSize] is [n], whatever follows the numeral; more generally the
    size is whatever [in >> new_size] stores, and nothing compares it with
    the nodes decoded: the stream [7 null] is accepted with size 7
    although no node is decoded. *)
Theorem text_size_is_header ws n rest t0 :
  Forall (fun c => isspace c = true) ws ->
  (0 <= n <= SizeT.max)%Z ->
  stops isdigit rest ->
  (exists t',
     deserializeText (from_chars (ws ++ decimal (Z.to_N n) ++ rest)) t0
       = Returns t' /\
     getSize t' = n) /\
  (forall s v i1,
     extract_size_t (from_chars s) = (Some v, i1) ->
     exists t',
       deserializeText (from_chars s) t0 = Returns t' /\ getSize t' = v) /\
  (exists t',
     deserializeText (from_chars (chars "7 null")) t0 = Returns t' /\
     getSize t' = 7%Z /\ count (root t') = 0).
Proof.
  intros W B St.
  assert (G : forall s v i1,
             extract_size_t (from_chars s) = (Some v, i1) ->
             exists t',
               deserializeText (from_chars s) t0 = Returns t' /\
               getSize t' = v).
  { intros s v i1 Ex. unfold deserializeText. rewrite Ex.
    destruct (deserializeHelper_total (T := T) (S (List.length (buffer i1))) i1)
      as (r & i2 & E & _); [lia|].
    rewrite E. eexists. split; reflexivity. }
  split; [|split].
  - exact (G _ _ _ (extract_size_t_decimal ws n rest W B St)).
  - exact G.
  - eexists. repeat split.
Qed.

Lemma deserializeHelper_failed fuel b :
  deserializeHelper (T := T) (S fuel) (mkIn b true) = Some (None, mkIn b true).
Proof. reflexivity. Qed.

(** C4, amended. Neither decoder signals a failure. [deserializeText]
    returns normally for every stream that holds a non-blank character,
    and what the target held before does not matter; a stream that is
    exhausted where a token is expected yields an absent child; when the
    header does not start with a number the target is left cleared, with
    size 0 and no nodes. [deserializeBinary] on a stream shorter than the
    8-byte header reads an indeterminate size. *)
Theorem decoders_signal_no_failure :
  (forall s t0, skipws s <> [] ->
     exists t',
       deserializeText (from_chars s) t0 = Returns t' /\
       deserializeText (from_chars s) empty = Returns t' /\
       (header_has_no_number s -> t' = empty)) /\
  (forall fuel s, skipws s = [] ->
     deserializeHelper (T := T) (S fuel) (from_chars s)
       = Some (None, mkIn [] true)) /\
  (forall s t0, List.length s < 8 ->
     deserializeBinary (from_chars s) t0 = Undefined).
Proof.
  split; [|split].
  - intros s t0 N.
    destruct (deserializeText_total s t0 N) as (v & i1 & r & i2 & Ex & Eh & Et).
    destruct (deserializeText_total s empty N) as (v' & i1' & r' & i2' & Ex' & Eh' & Et').
    rewrite Ex in Ex'. injection Ex' as <- <-.
    rewrite Eh in Eh'. injection Eh' as <- <-.
    exists (mkTree r v). repeat split; auto.
    intros Hn. unfold header_has_no_number in Hn.
    unfold extract_size_t, sentry, from_chars in Ex. cbn [failbit buffer] in Ex.
    destruct (skipws s) as [|c s'] eqn:Sk; [congruence|].
    unfold num_get_unsigned in Ex.
    destruct (read_sign (c :: s')) as [neg s1]. cbn [snd] in Hn.
    destruct (span isdigit s1) as [ds rest]. cbn [fst] in Hn. subst ds.
    injection Ex as <- <-. cbn [negb buffer] in Eh.
    rewrite deserializeHelper_failed in Eh. now injection Eh as <- <-.
  - intros fuel s Sk. cbn [deserializeHelper].
    unfold extract_token, sentry, from_chars. cbn [failbit buffer].
    now rewrite Sk.
  - intros s t0 B. unfold deserializeBinary.
    pose proof (read_chars_short 8 s B) as Rd.
    destruct (read_chars 8 (from_chars s)) as [[bs|] i1]; [discriminate|].
    reflexivity.
Qed.

End CodecClaims.

Section ConcreteCodecs.
Import Sample.
Open Scope Z_scope.

Ltac each_node a n E :=
  repeat (destruct a as [|[|] a]; simpl in E;
          try (rewrite node_at_None in E); try discriminate;
          try (injection E as <-)).

Lemma t3_binary_ok : all_data binary_ok (root t3).
Proof.
  intros a n E. each_node a n E; split; reflexivity.
Qed.

Lemma t3_text_ok : all_data text_ok (root t3).
Proof.
  intros a n E.
  each_node a n E; (split; [discriminate | split; [repeat constructor | split; [discriminate | reflexivity]]]).
Qed.

Lemma serialize_round_trip_witness :
  isFullBinaryTree t3 = true /\
  SizeT.in_range (size t3) /\
  all_data binary_ok (root t3) /\
  all_data text_ok (root t3) /\
  (exists t',
     deserializeBinary (from_chars (serializeBinary t3)) empty = Returns t' /\
     root t' = root t3 /\ getSize t' = 5 /\ isFullBinaryTree t' = true /\
     forall v, find v t' = find v t3) /\
  (exists t',
     deserializeText (from_chars (serializeText t3)) empty = Returns t' /\
     root t' = root t3 /\ getSize t' = 5 /\ isFullBinaryTree t' = true /\
     forall v, find v t' = find v t3).
Proof.
  assert (R : SizeT.in_range (size t3)) by (split; vm_compute; congruence).
  destruct (serialize_round_trip t3 empty eq_refl R) as [B X].
  split; [reflexivity | split; [exact R|]].
  split; [exact t3_binary_ok | split; [exact t3_text_ok|]].
  split; [exact (B t3_binary_ok) | exact (X t3_text_ok)].
Defined.

Lemma text_size_is_header_witness :
  Forall (fun c => isspace c = true) (chars " ") /\
  0 <= 7 <= SizeT.max /\
  stops isdigit (chars " 10 null null") /\
  exists t' : FullBinaryTree Z,
    deserializeText (from_chars (chars " " ++ decimal 7 ++ chars " 10 null null"))
                    empty = Returns t' /\
    getSize t' = 7.
Proof.
  assert (W : Forall (fun c => isspace c = true) (chars " "))
    by repeat constructor.
  assert (B : 0 <= 7 <= SizeT.max) by (split; vm_compute; congruence).
  assert (St : stops isdigit (chars " 10 null null")) by reflexivity.
  split; [exact W | split; [exact B | split; [exact St|]]].
  exact (proj1 (text_size_is_header (T := Z) (chars " ") 7
                  (chars " 10 null null") empty W B St)).
Defined.

(** C4, counterexample. The text encoding of [t3] cut after its first
    [null] token is a truncated stream. [deserializeText] returns on it,
    and the target is not cleared: it holds three nodes, one of them with
    a single child, and size 5. *)
Lemma truncated_text_stream_is_decoded :
  firstn 15 (serializeText t3) = chars "5" ++ endl ++ chars "10 20 30 null" /\
  (15 < List.length (serializeText t3))%nat /\
  deserializeText (from_chars (firstn 15 (serializeText t3))) empty
  = Returns (mkTree (node 10 (node 20 (leaf 30) None) None) 5) /\
  mkTree (node 10 (node 20 (leaf 30) None) None) 5 <> empty /\
  isFullBinaryTree (mkTree (node 10 (node 20 (leaf 30) None) None) 5) = false.
Proof.
  split; [reflexivity | split; [vm_compute; lia | split; [reflexivity|]]].
  split; [discriminate | reflexivity].
Qed.

Lemma decoders_signal_no_failure_witness :
  skipws (chars "abc 10 null") <> [] /\
  header_has_no_number (chars "abc 10 null") /\
  deserializeText (from_chars (chars "abc 10 null")) t3 = Returns empty.
Proof.
  assert (N : skipws (chars "abc 10 null") <> []) by discriminate.
  assert (Hn : header_has_no_number (chars "abc 10 null")) by reflexivity.
  split; [exact N | split; [exact Hn|]].
  destruct (decoders_signal_no_failure (T := Z)) as [D _].
  destruct (D (chars "abc 10 null") t3 N) as (t' & E & _ & C).
  rewrite E. f_equal. exact (C Hn).
Defined.

End ConcreteCodecs.

(** ** The operations always return, and keep the shape *)

Section Shape.
Context {T : Type} `{EqOp T}.
Implicit Types (n m : Node T) (p r : option (Node T)) (a b : Addr) (c : Ptr T)
  (q l : list (Ptr T)) (t : FullBinaryTree T) (value : T).

Lemma insert_total value t : exists t', insert value t = Some t'.
Proof.
  destruct (root t) as [r0|] eqn:R.
  - destruct (insert_nonempty value t) as (l & c & _ & _ & E); eauto.
    rewrite R. discriminate.
  - unfold insert. rewrite R. eauto.
Qed.

Lemma remove_total value t : exists t' deleted, remove value t = Some (t', deleted).
Proof.
  destruct (level_order_total (root t)) as [l E].
  rewrite (remove_spec value t l E). destruct (remove_on l value t). eauto.
Qed.

Lemma find_total value t : exists found : bool, find value t = Some found.
Proof.
  destruct (level_order_total (root t)) as [l E].
  rewrite (find_spec value t l E). eauto.
Qed.

Lemma run_total (ops : list (Op T)) t : exists t', run ops t = Some t'.
Proof.
  revert t; induction ops as [|o ops IH]; intros t; simpl; eauto.
  destruct o as [v|v|]; simpl.
  - destruct (insert_total v t) as [t' ->]. apply IH.
  - destruct (remove_total v t) as (t' & d & ->). simpl. apply IH.
  - apply IH.
Qed.

Lemma isFull_attach_pair value n :
  isFullBinaryTreeNode (attach_pair value n) = true.
Proof. reflexivity. Qed.

Lemma isFull_unlink_children n : isFullBinaryTreeNode (unlink_children n) = true.
Proof. reflexivity. Qed.

Lemma isFull_set_data d n :
  isFullBinaryTreeNode (set_data d n) = isFullBinaryTreeNode n.
Proof. now destruct n. Qed.

Lemma insert_keeps_shape value t t' :
  isFullBinaryTree t = true -> insert value t = Some t' ->
  isFullBinaryTree t' = true.
Proof.
  intros F E. destruct (root t) as [r0|] eqn:R.
  - destruct (insert_nonempty value t) as (l & c & El & Fc & Ei).
    { rewrite R. discriminate. }
    rewrite Ei in E. injection E as <-.
    destruct (first_leaf_valid _ _ _ El Fc) as [V _].
    unfold isFullBinaryTree. cbn [attach_at root].
    exact (isFull_write_at _ _ _ _ V F (isFull_attach_pair value _)).
  - unfold insert in E. rewrite R in E. now injection E as <-.
Qed.

Lemma isFull_delete_children a r :
  isFullBinaryTreeHelper r = true ->
  isFullBinaryTreeHelper (fst (delete_children a r)) = true.
Proof.
  intros F. unfold delete_children. destruct (node_at a r) as [n|] eqn:E; auto.
  exact (isFull_write_at _ _ _ _ E F (isFull_unlink_children n)).
Qed.

Lemma remove_keeps_shape value t t' deleted :
  isFullBinaryTree t = true -> remove value t = Some (t', deleted) ->
  isFullBinaryTree t' = true.
Proof.
  intros F E. destruct (level_order_total (root t)) as [l El].
  rewrite (remove_spec value t l El) in E. injection E as E.
  pose proof (level_order_valid _ _ El) as V. rewrite Forall_forall in V.
  unfold remove_on in E.
  destruct (List.find (holds value) l) as [target|] eqn:Ft;
    [|now injection E as <- _].
  apply find_some in Ft as [It _]. specialize (V _ It).
  destruct (leaf_ptr target).
  - destruct (parent_of (root t) target) as [par|]; [|now injection E as <- _].
    pose proof (isFull_delete_children (addr par) _ F) as Fd.
    destruct (delete_children (addr par) (root t)). now injection E as <- _.
  - destruct (is_internal (pointee target)); [|now injection E as <- _].
    destruct (last_leaf l) as [rightmost|]; [|now injection E as <- _].
    destruct (addr_eqb (addr rightmost) (addr target)); [now injection E as <- _|].
    assert (F1 : isFullBinaryTreeHelper
                   (write_at (addr target)
                      (set_data (data (pointee rightmost))) (root t)) = true).
    { apply (isFull_write_at _ _ _ _ V F). rewrite isFull_set_data.
      exact (isFull_node_at _ _ _ F V). }
    destruct (parent_of (root t) rightmost) as [rp|]; [|now injection E as <- _].
    pose proof (isFull_delete_children (addr rp) _ F1) as Fd.
    destruct (delete_children (addr rp) _). now injection E as <- _.
Qed.

(** Every sequence of mutations returns and keeps the shape: the part of
    the invariant that does not involve the size field. *)
Lemma run_keeps_shape (ops : list (Op T)) t t' :
  isFullBinaryTree t = true -> run ops t = Some t' ->
  isFullBinaryTree t' = true.
Proof.
  revert t; induction ops as [|o ops IH]; intros t F E; simpl in E.
  - now injection E as <-.
  - destruct (step o t) as [t1|] eqn:Es; [|discriminate].
    apply (IH t1); auto. destruct o as [v|v|]; simpl in Es.
    + exact (insert_keeps_shape _ _ _ F Es).
    + destruct (remove v t) as [[t2 d]|] eqn:Er; [|discriminate].
      injection Es as <-. exact (remove_keeps_shape _ _ _ _ F Er).
    + now injection Es as <-.
Qed.

End Shape.

(** ** [int] values and the codecs *)

Section IntCodec.
Open Scope Z_scope.

Lemma int_abs_digits z :
  Int.min <= z <= Int.max ->
  digits_value (decimal_fuel 10 (Z.to_N (Z.abs z))) = Z.to_N (Z.abs z).
Proof.
  intros R. apply decimal_fuel_value. unfold Int.min, Int.max in R.
  change (10 ^ N.of_nat 10)%N with (Z.to_N 10000000000).
  apply Z2N.inj_lt; lia.
Qed.

Lemma int_text_ok z : Int.min <= z <= Int.max -> text_ok z.
Proof.
  intros R. pose proof (int_abs_digits z R) as Dv.
  pose proof (decimal_fuel_digits 10 (Z.to_N (Z.abs z))) as Dd.
  pose proof (@decimal_fuel_nonempty 9 (Z.to_N (Z.abs z))) as Dn.
  unfold text_ok. cbn [put get int_text]. unfold Int.put, Int.get.
  set (ds := decimal_fuel 10 (Z.to_N (Z.abs z))) in *.
  destruct ds as [|c ds'] eqn:Eds; [congruence|].
  assert (Dc : isdigit c = true) by now inversion Dd.
  assert (Sp : Forall (fun c => isspace c = false) (c :: ds')).
  { eapply Forall_impl; [|exact Dd]. apply isdigit_not_space. }
  assert (Nn : forall s, c :: s <> null_token).
  { intros s E. injection E as -> _. discriminate. }
  unfold num_get_signed. destruct (z <? 0) eqn:Neg.
  - apply Z.ltb_lt in Neg. cbn [chars list_ascii_of_string app].
    repeat split; try discriminate.
    + constructor; [reflexivity | exact Sp].
    + cbn [read_sign]. rewrite <- (app_nil_r (c :: ds')).
      rewrite (span_app isdigit (c :: ds') [] Dd I), Dv.
      rewrite Z2N.id by lia. unfold Int.min, Int.max in *.
      replace (Z.abs z <=? - - 2 ^ 31) with true
        by (symmetry; apply Z.leb_le; lia).
      cbn [fst]. lia.
  - apply Z.ltb_ge in Neg. cbn [app].
    repeat split; auto; try discriminate.
    rewrite (read_sign_digit _ _ Dc). rewrite <- (app_nil_r (c :: ds')).
    rewrite (span_app isdigit (c :: ds') [] Dd I), Dv.
    rewrite Z2N.id by lia. unfold Int.min, Int.max in *.
    replace (Z.abs z <=? 2 ^ 31 - 1) with true
      by (symmetry; apply Z.leb_le; lia).
    cbn [fst]. lia.
Qed.

Lemma int_binary_ok z : Int.min <= z <= Int.max -> binary_ok z.
Proof.
  intros R. unfold binary_ok.
  cbn [sizeof object_bytes object_of_bytes int_bytes].
  unfold Int.object_bytes, Int.object_of_bytes, Int.min, Int.max in *.
  split; [apply le_bytes_length|].
  rewrite le_value_le_bytes
    by (change (256 ^ Z.of_nat 4) with (2 ^ 32); apply Z.mod_pos_bound; lia).
  destruct (Z_lt_dec z 0).
  - replace (z mod 2 ^ 32) with (z + 2 ^ 32)
      by (apply Z.mod_unique with (q := -1); lia).
    replace (z + 2 ^ 32 <? 2 ^ 31) with false
      by (symmetry; apply Z.ltb_ge; lia).
    lia.
  - rewrite Z.mod_small by lia.
    replace (z <? 2 ^ 31) with true by (symmetry; apply Z.ltb_lt; lia).
    reflexivity.
Qed.

(** Trees of [int] values meet the conditions of both codecs. *)
Lemma int_tree_codec_safe (r : option (Node Z)) :
  (forall a n, node_at a r = Some n -> Int.min <= data n <= Int.max) ->
  all_data binary_ok r /\ all_data text_ok r.
Proof.
  intros R. split; intros a n E.
  - apply int_binary_ok. eauto.
  - apply int_text_ok. eauto.
Qed.

End IntCodec.

(** ** The decoders never run out of fuel *)

Section DecoderFuel.
Context {T : Type} `{TextIO T} `{TriviallyCopyable T}.
Implicit Types (i : istream) (s : list ascii) (t : FullBinaryTree T).

Lemma read_chars_shrinks n i bs i' :
  read_chars n i = (Some bs, i') ->
  List.length bs = n /\
  List.length (buffer i') + n = List.length (buffer i).
Proof.
  unfold read_chars. destruct (failbit i); [discriminate|].
  destruct (n <=? List.length (buffer i))%nat eqn:E; [|discriminate].
  apply Nat.leb_le in E. intros [= <- <-]. cbn [buffer].
  rewrite length_firstn, length_skipn. lia.
Qed.

Lemma read_bool_shrinks i b i' :
  read_bool i = (Some b, i') ->
  List.length (buffer i') < List.length (buffer i).
Proof.
  unfold read_bool. destruct (read_chars 1 i) as [[bs|] i1] eqn:E;
    [|discriminate].
  apply read_chars_shrinks in E as [_ E].
  destruct bs as [|c [|c' bs]]; try discriminate. intros [= _ <-]. lia.
Qed.

Lemma deserializeBinaryHelper_fuel fuel i :
  List.length (buffer i) < fuel ->
  deserializeBinaryHelper (T := T) fuel i <> OutOfFuel /\
  forall r i', deserializeBinaryHelper (T := T) fuel i = Returns (r, i') ->
               List.length (buffer i') <= List.length (buffer i).
Proof.
  revert i; induction fuel as [|fuel IH]; intros i B; [lia|].
  cbn [deserializeBinaryHelper].
  destruct (read_bool i) as [[[|]|] i1] eqn:Eb.
  - apply read_bool_shrinks in Eb. split; [discriminate|].
    intros r i' [= <- <-]. lia.
  - apply read_bool_shrinks in Eb.
    destruct (read_chars sizeof i1) as [[bs|] i2] eqn:Er.
    + apply read_chars_shrinks in Er as [_ Er].
      destruct (IH i2) as [N2 L2]; [lia|].
      destruct (deserializeBinaryHelper fuel i2) as [[l i3]| |]; try congruence.
      * specialize (L2 _ _ eq_refl).
        destruct (IH i3) as [N3 L3]; [lia|].
        destruct (deserializeBinaryHelper fuel i3) as [[r i4]| |]; try congruence.
        -- specialize (L3 _ _ eq_refl). split; [discriminate|].
           intros r' i' [= <- <-]. lia.
        -- split; [discriminate | discriminate].
      * split; [discriminate | discriminate].
    + split; [discriminate | discriminate].
  - split; [discriminate | discriminate].
Qed.

Lemma deserializeBinary_fuel i t : deserializeBinary i t <> OutOfFuel.
Proof.
  unfold deserializeBinary.
  destruct (read_chars 8 i) as [[bs|] i1]; [|discriminate].
  destruct (deserializeBinaryHelper_fuel (S (List.length (buffer i1))) i1)
    as [N _]; [lia|].
  destruct (deserializeBinaryHelper (S (List.length (buffer i1))) i1)
    as [[r i2]| |]; congruence.
Qed.

(** A stream of blanks leaves [new_size] unwritten. *)
Lemma deserializeText_blank s t :
  skipws s = [] -> deserializeText (from_chars s) t = Undefined.
Proof.
  intros E. unfold deserializeText, extract_size_t, sentry, from_chars.
  cbn [failbit buffer]. now rewrite E.
Qed.

Lemma deserializeText_fuel s t : deserializeText (from_chars s) t <> OutOfFuel.
Proof.
  destruct (skipws s) as [|c s'] eqn:E.
  - rewrite (deserializeText_blank s t E). discriminate.
  - destruct (deserializeText_total s t) as (v & i1 & r & i2 & _ & _ & ->).
    + rewrite E. discriminate.
    + discriminate.
Qed.

End DecoderFuel.

(** ** Traversals visit every node once *)

Section Traversals.
Context {T : Type}.
Implicit Types (n m : Node T) (p r : option (Node T)) (a b e : Addr) (c : Ptr T)
  (q l : list (Ptr T)).

Lemma level_order_loop_length fuel q l :
  level_order_loop fuel q = Some l -> List.length l = weight q.
Proof.
  revert q l; induction fuel as [|fuel IH]; intros [|c q] l E; simpl in E;
    try discriminate; try (now injection E as <-).
  destruct (level_order_loop fuel (q ++ push_children c)) as [rest|] eqn:E';
    try discriminate.
  injection E as <-. simpl. rewrite (IH _ _ E'), weight_app.
  change (weight (c :: q)) with (countNode (pointee c) + weight q).
  rewrite (weight_push_children c). lia.
Qed.

Lemma level_order_length r l : level_order r = Some l -> List.length l = count r.
Proof.
  intros E. rewrite (level_order_loop_length _ _ _ E).
  destruct r; unfold weight, root_queue; simpl; lia.
Qed.


Lemma below_root a n : below a n (mkPtr a n).
Proof. exists []. simpl. now rewrite app_nil_r. Qed.

Lemma below_child a n s x c :
  child s n = Some x -> below (a ++ [s]) x c -> below a n c.
Proof.
  intros Ec (e & Ea & En). exists (s :: e). split.
  - now rewrite Ea, <- app_assoc.
  - simpl. now rewrite Ec.
Qed.

Lemma below_cases a n c :
  below a n c ->
  c = mkPtr a n \/
  exists s x, child s n = Some x /\ below (a ++ [s]) x c.
Proof.
  intros ([|s e] & Ea & En).
  - left. simpl in En. injection En as En. rewrite app_nil_r in Ea.
    destruct c; simpl in *; congruence.
  - right. simpl in En. destruct (child s n) as [x|] eqn:Ec.
    + exists s, x. split; auto. exists e. split; auto.
      now rewrite Ea, <- app_assoc.
    + now rewrite node_at_None in En.
Qed.

Lemma below_extends a n c : below a n c -> extends a (addr c).
Proof. intros (e & Ea & _). now exists e. Qed.

Lemma extends_snoc_apart a s s' b :
  s <> s' -> extends (a ++ [s]) b -> extends (a ++ [s']) b -> False.
Proof.
  intros N [e ->] [e' E]. rewrite <- !app_assoc in E.
  apply app_inv_head in E. simpl in E. congruence.
Qed.

Lemma extends_snoc_self a s : ~ extends (a ++ [s]) a.
Proof.
  intros [e E]. apply (f_equal (@List.length Slot)) in E.
  rewrite !length_app in E. simpl in E. lia.
Qed.

Lemma extends_trans a b e : extends a b -> extends b e -> extends a e.
Proof. intros [x ->] [y ->]. exists (x ++ y). now rewrite app_assoc. Qed.

Lemma extends_refl a : extends a a.
Proof. exists []. now rewrite app_nil_r. Qed.


Lemma valid_below r c : valid r c <-> exists n, r = Some n /\ below [] n c.
Proof.
  unfold valid, below. split.
  - intros V. destruct r as [n|]; [|now rewrite node_at_None in V].
    exists n. split; auto. exists (addr c). auto.
  - intros (n & -> & e & Ea & En). simpl in Ea. now subst e.
Qed.

Lemma ForallOrdPairs_app {A} (R : A -> A -> Prop) (l1 l2 : list A) :
  ForallOrdPairs R l1 -> ForallOrdPairs R l2 ->
  (forall x y, In x l1 -> In y l2 -> R x y) ->
  ForallOrdPairs R (l1 ++ l2).
Proof.
  induction 1 as [|x l1 Hx H1 IH]; intros H2 Hc; simpl; auto.
  constructor.
  - apply Forall_app. split; auto.
    apply Forall_forall. intros y Iy. apply Hc; simpl; auto.
  - apply IH; auto. intros; apply Hc; simpl; auto.
Qed.

Lemma In_destroyNode n : forall a c, In c (destroyNode a n) <-> below a n c.
Proof.
  induction n as [d l r IHl IHr] using Node_induction. intros a c.
  cbn [destroyNode]. rewrite !in_app_iff. split.
  - intros [I|[I|[<-|[]]]].
    + destruct l as [x|]; [|destruct I]. simpl in IHl.
      apply (below_child a _ LeftSlot x); auto. now apply IHl.
    + destruct r as [y|]; [|destruct I]. simpl in IHr.
      apply (below_child a _ RightSlot y); auto. now apply IHr.
    + apply below_root.
  - intros B. apply below_cases in B as [->|(s & x & Ec & B)].
    + right. right. now left.
    + destruct s; simpl in Ec; subst.
      * left. simpl in IHl. now apply IHl.
      * right. left. simpl in IHr. now apply IHr.
Qed.

Lemma In_inorderNode n : forall a c, In c (inorderNode a n) <-> below a n c.
Proof.
  induction n as [d l r IHl IHr] using Node_induction. intros a c.
  cbn [inorderNode]. rewrite !in_app_iff. split.
  - intros [I|[[<-|[]]|I]].
    + destruct l as [x|]; [|destruct I]. simpl in IHl.
      apply (below_child a _ LeftSlot x); auto. now apply IHl.
    + apply below_root.
    + destruct r as [y|]; [|destruct I]. simpl in IHr.
      apply (below_child a _ RightSlot y); auto. now apply IHr.
  - intros B. apply below_cases in B as [->|(s & x & Ec & B)].
    + right. left. now left.
    + destruct s; simpl in Ec; subst.
      * left. simpl in IHl. now apply IHl.
      * right. right. simpl in IHr. now apply IHr.
Qed.

Lemma length_destroyNode n : forall a, List.length (destroyNode a n) = countNode n.
Proof.
  induction n as [d l r IHl IHr] using Node_induction. intros a.
  cbn [destroyNode countNode]. rewrite !length_app. simpl.
  destruct l, r; simpl in *; rewrite ?IHl, ?IHr; lia.
Qed.

Lemma length_inorderNode n : forall a, List.length (inorderNode a n) = countNode n.
Proof.
  induction n as [d l r IHl IHr] using Node_induction. intros a.
  cbn [inorderNode countNode]. rewrite !length_app. simpl.
  destruct l, r; simpl in *; rewrite ?IHl, ?IHr; lia.
Qed.

Lemma below_apart a s s' x y c :
  s <> s' -> below (a ++ [s]) x c -> below (a ++ [s']) y c -> False.
Proof.
  intros N B B'. apply below_extends in B, B'.
  exact (extends_snoc_apart _ _ _ _ N B B').
Qed.

Lemma below_not_parent a s x n : ~ below (a ++ [s]) x (mkPtr a n).
Proof. intros B. apply below_extends in B. exact (extends_snoc_self _ _ B). Qed.

Lemma children_first_destroyNode n : forall a, children_first (destroyNode a n).
Proof.
  induction n as [d l r IHl IHr] using Node_induction. intros a.
  cbn [destroyNode]. unfold children_first in *.
  apply ForallOrdPairs_app; [|apply ForallOrdPairs_app|].
  - destruct l; simpl in *; [apply IHl | constructor].
  - destruct r; simpl in *; [apply IHr | constructor].
  - repeat constructor.
  - intros x y Ix [<-|[]] E. cbn [addr] in E.
    destruct r as [z|]; [|destruct Ix]. apply In_destroyNode in Ix.
    apply below_extends in Ix.
    exact (extends_snoc_self _ _ (extends_trans _ _ _ Ix E)).
  - intros x y Ix Iy E. destruct l as [z|]; [|destruct Ix].
    apply In_destroyNode, below_extends in Ix.
    pose proof (extends_trans _ _ _ Ix E) as Exy.
    apply in_app_iff in Iy as [Iy|[<-|[]]].
    + destruct r as [w|]; [|destruct Iy].
      apply In_destroyNode, below_extends in Iy.
      apply (extends_snoc_apart a LeftSlot RightSlot (addr y)); auto. discriminate.
    + exact (extends_snoc_self _ _ Exy).
Qed.

Lemma NoDup_destroyNode n : forall a, NoDup (destroyNode a n).
Proof.
  induction n as [d l r IHl IHr] using Node_induction. intros a.
  cbn [destroyNode]. apply NoDup_app; [|apply NoDup_app|].
  - destruct l; simpl in *; [apply IHl | constructor].
  - destruct r; simpl in *; [apply IHr | constructor].
  - repeat constructor. intros [].
  - intros x Ix [<-|[]]. destruct r as [z|]; [|destruct Ix].
    apply In_destroyNode in Ix. exact (below_not_parent _ _ _ _ Ix).
  - intros x Ix Iy. destruct l as [z|]; [|destruct Ix].
    apply In_destroyNode in Ix.
    apply in_app_iff in Iy as [Iy|[<-|[]]].
    + destruct r as [w|]; [|destruct Iy]. apply In_destroyNode in Iy.
      apply (below_apart a LeftSlot RightSlot z w x); auto. discriminate.
    + exact (below_not_parent _ _ _ _ Ix).
Qed.

Lemma NoDup_inorderNode n : forall a, NoDup (inorderNode a n).
Proof.
  induction n as [d l r IHl IHr] using Node_induction. intros a.
  cbn [inorderNode]. apply NoDup_app; [|apply NoDup_app|].
  - destruct l; simpl in *; [apply IHl | constructor].
  - repeat constructor. intros [].
  - destruct r; simpl in *; [apply IHr | constructor].
  - intros x [<-|[]] Ix. destruct r as [z|]; [|destruct Ix].
    apply In_inorderNode in Ix. exact (below_not_parent _ _ _ _ Ix).
  - intros x Ix Iy. destruct l as [z|]; [|destruct Ix].
    apply In_inorderNode in Ix.
    apply in_app_iff in Iy as [[<-|[]]|Iy].
    + exact (below_not_parent _ _ _ _ Ix).
    + destruct r as [w|]; [|destruct Iy]. apply In_inorderNode in Iy.
      apply (below_apart a LeftSlot RightSlot z w x); auto. discriminate.
Qed.

Lemma level_order_In r l c : level_order r = Some l -> (In c l <-> valid r c).
Proof.
  intros E. split.
  - pose proof (level_order_valid _ _ E) as V. rewrite Forall_forall in V. apply V.
  - intros V. rewrite <- (ptr_eta c). exact (level_order_complete _ _ _ _ E V).
Qed.

Lemma inorder_In r c : In c (inorder [] r) <-> valid r c.
Proof.
  rewrite valid_below. destruct r as [n|]; simpl.
  - rewrite In_inorderNode. split; [eauto|]. now intros (m & [= <-] & B).
  - split; [intros [] | now intros (m & [=] & _)].
Qed.

Lemma level_order_NoDup r l : level_order r = Some l -> NoDup l.
Proof.
  intros E. apply (@NoDup_incl_NoDup _ (inorder [] r)).
  - destruct r; simpl; [apply NoDup_inorderNode | constructor].
  - rewrite (level_order_length _ _ E). destruct r; simpl; auto.
    now rewrite length_inorderNode.
  - intros c I. apply (level_order_In _ _ c E). now apply inorder_In.
Qed.

Lemma level_order_inorder r l : level_order r = Some l -> Permutation l (inorder [] r).
Proof.
  intros E. apply NoDup_Permutation.
  - exact (level_order_NoDup _ _ E).
  - destruct r; simpl; [apply NoDup_inorderNode | constructor].
  - intros c. now rewrite (level_order_In _ _ c E), inorder_In.
Qed.

End Traversals.

Section ClearFacts.
Context {T : Type}.
Implicit Types (t : FullBinaryTree T) (c : Ptr T).

(** X1. [clear] (and with it the destructor) hands every node of the tree to
    [delete] exactly once, a node only after everything below it, and leaves
    the tree with a null root and size 0. *)
Theorem clear_deletes_every_node_once t :
  fst (clear t) = mkTree None 0 /\
  isEmpty (fst (clear t)) = true /\
  (forall c, In c (snd (clear t)) <-> valid (root t) c) /\
  NoDup (snd (clear t)) /\
  List.length (snd (clear t)) = count (root t) /\
  children_first (snd (clear t)).
Proof.
  unfold clear. cbn [fst snd]. split; [reflexivity | split; [reflexivity|]].
  destruct (root t) as [n|]; simpl.
  - split; [|split; [apply NoDup_destroyNode | split;
      [apply length_destroyNode | apply children_first_destroyNode]]].
    intros c. rewrite In_destroyNode, valid_below. split; [eauto|].
    now intros (m & [= <-] & B).
  - split; [|split; [constructor | split; [reflexivity | constructor]]].
    intros c. unfold valid. rewrite node_at_None. split; [intros [] | discriminate].
Qed.

End ClearFacts.

Section PrintFacts.
Context {T : Type} `{TextIO T}.
Implicit Types (t : FullBinaryTree T) (n : Node T) (q l : list (Ptr T)).

Lemma written_app l1 l2 : written (l1 ++ l2) = written l1 ++ written l2.
Proof. unfold written. now rewrite map_app, concat_app. Qed.

Lemma print_loop_spec fuel q l out :
  level_order_loop fuel q = Some l ->
  print_loop fuel q out = Some (out ++ written l).
Proof.
  revert q l out; induction fuel as [|fuel IH]; intros [|c q] l out E; simpl in E;
    try discriminate; try (injection E as <-; simpl; now rewrite app_nil_r).
  destruct (level_order_loop fuel (q ++ push_children c)) as [rest|] eqn:E';
    try discriminate.
  injection E as <-. cbn [print_loop]. rewrite (IH _ _ _ E').
  change (written (c :: rest)) with ((put (data (pointee c)) ++ space) ++ written rest).
  now rewrite <- !app_assoc.
Qed.

Lemma printInOrderNode_written n :
  forall a, printInOrderNode n = written (inorderNode a n).
Proof.
  induction n as [d l r IHl IHr] using Node_induction. intros a.
  cbn [printInOrderNode inorderNode]. rewrite !written_app.
  f_equal; [|f_equal].
  - destruct l; simpl in *; auto.
  - unfold written. simpl. now rewrite app_nil_r.
  - destruct r; simpl in *; auto.
Qed.

(** X2. [print] and [printInOrder] write every node of the tree exactly once:
    [print] in level order after its heading ([Empty tree] for a null root),
    [printInOrder] left subtree, node, right subtree; the two listings are
    permutations of each other and as long as the tree has nodes. *)
Theorem print_lists_every_node_once t :
  exists lo,
    level_order (root t) = Some lo /\
    print t = Some (match root t with
                    | None => chars "Empty tree" ++ endl
                    | Some _ => chars "Level-order traversal: " ++ written lo ++ endl
                    end) /\
    printInOrder t =
      chars "In-order traversal: " ++ written (inorder [] (root t)) ++ endl /\
    Permutation lo (inorder [] (root t)) /\
    NoDup lo /\
    List.length lo = count (root t) /\
    (forall c, In c lo <-> valid (root t) c).
Proof.
  destruct (level_order_total (root t)) as [lo E]. exists lo.
  split; [exact E | split; [|split; [|split; [|split; [|split]]]]].
  - unfold print. unfold level_order in E. destruct (root t) as [r0|].
    + cbn [count root_queue] in E.
      rewrite (print_loop_spec _ _ _ (chars "Level-order traversal: ") E).
      now rewrite <- app_assoc.
    + reflexivity.
  - unfold printInOrder. destruct (root t) as [r0|]; simpl; auto.
    now rewrite (printInOrderNode_written r0 []).
  - exact (level_order_inorder _ _ E).
  - exact (level_order_NoDup _ _ E).
  - exact (level_order_length _ _ E).
  - intros c. exact (level_order_In _ _ c E).
Qed.

End PrintFacts.

Section FindFacts.
Context {T : Type} `{EqOp T}.
Implicit Types (t : FullBinaryTree T) (n : Node T) (r : option (Node T))
  (q l : list (Ptr T)) (a : Addr) (value w : T).

Lemma found_iff r l value :
  level_order r = Some l ->
  existsb (holds value) l = true <->
  exists a n, node_at a r = Some n /\ eq_op (data n) value = true.
Proof.
  intros E. rewrite existsb_exists. split.
  - intros (c & I & Hc). exists (addr c), (pointee c). split; auto.
    now apply (level_order_In _ _ c E).
  - intros (a & n & V & Hn). exists (mkPtr a n). split; auto.
    exact (level_order_complete _ _ _ _ E V).
Qed.

(** X3. [find] answers true exactly when some node of the tree holds a value
    equal to the one sought, and false otherwise. *)
Theorem find_true_iff_some_node_holds value t :
  exists found : bool,
    find value t = Some found /\
    (found = true <->
     exists a n, node_at a (root t) = Some n /\ eq_op (data n) value = true).
Proof.
  destruct (level_order_total (root t)) as [l E].
  exists (existsb (holds value) l). split.
  - exact (find_spec value t l E).
  - exact (found_iff _ _ value E).
Qed.

Lemma node_at_data_at a r n : node_at a r = Some n -> data_at a r = Some (data n).
Proof. unfold data_at. now intros ->. Qed.

Lemma data_at_node_at a r d :
  data_at a r = Some d -> exists n, node_at a r = Some n /\ data n = d.
Proof.
  unfold data_at. destruct (node_at a r) as [n|]; [|discriminate].
  intros [= <-]. eauto.
Qed.

(** X4. After [insert value], [find w] answers true exactly when it did
    before or [value == w] holds: the inserted value is found when it is equal
    to itself, and no value of the tree is lost. *)
Theorem find_after_insert value w t t' :
  insert value t = Some t' ->
  exists before : bool,
    find w t = Some before /\
    find w t' = Some (before || eq_op value w).
Proof.
  intros Ei. destruct (level_order_total (root t)) as [l E].
  destruct (level_order_total (root t')) as [l' E'].
  exists (existsb (holds w) l). split; [exact (find_spec w t l E)|].
  rewrite (find_spec w t' l' E'). f_equal.
  apply eq_true_iff_eq. rewrite orb_true_iff, (found_iff _ _ w E), (found_iff _ _ w E').
  destruct (root t) as [r0|] eqn:R.
  - destruct (insert_nonempty value t) as (l0 & c & El & Fc & Ei').
    { rewrite R. discriminate. }
    rewrite Ei' in Ei. injection Ei as <-. cbn [root attach_at].
    rewrite R in *.
    destruct (first_leaf_valid _ _ _ El Fc) as [V L].
    split.
    + intros (a & n & En & Hn).
      pose proof (node_at_data_at _ _ _ En) as D.
      rewrite (data_at_attach value _ c a V L) in D.
      destruct (addr_eqb a (addr c ++ [LeftSlot]) || addr_eqb a (addr c ++ [RightSlot])).
      * right. injection D as ->. exact Hn.
      * left. apply data_at_node_at in D as (m & Em & Ed).
        exists a, m. rewrite Ed. auto.
    + intros [(a & n & En & Hn)|Hv].
      * pose proof (node_at_data_at _ _ _ En) as D.
        assert (data_at a (write_at (addr c) (attach_pair value) (Some r0)) =
                Some (data n)) as D'.
        { rewrite (data_at_attach value _ c a V L).
          destruct (addr_eqb a (addr c ++ [LeftSlot]) || addr_eqb a (addr c ++ [RightSlot]))
            eqn:Ea; auto.
          apply orb_true_iff in Ea as [Ea|Ea]; apply addr_eqb_eq in Ea; subst a;
            destruct (below_leaf _ _ _ _ _ V L En) as [N _]; discriminate. }
        apply data_at_node_at in D' as (m & Em & Ed).
        exists a, m. rewrite Ed. auto.
      * assert (data_at (addr c ++ [LeftSlot])
                  (write_at (addr c) (attach_pair value) (Some r0)) = Some value) as D'.
        { rewrite (data_at_attach value _ c _ V L).
          assert (addr_eqb (addr c ++ [LeftSlot]) (addr c ++ [LeftSlot]) = true) as ->
            by now apply addr_eqb_eq.
          reflexivity. }
        apply data_at_node_at in D' as (m & Em & Ed).
        exists (addr c ++ [LeftSlot]), m. rewrite Ed. auto.
  - unfold insert in Ei. rewrite R in Ei. injection Ei as <-. cbn [root].
    split.
    + intros ([|s a] & n & En & Hn).
      * right. simpl in En. injection En as <-. exact Hn.
      * simpl in En. destruct s; simpl in En; now rewrite node_at_None in En.
    + intros [(a & n & En & _)|Hv].
      * now rewrite node_at_None in En.
      * exists [], (newNode value). auto.
Qed.

End FindFacts.

Section ConcreteTraversals.
Import Sample.
Open Scope Z_scope.

Lemma find_after_insert_witness :
  insert 40 t3 =
    Some (mkTree (node 10 (node 20 (leaf 30) (leaf 30)) (node 20 (leaf 40) (leaf 40))) 7) /\
  find 40 t3 = Some false /\
  find 40 (mkTree (node 10 (node 20 (leaf 30) (leaf 30)) (node 20 (leaf 40) (leaf 40))) 7)
    = Some true.
Proof.
  split; [reflexivity|].
  destruct (find_after_insert 40 40 t3 _ eq_refl) as (b & Eb & E').
  vm_compute in Eb. injection Eb as <-. split; [reflexivity | exact E'].
Defined.

End ConcreteTraversals.

(** ** What [remove] does to the size, the nodes and the values *)

Section RemoveEffects.
Context {T : Type} `{EqOp T}.
Implicit Types (n m : Node T) (p r : option (Node T)) (a b e : Addr) (c : Ptr T)
  (q l : list (Ptr T)) (t : FullBinaryTree T) (value w : T).

Lemma write_at_absent a (f : Node T -> Node T) r :
  node_at a r = None -> write_at a f r = r.
Proof.
  revert r; induction a as [|s a IH]; intros [m|] E; simpl in *; try discriminate; auto.
  rewrite (IH _ E). now destruct s, m.
Qed.

Lemma count_write_at_set_data a d r :
  option_map countNode (write_at a (set_data d) r) = option_map countNode r.
Proof.
  destruct (node_at a r) as [n|] eqn:E.
  - pose proof (count_write_at _ (set_data d) _ _ E) as C.
    rewrite countNode_set_data in C.
    destruct (write_at_is_Some _ (set_data d) _ _ E) as [m Em].
    rewrite Em in *. destruct r as [x|]; [|now rewrite node_at_None in E].
    simpl in *. f_equal. lia.
  - now rewrite write_at_absent.
Qed.

(** Overwriting the value of a node changes the number of nodes below no
    address. *)
Lemma node_at_set_data_count b : forall a d r,
  option_map countNode (node_at b (write_at a (set_data d) r)) =
  option_map countNode (node_at b r).
Proof.
  induction b as [|s' b IH]; intros a d r.
  - apply count_write_at_set_data.
  - destruct r as [m|]; [|destruct a; reflexivity]. destruct a as [|s a].
    + cbn [write_at node_at]. now rewrite child_set_data.
    + cbn [write_at node_at]. rewrite child_set_child.
      destruct (slot_eqb s' s) eqn:Es; auto.
      apply slot_eqb_eq in Es; subst s'. apply IH.
Qed.

Lemma last_leaf_from_cases l : forall acc c,
  last_leaf_from l acc = Some c ->
  (In c l /\ leaf_ptr c = true) \/ acc = Some c.
Proof.
  unfold last_leaf_from.
  induction l as [|x l IH]; intros acc c E; simpl in E; auto.
  apply IH in E as [[I L]|E]; [left; split; auto; now right|].
  destruct (leaf_ptr x) eqn:Lx; auto.
  injection E as <-. left. split; auto. now left.
Qed.

Lemma last_leaf_from_Some l : forall c, exists c', last_leaf_from l (Some c) = Some c'.
Proof.
  unfold last_leaf_from. induction l as [|x l IH]; intros c; simpl; eauto.
  destruct (leaf_ptr x); apply IH.
Qed.

Lemma last_leaf_from_exists l : forall acc c,
  In c l -> leaf_ptr c = true -> exists c', last_leaf_from l acc = Some c'.
Proof.
  induction l as [|x l IH]; intros acc c I L; [destruct I|].
  destruct I as [->|I].
  - unfold last_leaf_from. simpl. rewrite L. apply last_leaf_from_Some.
  - unfold last_leaf_from. simpl. exact (IH _ c I L).
Qed.

Lemma valid_same_addr r c c' : valid r c -> valid r c' -> addr c = addr c' -> c = c'.
Proof.
  unfold valid. destruct c, c'; simpl. intros V V' ->. congruence.
Qed.

Lemma full_not_leaf_internal n :
  isFullBinaryTreeNode n = true -> is_leaf n = false -> is_internal n = true.
Proof.
  rewrite isFullBinaryTreeNode_eq. unfold one_child, is_leaf, is_internal.
  destruct n as [d [x|] [y|]]; simpl; auto; discriminate.
Qed.

Lemma full_parent_count n s x :
  isFullBinaryTreeNode n = true -> child s n = Some x -> 3 <= countNode n.
Proof.
  intros F E. destruct (full_node_children _ _ _ F E) as (y & z & El & Er).
  rewrite countNode_eq, El, Er. simpl.
  pose proof (countNode_pos y). pose proof (countNode_pos z). lia.
Qed.

Lemma push_children_big a n : 3 <= countNode n -> push_children (mkPtr a n) <> [].
Proof.
  intros C E. apply push_children_nil in E. simpl in E.
  apply countNode_leaf in E. lia.
Qed.

Lemma count_unlink a r n :
  node_at a r = Some n ->
  count (write_at a unlink_children r) + countNode n = count r + 1.
Proof. intros E. exact (count_write_at _ unlink_children _ _ E). Qed.

(** The effect of [remove] on a consistent tree, read off its level order. *)
Lemma remove_on_consistent value t l :
  level_order (root t) = Some l -> consistent t ->
  consistent (fst (remove_on l value t)) /\
  (size (fst (remove_on l value t)) <= size t)%Z /\
  count (root (fst (remove_on l value t))) <= count (root t) /\
  (existsb (holds value) l = true ->
   (size (fst (remove_on l value t)) < size t)%Z /\
   count (root (fst (remove_on l value t))) < count (root t) /\
   snd (remove_on l value t) <> []).
Proof.
  intros El (F & [Cl Cu] & Z0).
  pose proof (level_order_valid _ _ El) as V. rewrite Forall_forall in V.
  unfold remove_on.
  destruct (List.find (holds value) l) as [target|] eqn:Ft.
  2:{ cbn [fst snd]. split; [|split; [|split]]; try lia; [now repeat split|].
      intros E. apply existsb_exists in E as (c & I & Hc).
      pose proof (find_none _ _ Ft _ I). congruence. }
  apply find_some in Ft as [It Hv]. pose proof (V _ It) as Vt.
  pose proof (isFull_node_at _ _ _ F Vt) as Fn.
  destruct (leaf_ptr target) eqn:L.
  - destruct (parent_of_cases _ _ Vt) as [[Ea ->]|(par & s & -> & Vp & Ea & Ec)].
    + unfold valid in Vt. rewrite Ea in Vt. simpl in Vt.
      cbn [fst snd root size]. rewrite Vt in *. cbn [count] in *.
      pose proof (countNode_pos (pointee target)).
      unfold consistent, isFullBinaryTree. cbn [root size count root_queue].
      unfold SizeT.max, SizeT.modulus in *.
      repeat split; auto; try lia; discriminate.
    + rewrite (delete_children_at _ _ _ Vp). cbn [fst snd root size].
      pose proof (count_unlink _ _ _ Vp) as C.
      pose proof (full_parent_count _ _ _ (isFull_node_at _ _ _ F Vp) Ec) as C3.
      destruct (write_at_is_Some _ unlink_children _ _ Vp) as [m Em].
      assert (W : SizeT.wrap (size t - 2) = (size t - 2)%Z) by (apply wrap_small; lia).
      rewrite W. unfold consistent, isFullBinaryTree. cbn [root size].
      repeat split; auto; try lia.
      * exact (isFull_write_at _ _ _ _ Vp F (isFull_unlink_children _)).
      * rewrite Em. discriminate.
      * now apply push_children_big.
  - pose proof (full_not_leaf_internal _ Fn L) as Li. rewrite Li.
    destruct (level_order_loop_leaf _ _ _ El) as [c0 F0].
    { unfold valid in Vt. destruct (root t); [discriminate|].
      now rewrite node_at_None in Vt. }
    apply find_some in F0 as [I0 L0].
    destruct (last_leaf_from_exists l None c0 I0 L0) as [rightmost Er].
    unfold last_leaf. rewrite Er.
    apply last_leaf_from_cases in Er as [[Ir Lr]|?]; [|discriminate].
    pose proof (V _ Ir) as Vr.
    destruct (addr_eqb (addr rightmost) (addr target)) eqn:Ea.
    { apply addr_eqb_eq in Ea. pose proof (valid_same_addr _ _ _ Vr Vt Ea). subst.
      unfold leaf_ptr in *. congruence. }
    destruct (parent_of_cases _ _ Vr) as [[Er0 _]|(rp & s & -> & Vp & Era & Ec)].
    { unfold valid in Vr. rewrite Er0 in Vr.
      destruct (below_leaf _ [] (addr target) _ _ Vr Lr Vt) as [_ E]. subst.
      unfold leaf_ptr in *. congruence. }
    set (root1 := write_at (addr target) (set_data (data (pointee rightmost))) (root t)).
    pose proof (full_parent_count _ _ _ (isFull_node_at _ _ _ F Vp) Ec) as C3.
    pose proof (node_at_set_data_count (addr rp) (addr target)
                  (data (pointee rightmost)) (root t)) as Sh.
    fold root1 in Sh. unfold valid in Vp. rewrite Vp in Sh.
    destruct (node_at (addr rp) root1) as [n1|] eqn:E1; [|discriminate].
    simpl in Sh. injection Sh as Sh.
    rewrite (delete_children_at _ _ _ E1). cbn [fst snd root size].
    pose proof (count_unlink _ _ _ E1) as C.
    pose proof (count_write_at_set_data (addr target) (data (pointee rightmost)) (root t)) as C1.
    fold root1 in C1.
    assert (C1' : count root1 = count (root t)).
    { destruct root1, (root t); simpl in *; congruence. }
    destruct (write_at_is_Some _ unlink_children _ _ E1) as [m Em].
    assert (W : SizeT.wrap (size t - 2) = (size t - 2)%Z) by (apply wrap_small; lia).
    rewrite W. unfold consistent, isFullBinaryTree. cbn [root size].
    assert (F1 : isFullBinaryTreeHelper root1 = true).
    { apply (isFull_write_at _ _ _ _ Vt F). rewrite isFull_set_data. exact Fn. }
    repeat split; auto; try lia.
    * exact (isFull_write_at _ _ _ _ E1 F1 (isFull_unlink_children _)).
    * rewrite Em. discriminate.
    * apply push_children_big. lia.
Qed.


Lemma insert_consistent value t t' :
  consistent t -> (size t + 2 <= SizeT.max)%Z -> insert value t = Some t' ->
  consistent t' /\ (size t' <= size t + 2)%Z /\
  (size t = Z.of_nat (count (root t)) -> size t' = Z.of_nat (count (root t'))).
Proof.
  intros (F & [Cl Cu] & Z0) B Ei.
  split; [split; [exact (insert_keeps_shape _ _ _ F Ei)|]|].
  - destruct (root t) as [r0|] eqn:R.
    + destruct (insert_nonempty value t) as (l & c & El & Fc & Ei').
      { rewrite R. discriminate. }
      rewrite Ei' in Ei. injection Ei as <-.
      destruct (first_leaf_valid _ _ _ El Fc) as [V L].
      pose proof (count_write_at _ (attach_pair value) _ _ V) as C.
      rewrite (countNode_leaf _ L) in C. cbn [attach_pair countNode count newNode] in C.
      destruct (write_at_is_Some _ (attach_pair value) _ _ V) as [m Em].
      cbn [attach_at root size]. rewrite wrap_small by lia.
      rewrite R in *. split; [lia|]. rewrite Em. discriminate.
    + unfold insert in Ei. rewrite R in Ei. injection Ei as <-. cbn [root size count].
      unfold SizeT.max, SizeT.modulus. simpl. split; [lia | discriminate].
  - destruct (root t) as [r0|] eqn:R.
    + destruct (insert_nonempty value t) as (l & c & El & Fc & Ei').
      { rewrite R. discriminate. }
      rewrite Ei' in Ei. injection Ei as <-.
      destruct (first_leaf_valid _ _ _ El Fc) as [V L].
      pose proof (count_write_at _ (attach_pair value) _ _ V) as C.
      rewrite (countNode_leaf _ L) in C. cbn [attach_pair countNode count newNode] in C.
      cbn [attach_at root size]. rewrite wrap_small by lia. rewrite R in *. lia.
    + unfold insert in Ei. rewrite R in Ei. injection Ei as <-. cbn [root size count].
      rewrite (Z0 eq_refl). simpl. lia.
Qed.

Lemma empty_consistent : consistent (@empty T).
Proof.
  unfold consistent, isFullBinaryTree, empty, SizeT.max, SizeT.modulus. simpl.
  repeat split; auto; lia.
Qed.

Lemma run_consistent (ops : list (Op T)) : forall t t',
  consistent t -> (size t + 2 * Z.of_nat (List.length ops) <= SizeT.max)%Z ->
  run ops t = Some t' ->
  consistent t' /\ (size t' <= size t + 2 * Z.of_nat (List.length ops))%Z /\
  (existsb is_remove ops = false -> size t = Z.of_nat (count (root t)) ->
   size t' = Z.of_nat (count (root t'))).
Proof.
  induction ops as [|o ops IH]; intros t t' C B E.
  - simpl in E. injection E as <-. simpl. repeat split; auto; try apply C; lia.
  - cbn [run] in E. destruct (step o t) as [t1|] eqn:Es; [|discriminate].
    cbn [List.length] in B |- *.
    assert (S1 : consistent t1 /\ (size t1 <= size t + 2)%Z /\
                 (is_remove o = false -> size t = Z.of_nat (count (root t)) ->
                  size t1 = Z.of_nat (count (root t1)))).
    { destruct o as [v|v|]; cbn [step] in Es.
      - destruct (insert_consistent v t t1 C) as (C1 & B1 & Q1); auto; lia.
      - destruct (remove v t) as [[t2 d]|] eqn:Er; [|discriminate].
        simpl in Es. injection Es as ->.
        destruct (level_order_total (root t)) as [l El].
        rewrite (remove_spec v t l El) in Er. injection Er as Er.
        destruct (remove_on_consistent v t l El C) as (C1 & B1 & _).
        rewrite Er in C1, B1. cbn [fst] in C1, B1.
        split; [exact C1 | split; [lia | discriminate]].
      - injection Es as <-. cbn [clear fst size root count].
        destruct C as (_ & [Cl Cu] & _).
        split; [exact empty_consistent | split; [lia | reflexivity]]. }
    destruct S1 as (C1 & B1 & Q1).
    destruct (IH t1 t' C1) as (C' & B' & Q'); auto; try lia.
    split; [exact C' | split; [lia|]].
    cbn [existsb]. intros Ex Q. apply orb_false_iff in Ex as [Eo Ex]. auto.
Qed.

(** X5. Starting from the empty tree, after any sequence of [insert],
    [remove] and [clear] short enough for the size to fit [size_t], the tree
    passes the shape check, [getSize] is never below the number of nodes of the
    tree and never above twice the number of operations, and [isEmpty] answers
    true exactly when the root is null. When the sequence has no [remove],
    [getSize] is the number of nodes. *)
Theorem size_never_undercounts (ops : list (Op T)) :
  (2 * Z.of_nat (List.length ops) <= SizeT.max)%Z ->
  exists t,
    run ops empty = Some t /\
    isFullBinaryTree t = true /\
    (Z.of_nat (count (root t)) <= getSize t <= 2 * Z.of_nat (List.length ops))%Z /\
    (isEmpty t = true <-> root t = None) /\
    (existsb is_remove ops = false -> getSize t = Z.of_nat (count (root t))).
Proof.
  intros B. destruct (run_total ops empty) as [t E]. exists t.
  destruct (run_consistent ops empty t empty_consistent) as ((F & [Cl Cu] & Z0) & B' & Q);
    auto.
  cbn [empty size] in B'. unfold getSize, isEmpty.
  split; [exact E | split; [exact F | split; [lia | split]]].
  - rewrite Z.eqb_eq. split; auto. intros Z.
    destruct (root t) as [r0|]; auto.
    pose proof (countNode_pos r0). cbn [count] in Cl. lia.
  - intros Ex. now apply Q.
Qed.

(** X6. On a consistent tree, removing a value that [find] reports present
    lowers [getSize], lowers the number of nodes, hands at least one node to
    [delete], and leaves a consistent tree. *)
Theorem remove_present_shrinks value t :
  consistent t -> find value t = Some true ->
  exists t' deleted,
    remove value t = Some (t', deleted) /\
    (getSize t' < getSize t)%Z /\
    count (root t') < count (root t) /\
    deleted <> [] /\
    consistent t'.
Proof.
  intros C Fd. destruct (level_order_total (root t)) as [l El].
  rewrite (find_spec value t l El) in Fd. injection Fd as Fd.
  destruct (remove_on_consistent value t l El C) as (C' & _ & _ & S').
  destruct (S' Fd) as (Sz & Cn & Dn).
  rewrite (remove_spec value t l El).
  destruct (remove_on l value t) as [t' deleted]. exists t', deleted.
  cbn [fst snd] in *. unfold getSize. auto.
Qed.

Lemma data_at_unlink a b r d :
  data_at b (write_at a unlink_children r) = Some d -> data_at b r = Some d.
Proof.
  destruct (extends_dec a b) as [[e ->]|N].
  - destruct (node_at a r) as [n|] eqn:E.
    + unfold data_at. rewrite (node_at_write_at_below _ e unlink_children _ _ E).
      rewrite node_at_app, E.
      destruct e as [|s e]; simpl; auto.
      destruct s; simpl; rewrite node_at_None; discriminate.
    + now rewrite write_at_absent.
  - now rewrite data_at_write_at_outside.
Qed.

Lemma data_at_set_data a b r d x :
  data_at b (write_at a (set_data x) r) = Some d ->
  data_at b r = Some d \/ d = x.
Proof.
  destruct (extends_dec a b) as [[e ->]|N].
  - destruct (node_at a r) as [n|] eqn:E.
    + unfold data_at. rewrite (node_at_write_at_below _ e (set_data x) _ _ E).
      rewrite node_at_app, E.
      destruct e as [|s e]; simpl.
      * intros [= <-]. now right.
      * rewrite child_set_data. auto.
    + rewrite write_at_absent; auto.
  - rewrite data_at_write_at_outside; auto.
Qed.

Lemma data_at_delete_children a b r d :
  data_at b (fst (delete_children a r)) = Some d -> data_at b r = Some d.
Proof.
  unfold delete_children. destruct (node_at a r); cbn [fst]; auto.
  apply data_at_unlink.
Qed.

(** X7. [remove] brings no new value into the tree: the value of every node
    after it is the value of some node before it, so a value that [find]
    reports afterwards was reported before. *)
Theorem remove_adds_no_value value t t' deleted :
  remove value t = Some (t', deleted) ->
  (forall b d, data_at b (root t') = Some d ->
     exists a, data_at a (root t) = Some d) /\
  (forall w, find w t' = Some true -> find w t = Some true).
Proof.
  intros E.
  assert (D : forall b d, data_at b (root t') = Some d ->
                exists a, data_at a (root t) = Some d).
  { destruct (level_order_total (root t)) as [l El].
    rewrite (remove_spec value t l El) in E. injection E as E.
    pose proof (level_order_valid _ _ El) as V. rewrite Forall_forall in V.
    unfold remove_on in E.
    destruct (List.find (holds value) l) as [target|] eqn:Ft;
      [|injection E as <- _; eauto].
    destruct (leaf_ptr target).
    - destruct (parent_of (root t) target) as [par|].
      + pose proof (fun b d => data_at_delete_children (addr par) b (root t) d) as Dd.
        destruct (delete_children (addr par) (root t)) as [r' dl] eqn:Ed.
        injection E as <- _. cbn [root]. intros b d Hb. eauto.
      + injection E as <- _. cbn [root]. intros b d Hb.
        unfold data_at in Hb. now rewrite node_at_None in Hb.
    - destruct (is_internal (pointee target)); [|injection E as <- _; eauto].
      destruct (last_leaf l) as [rightmost|] eqn:Er; [|injection E as <- _; eauto].
      destruct (addr_eqb (addr rightmost) (addr target)); [injection E as <- _; eauto|].
      apply last_leaf_from_cases in Er as [[Ir _]|?]; [|discriminate].
      pose proof (V _ Ir) as Vr.
      assert (D1 : forall b d,
                data_at b (write_at (addr target)
                             (set_data (data (pointee rightmost))) (root t)) = Some d ->
                exists a, data_at a (root t) = Some d).
      { intros b d Hb. apply data_at_set_data in Hb as [Hb| ->]; eauto.
        exists (addr rightmost). unfold data_at. now rewrite Vr. }
      destruct (parent_of (root t) rightmost) as [rp|].
      + pose proof (fun b d => data_at_delete_children (addr rp) b
                      (write_at (addr target)
                         (set_data (data (pointee rightmost))) (root t)) d) as Dd.
        destruct (delete_children (addr rp) _) as [r' dl] eqn:Ed.
        injection E as <- _. cbn [root]. intros b d Hb. eauto.
      + injection E as <- _. cbn [root]. exact D1. }
  split; [exact D|].
  intros w Fw. destruct (level_order_total (root t)) as [l El].
  destruct (level_order_total (root t')) as [l' El'].
  rewrite (find_spec w t' l' El') in Fw. injection Fw as Fw.
  rewrite (find_spec w t l El). f_equal.
  apply (found_iff _ _ w El') in Fw as (b & n & En & Hn).
  destruct (D b (data n) (node_at_data_at _ _ _ En)) as [a Ha].
  apply data_at_node_at in Ha as (m & Em & Ed).
  apply (found_iff _ _ w El). exists a, m. rewrite Ed. auto.
Qed.

End RemoveEffects.

Section ConcreteEffects.
Import Sample.
Open Scope Z_scope.

Lemma t3_consistent : consistent t3.
Proof.
  split; [reflexivity | split; [split; vm_compute; discriminate | discriminate]].
Qed.

Lemma size_never_undercounts_witness :
  2 * Z.of_nat 6 <= SizeT.max /\
  exists t,
    run [OpInsert 1; OpInsert 2; OpInsert 3; OpInsert 4; OpRemove 2; OpRemove 2] empty
      = Some t /\
    Z.of_nat (count (root t)) <= getSize t <= 2 * Z.of_nat 6.
Proof.
  assert (B : 2 * Z.of_nat 6 <= SizeT.max) by (vm_compute; discriminate).
  split; [exact B|].
  destruct (size_never_undercounts
              [OpInsert 1; OpInsert 2; OpInsert 3; OpInsert 4; OpRemove 2; OpRemove 2] B)
    as (t & E & _ & C & _).
  exists t. split; [exact E | exact C].
Defined.

Lemma remove_present_shrinks_witness :
  consistent t3 /\ find 20 t3 = Some true /\
  exists t' deleted,
    remove 20 t3 = Some (t', deleted) /\ getSize t' < getSize t3.
Proof.
  assert (Fd : find 20 t3 = Some true) by reflexivity.
  split; [exact t3_consistent | split; [exact Fd|]].
  destruct (remove_present_shrinks 20 t3 t3_consistent Fd)
    as (t' & deleted & E & Sz & _).
  exists t', deleted. split; [exact E | exact Sz].
Defined.

Lemma remove_adds_no_value_witness :
  remove 20 t3 =
    Some (mkTree (node 10 (leaf 30) (leaf 20)) 3,
          ptr [LeftSlot; LeftSlot] (leaf 30) ++ ptr [LeftSlot; RightSlot] (leaf 30)) /\
  forall w, find w (mkTree (node 10 (leaf 30) (leaf 20)) 3) = Some true ->
            find w t3 = Some true.
Proof.
  split; [reflexivity|].
  exact (proj2 (remove_adds_no_value 20 t3 _ _ eq_refl)).
Defined.

End ConcreteEffects.

(** ** Copies *)

Section CopyFacts.
Context {T : Type}.
Implicit Types (t other : FullBinaryTree T) (n : Node T) (c : Ptr T).

Lemma copyNode_eq n : copyNode n = n.
Proof.
  induction n as [d l r IHl IHr] using Node_induction. cbn [copyNode].
  destruct l, r; simpl in *; congruence.
Qed.

Lemma copyTree_eq (p : option (Node T)) : copyTree p = p.
Proof. destruct p; simpl; [now rewrite copyNode_eq | reflexivity]. Qed.

(** X8. The copy constructor builds a tree with the nodes, values and size of
    its argument. Assignment [a = b] between two different objects gives [a]
    the nodes, values and size of [b], hands every node [a] had to [delete]
    exactly once, and changes no other object; self-assignment changes and
    deletes nothing. *)
Theorem copies_are_equal (objects : nat -> FullBinaryTree T) (this other : nat) :
  copy_construct (objects other) = objects other /\
  (forall k,
     fst (operator_assign objects this other) k =
     if Nat.eqb k this then objects other else objects k) /\
  (this = other -> snd (operator_assign objects this other) = []) /\
  (this <> other ->
   NoDup (snd (operator_assign objects this other)) /\
   forall c, In c (snd (operator_assign objects this other)) <->
             valid (root (objects this)) c).
Proof.
  unfold copy_construct, operator_assign. rewrite !copyTree_eq, tree_eta.
  split; [reflexivity|].
  destruct (Nat.eqb this other) eqn:E; cbn [clear fst snd].
  - apply Nat.eqb_eq in E. subst other.
    split; [|split; [reflexivity | congruence]].
    intros k. destruct (Nat.eqb k this) eqn:Ek; auto.
    apply Nat.eqb_eq in Ek. now subst.
  - apply Nat.eqb_neq in E. split; [reflexivity | split; [congruence|]].
    intros _. destruct (root (objects this)) as [n|]; simpl.
    + split; [apply NoDup_destroyNode|].
      intros c. rewrite In_destroyNode, valid_below. split; [eauto|].
      now intros (m & [= <-] & B).
    + split; [constructor|]. intros c. unfold valid. rewrite node_at_None.
      split; [intros [] | discriminate].
Qed.

End CopyFacts.

(** ** Decoding reads no further than the encoding *)

Section CodecPrefix.
Context {T : Type} `{TextIO T} `{TriviallyCopyable T}.
Implicit Types (t : FullBinaryTree T) (junk : list ascii).

Lemma deserializeText_prefix t (t0 : FullBinaryTree T) rest :
  SizeT.in_range (size t) -> all_data text_ok (root t) ->
  deserializeText
    (from_chars (decimal (Z.to_N (size t)) ++ endl ++ serializeHelper (root t) ++ rest))
    t0 = Returns t.
Proof.
  intros R A. unfold deserializeText.
  pose proof (extract_size_t_decimal [] (size t)
                (endl ++ serializeHelper (root t) ++ rest)) as Ex.
  cbn [app] in Ex. rewrite Ex; clear Ex.
  - cbn [buffer].
    rewrite (deserializeHelper_serializeHelper (root t) _ endl rest); auto.
    + cbn [size]. now rewrite tree_eta.
    + pose proof (serializeHelper_length (root t)).
      rewrite !length_app. lia.
    + repeat constructor.
  - constructor.
  - unfold SizeT.in_range, SizeT.max in *. lia.
  - reflexivity.
Qed.

(** X9. Both decoders read no further than the encoding of the tree: whatever
    follows it in the stream, decoding gives back the encoded tree. *)
Theorem decoding_ignores_what_follows t (t0 : FullBinaryTree T) junk :
  SizeT.in_range (size t) ->
  (all_data text_ok (root t) ->
   deserializeText (from_chars (serializeText t ++ junk)) t0 = Returns t) /\
  (all_data binary_ok (root t) ->
   deserializeBinary (from_chars (serializeBinary t ++ junk)) t0 = Returns t /\
   deserialize (from_chars (serialize t ++ junk)) t0 = Returns t).
Proof.
  intros R. split.
  - intros A. unfold serializeText. rewrite <- !app_assoc.
    now apply deserializeText_prefix.
  - intros A.
    assert (E : deserializeBinary (from_chars (serializeBinary t ++ junk)) t0 = Returns t).
    { unfold deserializeBinary, serializeBinary, from_chars.
      rewrite <- app_assoc.
      pose proof (read_chars_app (le_bytes 8 (size t))
                    (serializeBinaryHelper (root t) ++ junk)) as Rd.
      rewrite le_bytes_length in Rd. rewrite Rd. cbn [buffer].
      rewrite deserializeBinaryHelper_serializeHelper; auto.
      - cbn [size]. rewrite le_value_le_bytes; [now rewrite tree_eta|].
        unfold SizeT.in_range, SizeT.modulus in R.
        change (256 ^ Z.of_nat 8)%Z with (2 ^ 64)%Z. exact R.
      - pose proof (serializeBinaryHelper_length (root t)).
        rewrite length_app. lia. }
    split; [exact E | exact E].
Qed.

End CodecPrefix.

Section ConcretePrefix.
Import Sample.
Open Scope Z_scope.

Lemma decoding_ignores_what_follows_witness :
  SizeT.in_range (size t3) /\ all_data text_ok (root t3) /\
  deserializeText (from_chars (serializeText t3 ++ chars "7 null")) empty = Returns t3.
Proof.
  assert (R : SizeT.in_range (size t3)) by (vm_compute; split; [discriminate | reflexivity]).
  split; [exact R | split; [exact t3_text_ok|]].
  exact (proj1 (decoding_ignores_what_follows t3 empty (chars "7 null") R) t3_text_ok).
Defined.

End ConcretePrefix.

(** ** The Go port against the C++ class *)

Section GoTree.
Context {T : Type} `{EqOp T}.
Implicit Types (n m : Node T) (p r : option (Node T)) (a b e : Addr) (c : Ptr T)
  (q l : list (Ptr T)) (t : FullBinaryTree T) (value w : T).

Lemma go_wrap_small z : (GoInt.min <= z <= GoInt.max)%Z -> GoInt.wrap z = z.
Proof.
  unfold GoInt.min, GoInt.max, GoInt.wrap. intros R.
  rewrite Z.mod_small; lia.
Qed.

Lemma go_isFull_node n : Go.isFullBinaryTreeNode n = isFullBinaryTreeNode n.
Proof.
  induction n as [d l r IHl IHr] using Node_induction.
  cbn [Go.isFullBinaryTreeNode isFullBinaryTreeNode]. unfold one_child.
  destruct l, r; simpl in *; congruence.
Qed.

Lemma Insert_loop_agrees value t fuel q :
  (0 <= size t)%Z -> (size t + 2 <= GoInt.max)%Z ->
  Go.Insert_loop value t fuel q = insert_loop value t fuel q.
Proof.
  intros R0 R1. revert q; induction fuel as [|fuel IH]; intros [|c q]; simpl; auto.
  destruct (is_leaf (pointee c)); auto.
  rewrite go_wrap_small, wrap_small; auto;
    unfold GoInt.min, GoInt.max, SizeT.max, SizeT.modulus in *; lia.
Qed.

Lemma fst_delete_children a r :
  fst (delete_children a r) = write_at a unlink_children r.
Proof.
  unfold delete_children. destruct (node_at a r) eqn:E; cbn [fst]; auto.
  now rewrite write_at_absent.
Qed.

Lemma wraps_agree z :
  (0 <= z <= GoInt.max)%Z -> SizeT.wrap z = GoInt.wrap z.
Proof.
  intros R. rewrite go_wrap_small, wrap_small; auto;
    unfold GoInt.min, GoInt.max, SizeT.max, SizeT.modulus in *; lia.
Qed.

Lemma parent_count r c par :
  valid r c -> parent_of r c = Some par -> 2 <= count r.
Proof.
  intros V P. destruct (parent_of_cases _ _ V) as [[_ E]|(p' & s & E & Vp & _ & Ec)];
    [congruence|].
  pose proof (countNode_node_at _ _ _ Vp). pose proof (countNode_child _ _ _ Ec).
  pose proof (countNode_pos (pointee c)). lia.
Qed.

(** X10. The Go port gives the results of the C++ class: [Find],
    [IsFullBinaryTree], [Clear] and [Clone] on every tree, [Insert] while the
    size stays within Go's [int], and [Remove] on every tree that passes the
    shape check and whose size is at least its number of nodes. *)
Theorem go_port_agrees value t :
  Go.Find value t = find value t /\
  Go.IsFullBinaryTree t = isFullBinaryTree t /\
  Go.Clear t = fst (clear t) /\
  Go.Clone t = copy_construct t /\
  ((0 <= size t)%Z -> (size t + 2 <= GoInt.max)%Z ->
   Go.Insert value t = insert value t) /\
  (isFullBinaryTree t = true ->
   (Z.of_nat (count (root t)) <= size t <= GoInt.max)%Z ->
   Go.Remove value t = option_map fst (remove value t)).
Proof.
  split; [reflexivity | split; [|split; [reflexivity | split; [reflexivity | split]]]].
  - unfold Go.IsFullBinaryTree, isFullBinaryTree.
    destruct (root t); simpl; auto. apply go_isFull_node.
  - intros R0 R1. unfold Go.Insert, insert. destruct (root t); auto.
    now apply Insert_loop_agrees.
  - intros F [Cl Cu]. unfold Go.Remove, remove.
    destruct (root t) as [r0|] eqn:R; [|reflexivity].
    destruct (level_order_total (Some r0)) as [l El].
    pose proof (level_order_valid _ _ El) as V. rewrite Forall_forall in V.
    pose proof (valid_root_queue (Some r0)) as Vq. cbn [root_queue] in Vq.
    unfold level_order in El. cbn [count root_queue] in El.
    pose proof (target_loop_spec (Some r0) value _ _ _ Vq El) as Et.
    pose proof (rightmost_loop_spec (Some r0) _ _ _ None Vq El) as Er.
    change (map (with_parent (Some r0)) [mkPtr [] r0])
      with [(mkPtr [] r0, @None (Ptr T))] in Et, Er.
    cbn [option_map] in Er. rewrite Et, Er. clear Et Er.
    destruct (List.find (holds value) l) as [target|] eqn:Ft; [|reflexivity].
    cbn [option_map with_parent].
    apply find_some in Ft as [It _]. pose proof (V _ It) as Vt.
    unfold isFullBinaryTree in F. rewrite R in F.
    pose proof (isFull_node_at _ _ _ F Vt) as Fn.
    destruct (is_leaf (pointee target)) eqn:L.
    + destruct (parent_of (Some r0) target) as [par|] eqn:P; [|reflexivity].
      pose proof (parent_count _ _ _ Vt P) as C2.
      pose proof (fst_delete_children (addr par) (Some r0)) as Fd.
      destruct (delete_children (addr par) (Some r0)) as [r' dl].
      cbn [fst option_map] in *. subst r'.
      rewrite wraps_agree; auto. lia.
    + rewrite (full_not_leaf_internal _ Fn L).
      destruct (last_leaf_from l None) as [rightmost|] eqn:Elast; [|reflexivity].
      cbn [option_map with_parent].
      destruct (addr_eqb (addr rightmost) (addr target)); [reflexivity|].
      apply last_leaf_from_cases in Elast as [[Ir _]|?]; [|discriminate].
      pose proof (V _ Ir) as Vr.
      destruct (parent_of (Some r0) rightmost) as [rp|] eqn:P; [|reflexivity].
      pose proof (parent_count _ _ _ Vr P) as C2.
      match goal with
      | |- context [delete_children ?a ?x] =>
          pose proof (fst_delete_children a x) as Fd;
          destruct (delete_children a x) as [r' dl]
      end.
      cbn [fst option_map] in *. subst r'.
      rewrite wraps_agree; auto. lia.
Qed.

End GoTree.

Section ConcreteGo.
Import Sample.
Open Scope Z_scope.

Lemma go_port_agrees_witness :
  isFullBinaryTree t3 = true /\
  Z.of_nat (count (root t3)) <= size t3 <= GoInt.max /\
  Go.Remove 20 t3 = Some (mkTree (node 10 (leaf 30) (leaf 20)) 3) /\
  Go.Insert 40 t3 =
    Some (mkTree (node 10 (node 20 (leaf 30) (leaf 30)) (node 20 (leaf 40) (leaf 40))) 7).
Proof.
  assert (F : isFullBinaryTree t3 = true) by reflexivity.
  assert (R : Z.of_nat (count (root t3)) <= size t3 <= GoInt.max)
    by (vm_compute; split; discriminate).
  assert (R0 : 0 <= size t3) by (vm_compute; discriminate).
  assert (R1 : size t3 + 2 <= GoInt.max) by (vm_compute; discriminate).
  split; [exact F | split; [exact R|]].
  destruct (go_port_agrees 20 t3) as (_ & _ & _ & _ & _ & Gr).
  destruct (go_port_agrees 40 t3) as (_ & _ & _ & _ & Gi & _).
  split; [exact (Gr F R) | exact (Gi R0 R1)].
Defined.

End ConcreteGo.

(** ** The Go text codec *)

Section GoText.
Context {T : Type} `{Go.Lib T}.
Implicit Types (n : Node T) (p : option (Node T)) (tokens : list (list ascii))
  (t : FullBinaryTree T) (err : Go.error).

Lemma Go_helper_result fuel : forall tokens index p j e,
  Go.deserializeTextHelper fuel tokens index = Some (p, j, e) ->
  index <= j /\
  match e with
  | None => True
  | Some err =>
      p = None /\
      exists token k,
        index <= k /\ nth_error tokens k = Some token /\
        err = Go.ParseValue token /\
        chars_eqb token (chars "null") = false /\ Go.Sscan token = None
  end.
Proof.
  induction fuel as [|fuel IH]; intros tokens index p j e E; [discriminate|].
  cbn [Go.deserializeTextHelper] in E.
  destruct (nth_error tokens index) as [token|] eqn:En.
  2:{ injection E as <- <- <-. auto. }
  destruct (chars_eqb token (chars "null")) eqn:Enull.
  { injection E as <- <- <-. auto. }
  destruct (Go.Sscan token) as [value|] eqn:Es.
  2:{ injection E as <- <- <-. split; [lia|]. split; auto.
      exists token, index. auto. }
  destruct (Go.deserializeTextHelper fuel tokens (S index)) as [[[l j1] [e1|]]|] eqn:E1;
    try discriminate.
  { injection E as <- <- <-. destruct (IH _ _ _ _ _ E1) as [Le (_ & tok & k & Lk & R)].
    split; [lia|]. split; auto. exists tok, k. split; [lia | exact R]. }
  destruct (IH _ _ _ _ _ E1) as [Le1 _].
  destruct (Go.deserializeTextHelper fuel tokens j1) as [[[r j2] [e2|]]|] eqn:E2;
    try discriminate.
  { injection E as <- <- <-. destruct (IH _ _ _ _ _ E2) as [Le (_ & tok & k & Lk & R)].
    split; [lia|]. split; auto. exists tok, k. split; [lia | exact R]. }
  destruct (IH _ _ _ _ _ E2) as [Le2 _].
  injection E as <- <- <-. split; [lia | exact I].
Qed.

Lemma Go_helper_total fuel : forall tokens index,
  List.length tokens - index < fuel ->
  exists res, Go.deserializeTextHelper fuel tokens index = Some res.
Proof.
  induction fuel as [|fuel IH]; intros tokens index B; [lia|].
  cbn [Go.deserializeTextHelper].
  destruct (nth_error tokens index) as [token|] eqn:En; [|eauto].
  assert (Li : index < List.length tokens).
  { apply nth_error_Some. congruence. }
  destruct (chars_eqb token (chars "null")); [eauto|].
  destruct (Go.Sscan token) as [value|]; [|eauto].
  destruct (IH tokens (S index)) as [[[l j1] e1] E1]; [lia|].
  rewrite E1. destruct (Go_helper_result _ _ _ _ _ _ E1) as [Le1 _].
  destruct e1 as [e1|]; [eauto|].
  destruct (IH tokens j1) as [[[r j2] e2] E2]; [lia|].
  rewrite E2. destruct e2; eauto.
Qed.

Lemma Go_helper_no_error fuel : forall tokens index p j e,
  (forall k token, index <= k -> nth_error tokens k = Some token -> Go.scans token) ->
  Go.deserializeTextHelper fuel tokens index = Some (p, j, e) -> e = None.
Proof.
  intros tokens index p j e A E.
  destruct (Go_helper_result _ _ _ _ _ _ E) as [_ R].
  destruct e as [err|]; auto.
  destruct R as (_ & token & k & Lk & En & _ & Enull & Es).
  destruct (A k token Lk En) as [N|N]; congruence.
Qed.

(** X11. The Go [DeserializeText] always returns. Whenever it returns an
    error the tree has no nodes; its size is 0 after a reader error, an input
    without fields or a first field that is no number, but it is the number of
    the first field after a field that does not scan as a value. It returns no
    error when every field after the first is [null] or scans, however few or
    many fields there are. *)
Theorem go_DeserializeText_errors (input : Go.Reader) t :
  exists t' e,
    Go.DeserializeText input t = Some (t', e) /\
    (e <> None -> root t' = None) /\
    match e with
    | Some (Go.ParseValue token) =>
        Go.fails input = false /\
        In token (tl (Go.Fields (Go.content input))) /\
        chars_eqb token (chars "null") = false /\
        Go.Sscan token = None /\
        Go.Sscanf_d (hd [] (Go.Fields (Go.content input))) = Some (size t')
    | Some Go.ReadError => Go.fails input = true /\ size t' = 0%Z
    | Some Go.EmptyInput =>
        Go.fails input = false /\ Go.Fields (Go.content input) = [] /\ size t' = 0%Z
    | Some Go.ParseSize =>
        Go.fails input = false /\ Go.Fields (Go.content input) <> [] /\
        Go.Sscanf_d (hd [] (Go.Fields (Go.content input))) = None /\ size t' = 0%Z
    | None =>
        Go.fails input = false /\ Go.Fields (Go.content input) <> [] /\
        Go.Sscanf_d (hd [] (Go.Fields (Go.content input))) = Some (size t')
    end /\
    (Go.fails input = false ->
     Go.Fields (Go.content input) <> [] ->
     Go.Sscanf_d (hd [] (Go.Fields (Go.content input))) <> None ->
     Forall Go.scans (tl (Go.Fields (Go.content input))) ->
     e = None).
Proof.
  unfold Go.DeserializeText. destruct (Go.fails input) eqn:Ef.
  { exists (Go.Clear t), (Some Go.ReadError).
    split; [reflexivity | split; [reflexivity | split; [now split | discriminate]]]. }
  destruct (Go.Fields (Go.content input)) as [|token0 rest] eqn:Et.
  { exists (Go.Clear t), (Some Go.EmptyInput).
    split; [reflexivity | split; [reflexivity | split; [now repeat split | congruence]]]. }
  cbn [hd tl]. destruct (Go.Sscanf_d token0) as [newSize|] eqn:Es.
  2:{ exists (Go.Clear t), (Some Go.ParseSize).
      split; [reflexivity | split; [reflexivity | split]].
      - split; [reflexivity | split; [discriminate | now split]].
      - congruence. }
  destruct (Go_helper_total (S (List.length (token0 :: rest))) (token0 :: rest) 1)
    as [[[r j] e] Eh]; [simpl; lia|].
  rewrite Eh. exists (mkTree r newSize), e. cbn [root size Go.Clear].
  pose proof (Go_helper_result _ _ _ _ _ _ Eh) as [_ R].
  split; [reflexivity | split; [|split]].
  - intros N. destruct e as [err|]; [|congruence]. now destruct R as [-> _].
  - destruct e as [err|].
    + destruct R as (_ & token & k & Lk & En & -> & Enull & Esc).
      split; [reflexivity | split; [|auto]].
      destruct k as [|k]; [lia|]. simpl in En. exact (nth_error_In _ _ En).
    + split; [reflexivity | split; [discriminate | reflexivity]].
  - intros _ _ _ A. apply (Go_helper_no_error _ _ _ _ _ _) with (2 := Eh).
    intros k token Lk En. destruct k as [|k]; [lia|]. simpl in En.
    rewrite Forall_forall in A. exact (A _ (nth_error_In _ _ En)).
Qed.


Lemma fields_from_field field tok sp rest :
  Forall (fun c => isspace c = false) tok -> isspace sp = true ->
  field ++ tok <> [] ->
  Go.fields_from field (tok ++ sp :: rest) = (field ++ tok) :: Go.fields_from [] rest.
Proof.
  intros F. revert field. induction F as [|c tok Hc F IH]; intros field Hs N.
  - rewrite app_nil_r in *. simpl. rewrite Hs. destruct field; congruence.
  - cbn [app Go.fields_from]. rewrite Hc.
    replace (field ++ c :: tok) with ((field ++ [c]) ++ tok) in *
      by now rewrite <- app_assoc.
    now apply IH.
Qed.

Lemma field_ok_nonspace v :
  Go.field_ok v -> Forall (fun c => isspace c = false) (Go.Sprint v).
Proof.
  intros (_ & F & _). eapply Forall_impl; [|exact F]. now intros c [_ Hc].
Qed.

Lemma isspace_blank : isspace " "%char = true.
Proof. reflexivity. Qed.

Lemma fields_null rest :
  Go.fields_from [] (chars "null " ++ rest) = chars "null" :: Go.fields_from [] rest.
Proof. reflexivity. Qed.

Lemma fields_node n : forall rest,
  all_data Go.field_ok (Some n) ->
  Go.fields_from [] (Go.serializeTextNode n ++ rest) =
  Go.tokens_of_node n ++ Go.fields_from [] rest.
Proof.
  induction n as [d l r IHl IHr] using Node_induction. intros rest A.
  apply all_data_node in A as (Hd & Al & Ar).
  cbn [Go.serializeTextNode Go.tokens_of_node].
  rewrite <- !app_assoc. change (chars " ") with [" "%char]. cbn [app].
  rewrite (fields_from_field [] (Go.Sprint d) " "%char);
    [|now apply field_ok_nonspace | reflexivity | apply Hd].
  cbn [app]. f_equal.
  assert (Er : Go.fields_from []
                 ((match r with
                   | Some x => Go.serializeTextNode x
                   | None => chars "null "
                   end) ++ rest) =
               (match r with
                | Some x => Go.tokens_of_node x
                | None => [chars "null"]
                end) ++ Go.fields_from [] rest).
  { destruct r as [y|]; [now apply IHr | apply fields_null]. }
  destruct l as [x|].
  - simpl in IHl. rewrite IHl; auto. now rewrite Er, app_assoc.
  - rewrite fields_null, Er. reflexivity.
Qed.

Lemma fields_helper p rest :
  all_data Go.field_ok p ->
  Go.fields_from [] (Go.serializeTextHelper p ++ rest) =
  Go.tokens_of p ++ Go.fields_from [] rest.
Proof.
  destruct p as [n|]; intros A; [now apply fields_node | apply fields_null].
Qed.

Lemma isdigit_is_ascii c : isdigit c = true -> Go.is_ascii c = true.
Proof.
  unfold isdigit, Go.is_ascii. intros E. apply andb_true_iff in E as [_ E].
  apply N.leb_le in E. apply N.ltb_lt. lia.
Qed.

Lemma Itoa_chars z :
  Go.Itoa z <> [] /\
  Forall (fun c => Go.is_ascii c = true /\ isspace c = false) (Go.Itoa z).
Proof.
  unfold Go.Itoa, decimal. split.
  - intros E. apply app_eq_nil in E as [_ E].
    exact (decimal_fuel_nonempty 19 _ E).
  - apply Forall_app. split.
    + destruct (z <? 0)%Z; repeat constructor.
    + eapply Forall_impl; [|apply decimal_fuel_digits].
      intros c Hc. split; [now apply isdigit_is_ascii | now apply isdigit_not_space].
Qed.

Lemma ascii_node n :
  all_data Go.field_ok (Some n) -> forallb Go.is_ascii (Go.serializeTextNode n) = true.
Proof.
  induction n as [d l r IHl IHr] using Node_induction. intros A.
  apply all_data_node in A as (Hd & Al & Ar).
  cbn [Go.serializeTextNode]. rewrite !forallb_app.
  apply andb_true_iff; split; [apply andb_true_iff; split; [|reflexivity]|
    apply andb_true_iff; split].
  - apply forallb_forall. destruct Hd as (_ & F & _). rewrite Forall_forall in F.
    intros c I. now apply F.
  - destruct l; simpl in *; auto.
  - destruct r; simpl in *; auto.
Qed.

Lemma nth_error_middle {A} (pre : list A) x post :
  nth_error (pre ++ x :: post) (List.length pre) = Some x.
Proof. rewrite nth_error_app2, Nat.sub_diag; auto. Qed.

Lemma Go_helper_null fuel pre post :
  Go.deserializeTextHelper (S fuel) (pre ++ [chars "null"] ++ post) (List.length pre)
  = Some (None, List.length pre + 1, None).
Proof.
  cbn [Go.deserializeTextHelper app]. rewrite nth_error_middle.
  cbn [chars_eqb chars list_ascii_of_string Ascii.eqb Bool.eqb andb].
  now rewrite Nat.add_1_r.
Qed.

Lemma Go_helper_node n : forall fuel pre post,
  all_data Go.field_ok (Some n) ->
  List.length (Go.tokens_of_node n) < fuel ->
  Go.deserializeTextHelper fuel (pre ++ Go.tokens_of_node n ++ post) (List.length pre)
  = Some (Some n, List.length pre + List.length (Go.tokens_of_node n), None).
Proof.
  induction n as [d l r IHl IHr] using Node_induction. intros fuel pre post A B.
  apply all_data_node in A as (Hd & Al & Ar).
  destruct fuel as [|fuel]; [lia|].
  cbn [Go.tokens_of_node] in *. cbn [List.length] in B. rewrite length_app in B.
  set (tl := match l with Some x => Go.tokens_of_node x | None => [chars "null"] end) in *.
  set (tr := match r with Some x => Go.tokens_of_node x | None => [chars "null"] end) in *.
  assert (Pl : 0 < List.length tl).
  { subst tl. destruct l as [[? ? ?]|]; simpl; lia. }
  assert (Pr : 0 < List.length tr).
  { subst tr. destruct r as [[? ? ?]|]; simpl; lia. }
  cbn [Go.deserializeTextHelper app]. rewrite nth_error_middle.
  destruct Hd as (_ & _ & Enull & Es). rewrite Enull, Es.
  assert (El : Go.deserializeTextHelper fuel
                 ((pre ++ [Go.Sprint d]) ++ tl ++ tr ++ post)
                 (List.length (pre ++ [Go.Sprint d]))
               = Some (l, List.length (pre ++ [Go.Sprint d]) + List.length tl, None)).
  { subst tl. destruct l as [x|].
    - simpl in IHl. apply IHl; auto. lia.
    - destruct fuel as [|fuel]; [lia|]. apply Go_helper_null. }
  assert (Er : Go.deserializeTextHelper fuel
                 (((pre ++ [Go.Sprint d]) ++ tl) ++ tr ++ post)
                 (List.length ((pre ++ [Go.Sprint d]) ++ tl))
               = Some (r, List.length ((pre ++ [Go.Sprint d]) ++ tl) + List.length tr,
                       None)).
  { subst tr. destruct r as [y|].
    - simpl in IHr. apply IHr; auto. lia.
    - destruct fuel as [|fuel]; [lia|]. apply Go_helper_null. }
  assert (E1 : (pre ++ [Go.Sprint d]) ++ tl ++ tr ++ post =
               pre ++ Go.Sprint d :: (tl ++ tr) ++ post)
    by (rewrite <- !app_assoc; reflexivity).
  assert (E2 : ((pre ++ [Go.Sprint d]) ++ tl) ++ tr ++ post =
               pre ++ Go.Sprint d :: (tl ++ tr) ++ post)
    by (rewrite <- !app_assoc; reflexivity).
  assert (L1 : List.length (pre ++ [Go.Sprint d]) = S (List.length pre))
    by (rewrite length_app; simpl; lia).
  assert (L2 : List.length ((pre ++ [Go.Sprint d]) ++ tl) =
               S (List.length pre) + List.length tl)
    by (rewrite !length_app; simpl; lia).
  rewrite E1, L1 in El. rewrite E2, L2 in Er. rewrite El, Er.
  cbn [List.length]. rewrite length_app. do 3 f_equal. lia.
Qed.

Lemma Go_decodes_own_format t (t0 : FullBinaryTree T) trail :
  all_data Go.field_ok (root t) ->
  Go.Sscanf_d (Go.Itoa (size t)) = Some (size t) ->
  Forall (fun c => isspace c = true /\ Go.is_ascii c = true) trail ->
  Go.DeserializeText (Go.mkReader (Go.SerializeText t ++ trail) false) t0
  = Some (t, None).
Proof.
  intros A Es Wt. destruct (Itoa_chars (size t)) as [Ni Fi].
  assert (Et : Go.fields_from [] trail = []).
  { induction Wt as [|c trail [Hc _] _ IH]; simpl; auto. now rewrite Hc. }
  assert (Ef : Go.Fields (Go.SerializeText t ++ trail)
               = Go.Itoa (size t) :: Go.tokens_of (root t)).
  { unfold Go.Fields.
    assert (Ea : forallb Go.is_ascii (Go.SerializeText t ++ trail) = true).
    { unfold Go.SerializeText. rewrite !forallb_app.
      apply andb_true_iff; split;
        [apply andb_true_iff; split; [apply andb_true_iff; split; [|reflexivity]|]|].
      - apply forallb_forall. rewrite Forall_forall in Fi. intros c I. now apply Fi.
      - destruct (root t) as [n|]; [now apply ascii_node | reflexivity].
      - apply forallb_forall. rewrite Forall_forall in Wt. intros c I. now apply Wt. }
    rewrite Ea. unfold Go.SerializeText, endl. rewrite <- !app_assoc. cbn [app].
    rewrite (fields_from_field [] (Go.Itoa (size t)) "010"%char);
      [|eapply Forall_impl; [|exact Fi]; now intros c [_ Hc] | reflexivity | exact Ni].
    cbn [app]. f_equal.
    rewrite (fields_helper _ trail A), Et. now rewrite app_nil_r. }
  unfold Go.DeserializeText. cbn [Go.fails Go.content]. rewrite Ef, Es.
  cbn [Go.Clear root size].
  assert (Eh : Go.deserializeTextHelper
                 (S (List.length (Go.Itoa (size t) :: Go.tokens_of (root t))))
                 (Go.Itoa (size t) :: Go.tokens_of (root t)) 1
               = Some (root t, 1 + List.length (Go.tokens_of (root t)), None)).
  { pose proof (fun n fuel => Go_helper_node n fuel [Go.Itoa (size t)] []) as Hn.
    pose proof (fun fuel => Go_helper_null fuel [Go.Itoa (size t)] []) as H0.
    cbn [List.length app] in Hn, H0.
    destruct (root t) as [n|]; cbn [Go.tokens_of].
    - specialize (Hn n (S (S (List.length (Go.tokens_of_node n)))) A).
      rewrite app_nil_r in Hn. cbn [List.length]. apply Hn. lia.
    - exact (H0 1). }
  rewrite Eh. now rewrite tree_eta.
Qed.

(** X12. The Go text codec round trip: when every value of the tree prints as
    one ASCII field, other than [null], that scans back to the value, and the
    printed size scans back, [DeserializeText] on what [SerializeText] wrote
    returns no error and gives the tree with the same nodes and size,
    whatever the target held. *)
Theorem go_text_round_trip t (t0 : FullBinaryTree T) :
  all_data Go.field_ok (root t) ->
  Go.Sscanf_d (Go.Itoa (size t)) = Some (size t) ->
  Go.DeserializeText (Go.mkReader (Go.SerializeText t) false) t0 = Some (t, None).
Proof.
  intros A Es. rewrite <- (app_nil_r (Go.SerializeText t)).
  apply Go_decodes_own_format; auto.
Qed.

End GoText.

(** ** One text format for both implementations *)

Section TextInterop.
Context {T : Type} `{TextIO T} `{Go.Lib T}.
Implicit Types (n : Node T) (p : option (Node T)) (t : FullBinaryTree T).

Lemma serializeNode_go n :
  all_data (fun v => put v = Go.Sprint v) (Some n) ->
  serializeNode n = Go.serializeTextNode n.
Proof.
  induction n as [d l r IHl IHr] using Node_induction. intros A.
  apply all_data_node in A as (Hd & Al & Ar).
  cbn [serializeNode Go.serializeTextNode]. rewrite Hd, <- app_assoc.
  f_equal. change (chars " ") with space. f_equal. f_equal.
  - destruct l; simpl in *; auto.
  - destruct r; simpl in *; auto.
Qed.

Lemma serializeText_go t :
  (0 <= size t)%Z ->
  all_data (fun v => put v = Go.Sprint v) (root t) ->
  serializeText t = Go.SerializeText t ++ endl.
Proof.
  intros R A. unfold serializeText, Go.SerializeText, Go.Itoa.
  assert (Z.ltb (size t) 0 = false) as -> by (apply Z.ltb_ge; lia).
  rewrite Z.abs_eq by lia. cbn [app]. rewrite <- !app_assoc. do 2 f_equal.
  destruct (root t) as [n|]; simpl; [|reflexivity].
  now rewrite serializeNode_go.
Qed.

(** X13. The two implementations share one text format: for a tree whose
    values print alike in both and survive both codecs, and whose size fits
    Go's [int], the Go [DeserializeText] reads what the C++ [serializeText]
    wrote and the C++ [deserializeText] reads what the Go [SerializeText]
    wrote, each giving back the tree; the C++ output is the Go output
    followed by a newline. *)
Theorem text_format_is_shared t (t0 : FullBinaryTree T) :
  (0 <= size t <= GoInt.max)%Z ->
  all_data (fun v => put v = Go.Sprint v) (root t) ->
  all_data text_ok (root t) ->
  all_data Go.field_ok (root t) ->
  Go.Sscanf_d (Go.Itoa (size t)) = Some (size t) ->
  serializeText t = Go.SerializeText t ++ endl /\
  Go.DeserializeText (Go.mkReader (serializeText t) false) t0 = Some (t, None) /\
  deserializeText (from_chars (Go.SerializeText t)) t0 = Returns t.
Proof.
  intros [R0 R1] Ap At Ag Es.
  pose proof (serializeText_go t R0 Ap) as E.
  split; [exact E | split].
  - rewrite E. apply Go_decodes_own_format; auto. repeat constructor.
  - assert (Eg : Go.SerializeText t =
                 decimal (Z.to_N (size t)) ++ endl ++ serializeHelper (root t) ++ []).
    { apply (app_inv_tail endl). rewrite <- E. unfold serializeText.
      now rewrite app_nil_r, <- !app_assoc. }
    rewrite Eg. apply deserializeText_prefix; auto.
    unfold SizeT.in_range, SizeT.modulus, GoInt.max in *. lia.
Qed.

End TextInterop.

Section ConcreteGoText.
Import Sample.
Open Scope Z_scope.

Lemma t3_field_ok : all_data Go.field_ok (root t3).
Proof.
  intros a n E.
  repeat (destruct a as [|[|] a]; simpl in E;
          try (rewrite node_at_None in E); try discriminate;
          try (injection E as <-));
    (split; [discriminate | split; [repeat constructor | split; reflexivity]]).
Qed.

Lemma go_text_round_trip_witness :
  all_data Go.field_ok (root t3) /\
  Go.Sscanf_d (Go.Itoa (size t3)) = Some (size t3) /\
  Go.SerializeText t3 = chars "5" ++ endl ++ chars "10 20 30 null null 30 null null 20 null null " /\
  Go.DeserializeText (Go.mkReader (Go.SerializeText t3) false) empty = Some (t3, None).
Proof.
  assert (Es : Go.Sscanf_d (Go.Itoa (size t3)) = Some (size t3)) by reflexivity.
  split; [exact t3_field_ok | split; [exact Es | split; [reflexivity|]]].
  exact (go_text_round_trip t3 empty t3_field_ok Es).
Defined.

Lemma text_format_is_shared_witness :
  0 <= size t3 <= GoInt.max /\
  all_data (fun v => put v = Go.Sprint v) (root t3) /\
  all_data text_ok (root t3) /\
  all_data Go.field_ok (root t3) /\
  Go.Sscanf_d (Go.Itoa (size t3)) = Some (size t3) /\
  Go.DeserializeText (Go.mkReader (serializeText t3) false) empty = Some (t3, None) /\
  deserializeText (from_chars (Go.SerializeText t3)) empty = Returns t3.
Proof.
  assert (R : 0 <= size t3 <= GoInt.max) by (vm_compute; split; discriminate).
  assert (Ap : all_data (fun v => put v = Go.Sprint v) (root t3)).
  { intros a n E.
    repeat (destruct a as [|[|] a]; simpl in E;
            try (rewrite node_at_None in E); try discriminate;
            try (injection E as <-)); reflexivity. }
  assert (Es : Go.Sscanf_d (Go.Itoa (size t3)) = Some (size t3)) by reflexivity.
  split; [exact R | split; [exact Ap | split; [exact t3_text_ok |
    split; [exact t3_field_ok | split; [exact Es|]]]]].
  exact (proj2 (text_format_is_shared t3 empty R Ap t3_text_ok t3_field_ok Es)).
Defined.

End ConcreteGoText.

(** ** What the shape check decides *)

Section ShapeCheck.
Context {T : Type}.
Implicit Types (n m : Node T) (p : option (Node T)) (a : Addr) (t : FullBinaryTree T).

Lemma no_single_child n :
  one_child n = false <-> is_leaf n = true \/ is_internal n = true.
Proof.
  unfold one_child, is_leaf, is_internal.
  destruct (left n), (right n); split; auto; intros [E|E]; discriminate.
Qed.

Lemma isFull_from_nodes n :
  (forall a m, node_at a (Some n) = Some m -> one_child m = false) ->
  isFullBinaryTreeNode n = true.
Proof.
  induction n as [d l r IHl IHr] using Node_induction. intros A.
  rewrite isFullBinaryTreeNode_eq. rewrite (A [] _ eq_refl). cbn [left right].
  apply andb_true_iff; split.
  - destruct l as [x|]; simpl in *; auto. apply IHl.
    intros a m E. exact (A (LeftSlot :: a) m E).
  - destruct r as [y|]; simpl in *; auto. apply IHr.
    intros a m E. exact (A (RightSlot :: a) m E).
Qed.

Lemma full_count_odd n :
  isFullBinaryTreeNode n = true -> Nat.odd (countNode n) = true.
Proof.
  induction n as [d l r IHl IHr] using Node_induction.
  rewrite isFullBinaryTreeNode_eq. unfold one_child. cbn [left right countNode].
  destruct l as [x|], r as [y|]; simpl in IHl, IHr; try discriminate.
  - intros E. apply andb_true_iff in E as [Fx Fy]. simpl in Fx, Fy.
    specialize (IHl Fx). specialize (IHr Fy).
    change (S (countNode x + countNode y)) with (1 + (countNode x + countNode y)).
    rewrite Nat.odd_add, Nat.odd_add, IHl, IHr. reflexivity.
  - reflexivity.
Qed.

(** X14. [isFullBinaryTree] answers true exactly when every node of the tree
    has either no child or two children; a non-empty tree that passes the
    check has an odd number of nodes. *)
Theorem shape_check_decides_full t :
  (isFullBinaryTree t = true <->
   forall a n, node_at a (root t) = Some n ->
               is_leaf n = true \/ is_internal n = true) /\
  (isFullBinaryTree t = true -> root t <> None ->
   Nat.odd (count (root t)) = true).
Proof.
  unfold isFullBinaryTree. split; [split|].
  - intros F a n E. apply no_single_child.
    pose proof (isFull_node_at _ _ _ F E) as Fn.
    rewrite isFullBinaryTreeNode_eq in Fn.
    destruct (one_child n); [discriminate | reflexivity].
  - intros A. destruct (root t) as [r0|]; [|reflexivity].
    apply isFull_from_nodes. intros a m E. apply no_single_child. eauto.
  - intros F N. destruct (root t) as [r0|]; [|congruence].
    now apply full_count_odd.
Qed.

End ShapeCheck.

Section ConcreteShape.
Import Sample.

Lemma shape_check_decides_full_witness :
  isFullBinaryTree t3 = true /\ root t3 <> None /\
  Nat.odd (count (root t3)) = true.
Proof.
  assert (F : isFullBinaryTree t3 = true) by reflexivity.
  assert (N : root t3 <> None) by discriminate.
  split; [exact F | split; [exact N|]].
  exact (proj2 (shape_check_decides_full t3) F N).
Defined.

End ConcreteShape.

(** ** Insertion fills the tree level by level *)

Section Balance.
Context {T : Type} `{EqOp T}.
Implicit Types (n m : Node T) (p r : option (Node T)) (a b e : Addr) (c : Ptr T)
  (q l : list (Ptr T)) (t : FullBinaryTree T) (value w : T).

Lemma find_split {A} (f : A -> bool) (xs : list A) x :
  List.find f xs = Some x ->
  exists xs1 xs2, xs = xs1 ++ x :: xs2 /\ forall y, In y xs1 -> f y = false.
Proof.
  induction xs as [|y xs IH]; simpl; [discriminate|].
  destruct (f y) eqn:Fy.
  - intros [= ->]. exists [], xs. split; auto. intros ? [].
  - intros E. destruct (IH E) as (xs1 & xs2 & -> & N).
    exists (y :: xs1), xs2. split; auto. intros z [<-|I]; auto.
Qed.

Lemma StronglySorted_app_r {A} (R : A -> A -> Prop) (xs1 xs2 : list A) :
  StronglySorted R (xs1 ++ xs2) -> StronglySorted R xs2.
Proof.
  induction xs1 as [|x xs1 IH]; simpl; auto.
  intros S1. apply StronglySorted_inv in S1 as [S1 _]. auto.
Qed.

(** The first leaf of the level order is a shallowest leaf. *)
Lemma first_leaf_shallowest r l c a n :
  level_order r = Some l -> List.find leaf_ptr l = Some c ->
  node_at a r = Some n -> is_leaf n = true -> depth c <= List.length a.
Proof.
  intros El Fc En L.
  pose proof (level_order_complete _ _ _ _ El En) as I.
  pose proof (level_order_sorted _ _ El) as Hs.
  destruct (find_split _ _ _ Fc) as (l1 & l2 & -> & N).
  apply StronglySorted_app_r, StronglySorted_inv in Hs as [_ F].
  rewrite Forall_forall in F.
  apply in_app_or in I as [I|[Ec|I]].
  - apply N in I. unfold leaf_ptr in I. simpl in I. congruence.
  - subst c. unfold depth. simpl. lia.
  - exact (F _ I).
Qed.

Lemma node_at_write_at_above a e (f : Node T -> Node T) r :
  node_at a (write_at (a ++ e) f r) = write_at e f (node_at a r).
Proof.
  revert r; induction a as [|s a IH]; intros r; [reflexivity|].
  destruct r as [m|]; cbn [app write_at node_at].
  - rewrite child_set_child.
    assert (slot_eqb s s = true) as -> by now apply slot_eqb_eq.
    apply IH.
  - now destruct e.
Qed.

Lemma node_at_write_at_unrelated b : forall a (f : Node T -> Node T) r,
  ~ extends b a -> ~ extends a b ->
  node_at a (write_at b f r) = node_at a r.
Proof.
  induction b as [|s b IH]; intros a f r N1 N2.
  - destruct N1. now exists a.
  - destruct r as [m|]; [|reflexivity].
    destruct a as [|s' a]; [destruct N2; now exists (s :: b)|].
    cbn [write_at node_at]. rewrite child_set_child.
    destruct (slot_eqb s' s) eqn:Es; auto.
    apply slot_eqb_eq in Es; subst s'. apply IH.
    + intros [e ->]. apply N1. now exists e.
    + intros [e ->]. apply N2. now exists e.
Qed.

(** The leaves after a pair was attached below the leaf [c]: the two new
    nodes, and the leaves there were, [c] apart. *)
Lemma leaves_after_attach value r c a n :
  valid r c -> is_leaf (pointee c) = true ->
  node_at a (write_at (addr c) (attach_pair value) r) = Some n ->
  is_leaf n = true ->
  (exists s, a = addr c ++ [s]) \/ node_at a r = Some n.
Proof.
  intros V L En Ln. destruct (extends_dec (addr c) a) as [[e ->]|N1].
  - rewrite (node_at_write_at_below _ e (attach_pair value) _ _ V) in En.
    destruct e as [|s e].
    + simpl in En. injection En as <-. discriminate.
    + left. exists s. f_equal.
      assert (Ec : child s (attach_pair value (pointee c)) = Some (newNode value))
        by now destruct s.
      cbn [node_at] in En. rewrite Ec in En.
      destruct e as [|s' e]; auto.
      cbn [node_at] in En. destruct s'; simpl in En; now rewrite node_at_None in En.
  - destruct (extends_dec a (addr c)) as [[e Ee]|N2].
    + rewrite Ee, node_at_write_at_above in En.
      destruct e as [|s e]; [destruct N1; exists []; now rewrite Ee, !app_nil_r|].
      destruct (node_at a r) as [m|] eqn:Em; [|discriminate].
      cbn [write_at] in En. injection En as <-.
      assert (Vc : node_at (s :: e) (Some m) = Some (pointee c)).
      { unfold valid in V. now rewrite Ee, node_at_app, Em in V. }
      cbn [node_at] in Vc.
      destruct (write_at_is_Some _ (attach_pair value) _ _ Vc) as [x Ex].
      exfalso. clear - Ln Ex. destruct m as [d ml mr], s; simpl in *;
        rewrite Ex in Ln; unfold is_leaf in Ln; simpl in Ln;
        try discriminate; destruct ml; discriminate.
    + right. now rewrite node_at_write_at_unrelated in En.
Qed.

Lemma insert_keeps_balance value t t' :
  balanced (root t) -> insert value t = Some t' -> balanced (root t').
Proof.
  intros [d0 B] Ei. destruct (root t) as [r0|] eqn:R.
  - destruct (insert_nonempty value t) as (l & c & El & Fc & Ei').
    { rewrite R. discriminate. }
    rewrite Ei' in Ei. injection Ei as <-. cbn [attach_at root]. rewrite R in *.
    destruct (first_leaf_valid _ _ _ El Fc) as [V L].
    exists (depth c). intros a n En Ln.
    destruct (leaves_after_attach _ _ _ _ _ V L En Ln) as [[s ->]|En'].
    + unfold depth. rewrite length_app. simpl. lia.
    + pose proof (first_leaf_shallowest _ _ _ _ _ El Fc En' Ln).
      pose proof (B _ _ En' Ln). pose proof (B _ _ V L). unfold depth in *. lia.
  - unfold insert in Ei. rewrite R in Ei. injection Ei as <-. cbn [root].
    exists 0. intros [|s a] n En Ln; simpl; [lia|].
    destruct s; simpl in En; now rewrite node_at_None in En.
Qed.

Lemma has_leaf_below n : exists e m, node_at e (Some n) = Some m /\ is_leaf m = true.
Proof.
  induction n as [d l r IHl IHr] using Node_induction.
  destruct l as [x|].
  - destruct IHl as (e & m & En & Lm). exists (LeftSlot :: e), m. auto.
  - destruct r as [y|].
    + destruct IHr as (e & m & En & Lm). exists (RightSlot :: e), m. auto.
    + exists [], (mkNode d None None). auto.
Qed.

Lemma full_count_lower d : forall n,
  isFullBinaryTreeNode n = true ->
  (forall e m, node_at e (Some n) = Some m -> is_leaf m = true -> d <= List.length e) ->
  2 ^ S d <= countNode n + 1.
Proof.
  induction d as [|d IH]; intros n F B.
  - pose proof (countNode_pos n). simpl. lia.
  - rewrite isFullBinaryTreeNode_eq in F. unfold one_child in F.
    destruct n as [v [x|] [y|]]; cbn [left right] in F; try discriminate.
    + apply andb_true_iff in F as [Fx Fy]. simpl in Fx, Fy.
      assert (Bx : 2 ^ S d <= countNode x + 1).
      { apply IH; auto. intros e m En Lm.
        specialize (B (LeftSlot :: e) m En Lm). simpl in B. lia. }
      assert (By : 2 ^ S d <= countNode y + 1).
      { apply IH; auto. intros e m En Lm.
        specialize (B (RightSlot :: e) m En Lm). simpl in B. lia. }
      cbn [countNode]. rewrite (Nat.pow_succ_r' 2 (S d)). lia.
    + specialize (B [] _ eq_refl eq_refl). simpl in B. lia.
Qed.

(** X15. Insertion fills the tree level by level: after any number of
    [insert]s into the empty tree all leaves lie on one level or on two
    consecutive levels, and a node at depth [h] exists only when
    [2 ^ h <= number of nodes + 1]. [insert] keeps the leaves of any tree on
    two consecutive levels when they were. *)
Theorem inserts_fill_level_by_level (values : list T) :
  (forall t t', balanced (root t) -> run (map OpInsert values) t = Some t' ->
                balanced (root t')) /\
  exists t,
    run (map OpInsert values) empty = Some t /\
    balanced (root t) /\
    forall a n, node_at a (root t) = Some n ->
                2 ^ List.length a <= count (root t) + 1.
Proof.
  assert (K : forall t t', balanced (root t) ->
                run (map OpInsert values) t = Some t' -> balanced (root t')).
  { induction values as [|v values IH]; intros t t' B E; simpl in E.
    - now injection E as <-.
    - destruct (insert v t) as [t1|] eqn:Ei; [|discriminate].
      exact (IH _ _ (insert_keeps_balance _ _ _ B Ei) E). }
  split; [exact K|].
  destruct (run_total (map OpInsert values) empty) as [t E]. exists t.
  assert (B0 : balanced (root (@empty T))).
  { exists 0. intros a n En. simpl in En. now rewrite node_at_None in En. }
  pose proof (K _ _ B0 E) as B. split; [exact E | split; [exact B|]].
  assert (F : isFullBinaryTree t = true).
  { apply (run_keeps_shape (map OpInsert values) empty); [reflexivity | exact E]. }
  destruct B as [d B]. intros a n En.
  unfold isFullBinaryTree in F.
  destruct (root t) as [r0|] eqn:R; [|now rewrite node_at_None in En].
  destruct (has_leaf_below n) as (e & m & Em & Lm).
  assert (Ea : node_at (a ++ e) (Some r0) = Some m) by now rewrite node_at_app, En.
  pose proof (B _ _ Ea Lm) as [_ Hi]. rewrite length_app in Hi.
  assert (C : 2 ^ S d <= countNode r0 + 1).
  { apply full_count_lower; auto. intros e' m' En' Lm'. exact (proj1 (B _ _ En' Lm')). }
  cbn [count]. 
  assert (P : 2 ^ List.length a <= 2 ^ S d) by (apply Nat.pow_le_mono_r; lia).
  lia.
Qed.

End Balance.

Section ConcreteBalance.
Import Sample.
Open Scope Z_scope.

Lemma inserts_fill_level_by_level_witness :
  balanced (root (@empty Z)) /\
  exists t, run (map OpInsert [10; 20; 30]) empty = Some t /\ balanced (root t).
Proof.
  destruct (inserts_fill_level_by_level [10; 20; 30]) as [K (t & E & B & _)].
  assert (B0 : balanced (root (@empty Z))).
  { exists 0%nat. intros a n En. simpl in En. now rewrite node_at_None in En. }
  split; [exact B0|]. exists t. split; [exact E | exact (K _ _ B0 E)].
Defined.

End ConcreteBalance.

Section ConcreteAssignment.
Import Sample.
Open Scope Z_scope.

Lemma copies_are_equal_witness :
  0%nat <> 1%nat /\
  fst (operator_assign (fun k => if Nat.eqb k 0 then t3 else t_lopsided) 0 1) 0%nat
    = t_lopsided /\
  NoDup (snd (operator_assign (fun k => if Nat.eqb k 0 then t3 else t_lopsided) 0 1)) /\
  List.length (snd (operator_assign (fun k => if Nat.eqb k 0 then t3 else t_lopsided) 0 1))
    = 5%nat.
Proof.
  assert (N : 0%nat <> 1%nat) by discriminate.
  destruct (copies_are_equal (fun k => if Nat.eqb k 0 then t3 else t_lopsided) 0 1)
    as (_ & Ek & _ & Kn).
  split; [exact N | split; [exact (Ek 0%nat) | split; [exact (proj1 (Kn N)) | reflexivity]]].
Defined.

Lemma go_DeserializeText_errors_witness :
  Go.fails (Go.mkReader (chars "3 10 null") false) = false /\
  Go.Fields (chars "3 10 null") <> [] /\
  Go.Sscanf_d (hd [] (Go.Fields (chars "3 10 null"))) <> None /\
  Forall Go.scans (tl (Go.Fields (chars "3 10 null"))) /\
  Go.DeserializeText (Go.mkReader (chars "3 10 null") false) t3
    = Some (mkTree (leaf 10) 3, None).
Proof.
  assert (Hf : Go.fails (Go.mkReader (chars "3 10 null") false) = false) by reflexivity.
  assert (Ht : Go.Fields (chars "3 10 null") <> []) by discriminate.
  assert (Hs : Go.Sscanf_d (hd [] (Go.Fields (chars "3 10 null"))) <> None)
    by discriminate.
  assert (Ha : Forall Go.scans (tl (Go.Fields (chars "3 10 null")))).
  { change (tl (Go.Fields (chars "3 10 null"))) with [chars "10"; chars "null"].
    constructor; [right; discriminate | constructor; [left; reflexivity | constructor]]. }
  split; [exact Hf | split; [exact Ht | split; [exact Hs | split; [exact Ha|]]]].
  destruct (go_DeserializeText_errors (Go.mkReader (chars "3 10 null") false) t3)
    as (t' & e & E & _ & _ & K).
  rewrite (K Hf Ht Hs Ha) in E. rewrite E. f_equal. f_equal.
  assert (E' : Go.DeserializeText (Go.mkReader (chars "3 10 null") false) t3
               = Some (mkTree (leaf 10) 3, None)) by reflexivity.
  rewrite E' in E. now injection E as <-.
Defined.

End ConcreteAssignment.
